(** * Verification of the patch-matrix convolution operator, the PGD attack
      and the gradient saliency explainer of [code/student_code.py].

    Tensors are contiguous row-major arrays: a shape and a flat list of
    elements, as in torch; the gradient that autograd hands to [backward]
    comes with its strides.  Elements are exact numbers (integers); the
    rounding of floating-point arithmetic is outside this development. *)

From Stdlib Require Import ZArith List Lia Bool Arith.
From stdpp Require Import gmap.
Import ListNotations.
Local Open Scope Z_scope.

(** ** Finite sums over an index range *)

Fixpoint sum_n (n : nat) (f : nat -> Z) : Z :=
  match n with
  | O => 0
  | S k => sum_n k f + f k
  end.

(** ** Building arrays element by element (nested loops, row-major) *)

Definition tab1 (a : nat) (f : nat -> Z) : list Z := map f (seq 0 a).

Definition tab2 (a b : nat) (f : nat -> nat -> Z) : list Z :=
  flat_map (fun i => tab1 b (f i)) (seq 0 a).

Definition tab3 (a b c : nat) (f : nat -> nat -> nat -> Z) : list Z :=
  flat_map (fun i => tab2 b c (f i)) (seq 0 a).

Definition tab4 (a b c d : nat) (f : nat -> nat -> nat -> nat -> Z) : list Z :=
  flat_map (fun i => tab3 b c d (f i)) (seq 0 a).

Definition tab5 (a b c d e : nat)
  (f : nat -> nat -> nat -> nat -> nat -> Z) : list Z :=
  flat_map (fun i => tab4 b c d e (f i)) (seq 0 a).

Definition tab6 (a b c d e g : nat)
  (f : nat -> nat -> nat -> nat -> nat -> nat -> Z) : list Z :=
  flat_map (fun i => tab5 b c d e g (f i)) (seq 0 a).

(** ** Tensors *)

Record Tensor := mkTensor { shape : list nat; data : list Z }.

Definition numel_of (dims : list nat) : nat := fold_right Nat.mul 1%nat dims.

Definition numel (t : Tensor) : nat := length (data t).

(** A tensor is well formed when its storage has one element per index. *)
Definition wf (t : Tensor) : Prop := length (data t) = numel_of (shape t).

(** [t.size(k)]; every use below is on a tensor whose rank is known. *)
Definition size (t : Tensor) (k : nat) : nat := nth k (shape t) 0%nat.

Definition get1 (t : Tensor) (i : nat) : Z := nth i (data t) 0.

Definition get2 (t : Tensor) (i j : nat) : Z :=
  nth (i * size t 1 + j) (data t) 0.

Definition get3 (t : Tensor) (i j k : nat) : Z :=
  nth ((i * size t 1 + j) * size t 2 + k) (data t) 0.

Definition get4 (t : Tensor) (n c h w : nat) : Z :=
  nth (((n * size t 1 + c) * size t 2 + h) * size t 3 + w) (data t) 0.

(** Inner product of two tensors over their flat storage. *)
Definition dot (a b : Tensor) : Z :=
  sum_n (numel a) (fun i => nth i (data a) 0 * nth i (data b) 0).

(** Element-wise sum of two tensors of the same shape. *)
Definition tadd (a b : Tensor) : Tensor :=
  {| shape := shape a;
     data := tab1 (numel a) (fun i => nth i (data a) 0 + nth i (data b) 0) |}.

(** ** Errors and Python values *)

Inductive error := AssertionError | RuntimeError.

Inductive result (A : Type) :=
| Ok (a : A)
| Err (e : error).
Arguments Ok {A} a.
Arguments Err {A} e.

Definition rbind {A B} (r : result A) (k : A -> result B) : result B :=
  match r with
  | Ok a => k a
  | Err e => Err e
  end.

(** An argument as Python passes it: an instance of [int], or any other
    object.  [isinstance(v, int) and v > 0] never reads the value of an
    object that is not an [int]. *)
Inductive pyval :=
| PyInt (z : Z)
| PyOther.

Definition isinstance_int (v : pyval) : bool :=
  match v with PyInt _ => true | PyOther => false end.

Definition int_of (v : pyval) : Z :=
  match v with PyInt z => z | PyOther => 0 end.

(** ** Tensor operations of torch used by the operator *)

(** [t.view(dims)], where [None] stands for the dimension [-1] that torch
    infers.  torch accepts an inferred dimension only when the product of
    the given ones is positive and divides the number of elements (with no
    element, or a product of zero, the dimension is ambiguous and torch
    raises); without [-1] the product must be the number of elements. *)
Definition view (t : Tensor) (dims : list (option nat)) : result Tensor :=
  let known :=
    fold_right (fun d acc => match d with Some k => k * acc | None => acc end)%nat
               1%nat dims in
  let holes := length (List.filter (fun d => match d with None => true | _ => false end) dims) in
  match holes with
  | O =>
      if (numel t =? known)%nat
      then Ok {| shape := map (fun d => match d with Some k => k | None => O end) dims;
                 data := data t |}
      else Err RuntimeError
  | S O =>
      if (0 <? known)%nat && (numel t mod known =? 0)%nat
      then Ok {| shape := map (fun d => match d with
                                         | Some k => k
                                         | None => (numel t / known)%nat
                                         end) dims;
                 data := data t |}
      else Err RuntimeError
  | _ => Err RuntimeError
  end.

(** [t.clone()]: a new tensor with the same shape and elements. *)
Definition clone (t : Tensor) : Tensor :=
  {| shape := shape t; data := data t |}.

(** [a @ b] for the two rank combinations the operator uses: a matrix times
    a batch of matrices, and a batch times a batch (a batch of one is
    broadcast).  Inner dimensions must agree. *)
Definition matmul (a b : Tensor) : result Tensor :=
  match shape a, shape b with
  | [M; K], [N; K'; L] =>
      if (K =? K')%nat
      then Ok {| shape := [N; M; L];
                 data := tab3 N M L (fun n i l =>
                           sum_n K (fun k => get2 a i k * get3 b n k l)) |}
      else Err RuntimeError
  | [N; M; K], [N'; K'; L] =>
      if (K =? K')%nat && ((N =? N') || (N =? 1) || (N' =? 1))%nat
      then let B := Nat.max N N' in
           Ok {| shape := [B; M; L];
                 data := tab3 B M L (fun n i l =>
                           sum_n K (fun k =>
                             get3 a (if (N =? 1)%nat then O else n) i k *
                             get3 b (if (N' =? 1)%nat then O else n) k l)) |}
      else Err RuntimeError
  | _, _ => Err RuntimeError
  end.

(** [a.T] of a matrix. *)
Definition transpose2 (a : Tensor) : result Tensor :=
  match shape a with
  | [M; K] => Ok {| shape := [K; M]; data := tab2 K M (fun k i => get2 a i k) |}
  | _ => Err RuntimeError
  end.

(** [torch.transpose(a, 1, 2)] of a batch of matrices. *)
Definition transpose12 (a : Tensor) : result Tensor :=
  match shape a with
  | [N; R; L] =>
      Ok {| shape := [N; L; R]; data := tab3 N L R (fun n l r => get3 a n r l) |}
  | _ => Err RuntimeError
  end.

(** [torch.sum(a, dim=0)] of a batch of matrices. *)
Definition sum_dim0 (a : Tensor) : result Tensor :=
  match shape a with
  | [N; M; K] =>
      Ok {| shape := [M; K];
            data := tab2 M K (fun i k => sum_n N (fun n => get3 a n i k)) |}
  | _ => Err RuntimeError
  end.

(** [a.sum((0, 2, 3))] of a 4-D tensor. *)
Definition sum_dims023 (a : Tensor) : result Tensor :=
  match shape a with
  | [N; C; H; W] =>
      Ok {| shape := [C];
            data := tab1 C (fun c =>
                      sum_n N (fun n => sum_n H (fun h => sum_n W (fun w =>
                        get4 a n c h w)))) |}
  | _ => Err RuntimeError
  end.

(** [out += b] for [out] of shape (N, C, L) and a column [b] of shape
    (C', 1): torch broadcasts [b] along the batch and along L; it needs
    C' = C or C' = 1. *)
Definition iadd_column (out b : Tensor) : result Tensor :=
  match shape out, shape b with
  | [N; C; L], [C'; 1%nat] =>
      if (C' =? C)%nat
      then Ok {| shape := [N; C; L];
                 data := tab3 N C L (fun n c l => get3 out n c l + get1 b c) |}
      else if (C' =? 1)%nat
      then Ok {| shape := [N; C; L];
                 data := tab3 N C L (fun n c l => get3 out n c l + get1 b O) |}
      else Err RuntimeError
  | _, _ => Err RuntimeError
  end.

(** ** Patch extraction and accumulation *)

(** Number of window positions along one axis:
    floor((H + 2 padding - kernel_size) / stride) + 1. *)
Definition out_size (H p K s : nat) : nat := ((H + 2 * p - K) / s + 1)%nat.

(** Parameters that form a ConvParams record for an H x W map. *)
Definition conv_params_ok (H W K p s : nat) : bool :=
  (0 <? K)%nat && (0 <? s)%nat && (K <=? H + 2 * p)%nat && (K <=? W + 2 * p)%nat.

(** Row [a], column [b] of plane (n, c) of [x] after logical zero padding
    by [p] on the four borders: reads outside [x] give zero. *)
Definition pad_read (x : Tensor) (p n c a b : nat) : Z :=
  if (p <=? a)%nat && (a <? size x 2 + p)%nat &&
     (p <=? b)%nat && (b <? size x 3 + p)%nat
  then get4 x n c (a - p) (b - p)
  else 0.

(** Modelled from the spec: [torch.nn.functional.unfold], which the file
    imports and whose body is not part of it (section 4.1, PatchExtractor).
    Column l = ho * W_o + wo holds the receptive field at output position
    (ho, wo), flattened channel-major and then row-major inside the K x K
    window; parameters that are not a ConvParams for the map (kernel that
    does not fit, kernel or stride that is not positive) fail. *)
Definition unfold (x : Tensor) (K p s : nat) : result Tensor :=
  match shape x with
  | [N; C; H; W] =>
      if conv_params_ok H W K p s
      then let Ho := out_size H p K s in
           let Wo := out_size W p K s in
           Ok {| shape := [N; C * K * K; Ho * Wo]%nat;
                 data := tab6 N C K K Ho Wo (fun n c kh kw ho wo =>
                           pad_read x p n c (ho * s + kh) (wo * s + kw)) |}
      else Err RuntimeError
  | _ => Err RuntimeError
  end.

(** [l[i] += v]; nothing happens out of range. *)
Fixpoint add_at (i : nat) (v : Z) (l : list Z) : list Z :=
  match l, i with
  | [], _ => []
  | x :: r, O => (x + v) :: r
  | x :: r, S j => x :: add_at j v r
  end.

(** One H x W plane of the accumulation: starting from zeros, every entry
    of every column is added at the position it was extracted from;
    entries that came from the padding are dropped. *)
Definition fold_plane (m : Tensor) (n c H W K p s Ho Wo : nat) : list Z :=
  fold_left (fun acc ho =>
    fold_left (fun acc wo =>
      fold_left (fun acc kh =>
        fold_left (fun acc kw =>
          let a := (ho * s + kh)%nat in
          let b := (wo * s + kw)%nat in
          if (p <=? a)%nat && (a <? H + p)%nat && (p <=? b)%nat && (b <? W + p)%nat
          then add_at ((a - p) * W + (b - p))
                      (get3 m n ((c * K + kh) * K + kw) (ho * Wo + wo)) acc
          else acc)
        (seq 0 K) acc)
      (seq 0 K) acc)
    (seq 0 Wo) acc)
  (seq 0 Ho) (repeat 0 (H * W)).

(** Modelled from the spec: [torch.nn.functional.fold], imported by the
    file and not part of it (section 4.2, PatchAccumulator).  A matrix with
    the layout of the unfolded patches is scattered back into
    (N, C, H, W), summing where receptive fields overlap; a matrix whose
    shape is not that of the patches of an H x W map fails. *)
Definition fold (m : Tensor) (output_size : nat * nat) (K p s : nat)
  : result Tensor :=
  let '(H, W) := output_size in
  match shape m with
  | [N; R; L] =>
      let Ho := out_size H p K s in
      let Wo := out_size W p K s in
      if conv_params_ok H W K p s &&
         (R mod (K * K) =? 0)%nat && (L =? Ho * Wo)%nat
      then let C := (R / (K * K))%nat in
           Ok {| shape := [N; C; H; W];
                 data := flat_map (fun n =>
                           flat_map (fun c => fold_plane m n c H W K p s Ho Wo)
                                    (seq 0 C))
                         (seq 0 N) |}
      else Err RuntimeError
  | _ => Err RuntimeError
  end.

(** Number of receptive fields that cover element (h, w) of the map. *)
Definition covers (K p s x o : nat) : bool :=
  (o * s <=? x + p)%nat && (x + p <? o * s + K)%nat.

Definition coverage (H W K p s h w : nat) : Z :=
  sum_n (out_size H p K s) (fun ho =>
    sum_n (out_size W p K s) (fun wo =>
      if covers K p s h ho && covers K p s w wo then 1 else 0)).

(** ** Part I: the convolution operator *)

(** The context object that autograd hands to [forward] and, later, to the
    matching [backward]. *)
Record Ctx := mkCtx {
  ctx_stride : Z;
  ctx_padding : Z;
  ctx_input_height : nat;
  ctx_input_width : nat;
  saved_tensors : option (Tensor * Tensor * option Tensor);
  needs_input_grad : bool * bool * bool
}.

(** Computations that may raise and that update a state: the context of
    the operator here, the heap and the model further down. *)
Definition ST (S A : Type) : Type := S -> S * result A.

Definition M (A : Type) : Type := ST Ctx A.

Definition ret {S A} (a : A) : ST S A := fun st => (st, Ok a).

Definition bind {S A B} (m : ST S A) (k : A -> ST S B) : ST S B :=
  fun st =>
    match m st with
    | (st', Ok a) => k a st'
    | (st', Err e) => (st', Err e)
    end.

Definition lift {S A} (r : result A) : ST S A := fun st => (st, r).

Definition assert_ {S} (b : bool) : ST S unit :=
  fun st => (st, if b then Ok tt else Err AssertionError).

Definition modify {S} (f : S -> S) : ST S unit := fun st => (f st, Ok tt).

Notation "'do' x <- m ; k" := (bind m (fun x => k))
  (at level 10, x name, m at level 100, k at level 200).
Notation "'run' m ; k" := (bind m (fun _ => k))
  (at level 10, m at level 100, k at level 200).

Definition save_conv_params (stride padding : Z) (H W : nat) (ctx : Ctx) : Ctx :=
  {| ctx_stride := stride; ctx_padding := padding;
     ctx_input_height := H; ctx_input_width := W;
     saved_tensors := saved_tensors ctx;
     needs_input_grad := needs_input_grad ctx |}.

Definition save_for_backward (ts : Tensor * Tensor * option Tensor) (ctx : Ctx)
  : Ctx :=
  {| ctx_stride := ctx_stride ctx; ctx_padding := ctx_padding ctx;
     ctx_input_height := ctx_input_height ctx;
     ctx_input_width := ctx_input_width ctx;
     saved_tensors := Some ts;
     needs_input_grad := needs_input_grad ctx |}.

(** [CustomConv2DFunction.forward] *)
Definition forward (input_feats weight : Tensor) (bias : option Tensor)
  (stride padding : pyval) : M Tensor :=
  (* sanity check *)
  run assert_ (size weight 2 =? size weight 3)%nat ;
  run assert_ (size input_feats 1 =? size weight 1)%nat ;
  run assert_ (isinstance_int stride && (0 <? int_of stride)) ;
  run assert_ (isinstance_int padding && (0 <=? int_of padding)) ;
  let stride := int_of stride in
  let padding := int_of padding in
  (* save the conv params *)
  let kernel_size := size weight 2 in
  run modify (save_conv_params stride padding
                (size input_feats 2) (size input_feats 3)) ;
  (* make sure this is a valid convolution *)
  run assert_ (Z.of_nat kernel_size <=? Z.of_nat (size input_feats 2) + 2 * padding) ;
  run assert_ (Z.of_nat kernel_size <=? Z.of_nat (size input_feats 3) + 2 * padding) ;
  let N := size input_feats 0 in
  let H := size input_feats 2 in
  let C_o := size weight 0 in
  do input_unfolded <-
    lift (unfold input_feats kernel_size (Z.to_nat padding) (Z.to_nat stride)) ;
  do weight_unfolded <- lift (view weight [Some C_o; None]) ;
  do output_unfolded <- lift (matmul weight_unfolded input_unfolded) ;
  do output_unfolded <-
    match bias with
    | Some b =>
        (do column <- lift (view b [None; Some 1%nat]) ;
         lift (iadd_column output_unfolded column))
    | None => ret output_unfolded
    end ;
  let H_o := (Z.of_nat H + 2 * padding - Z.of_nat kernel_size) / stride + 1 in
  do viewed <-
    lift (view output_unfolded [Some N; Some C_o; Some (Z.to_nat H_o); None]) ;
  let output := clone viewed in
  run modify (save_for_backward (input_unfolded, weight, bias)) ;
  ret output.

(** ** Strided tensors *)

(** A tensor as autograd may hand it to [backward]: a view into a storage,
    with one stride per dimension.  The tensors above are the contiguous
    ones. *)
Record Strided := mkStrided {
  s_shape : list nat;
  s_strides : list nat;
  s_offset : nat;
  s_storage : list Z
}.

(** [g.size(k)] *)
Definition s_size (g : Strided) (k : nat) : nat := nth k (s_shape g) 0%nat.

(** The elements of a view, in row-major order of their indices. *)
Fixpoint gather (dims strides : list nat) (off : nat) (st : list Z)
  : list Z :=
  match dims, strides with
  | [], _ => [nth off st 0]
  | d :: ds, s :: ss =>
      flat_map (fun i => gather ds ss (off + i * s)%nat st) (seq 0 d)
  | _ :: _, [] => []
  end.

(** [g.contiguous()]: the tensor that has the elements of the view. *)
Definition contiguous (g : Strided) : Tensor :=
  {| shape := s_shape g;
     data := gather (s_shape g) (s_strides g) (s_offset g) (s_storage g) |}.

(** The strides of a contiguous tensor, and a contiguous tensor as a
    view of its own storage. *)
Fixpoint row_major (dims : list nat) : list nat :=
  match dims with
  | [] => []
  | _ :: ds => numel_of ds :: row_major ds
  end.

Definition of_tensor (t : Tensor) : Strided :=
  {| s_shape := shape t; s_strides := row_major (shape t);
     s_offset := 0; s_storage := data t |}.

(** Whether torch can view a tensor of shape [oldshape] and strides
    [oldstrides] in the shape [newshape] without copying.  From the last
    dimension to the first, the dimensions of the tensor fall into chunks
    that lie contiguously in memory; each chunk has to be filled exactly
    by dimensions of the new shape.  [consume_view] takes the dimensions
    of the new shape (last first) that go into a chunk of [tn] elements;
    [view_chunks] walks the dimensions of the tensor (last first, each
    with its stride). *)
Fixpoint consume_view (vd : list nat) (vn tn : nat) : list nat * nat :=
  match vd with
  | [] => ([], vn)
  | d :: rest =>
      if ((vn <? tn) || (d =? 1))%nat
      then consume_view rest (vn * d)%nat tn
      else (vd, vn)
  end.

Fixpoint view_chunks (old : list (nat * nat)) (vd : list nat)
  (base tn vn : nat) : bool :=
  match old with
  | [] => match vd with [] => true | _ :: _ => false end
  | (sz, _) :: prev =>
      let tn := (tn * sz)%nat in
      match prev with
      | [] =>
          let '(vd', vn') := consume_view vd vn tn in
          (vn' =? tn)%nat && match vd' with [] => true | _ :: _ => false end
      | (psz, pst) :: _ =>
          if (negb (psz =? 1) && negb (pst =? tn * base))%nat
          then let '(vd', vn') := consume_view vd vn tn in
               (vn' =? tn)%nat && view_chunks prev vd' pst 1 1
          else view_chunks prev vd base tn vn
      end
  end.

Definition viewable (oldshape oldstrides newshape : list nat) : bool :=
  let old := rev (combine oldshape oldstrides) in
  match old with
  | [] => true
  | (_, last_stride) :: _ =>
      if (numel_of oldshape =? 0)%nat then true
      else view_chunks old (rev newshape) last_stride 1 1
  end.

(** Strides that are those of a contiguous tensor: each is the number of
    elements to its right. *)
Fixpoint chained (old : list (nat * nat)) (tn : nat) : Prop :=
  match old with
  | [] => True
  | (sz, st) :: prev => st = tn /\ chained prev (tn * sz)%nat
  end.

(** [g.view(dims)] of a strided tensor: torch infers a dimension given as
    -1 and checks the number of elements as for [view], and raises when
    the strides do not allow the new shape. *)
Definition strided_view (g : Strided) (dims : list (option nat))
  : result Tensor :=
  rbind (view (contiguous g) dims) (fun t =>
    if viewable (s_shape g) (s_strides g) (shape t)
    then Ok t
    else Err RuntimeError).

(** The gradient of ones of the example as autograd would pass it when the
    loss is computed on the output with its two spatial axes swapped: same
    shape, strides of the transpose. *)
Definition ex_g_transposed : Strided :=
  {| s_shape := [1; 1; 3; 3]%nat; s_strides := [9; 9; 1; 3]%nat;
     s_offset := 0; s_storage := repeat 1 9 |}.

(** [CustomConv2DFunction.backward]; the two trailing [None] of the
    returned tuple (for stride and padding) carry no information.
    [grad_output] comes from autograd with the strides that the
    operations after the convolution gave it: [view] in the first line
    raises when they do not allow its last two dimensions to be merged,
    the other operations read its elements whatever the strides. *)
Definition backward (grad_output : Strided)
  : M (option Tensor * option Tensor * option Tensor) :=
  fun ctx =>
  match saved_tensors ctx with
  | None => (ctx, Err RuntimeError)
  | Some (input_unfolded, weight, bias) =>
    let kernel_size := size weight 2 in
    let stride := ctx_stride ctx in
    let padding := ctx_padding ctx in
    let input_height := ctx_input_height ctx in
    let input_width := ctx_input_width ctx in
    let '(needs0, needs1, needs2) := needs_input_grad ctx in
    (ctx,
     rbind (strided_view grad_output
              [Some (s_size grad_output 0); Some (s_size grad_output 1); None])
       (fun grad_output_unfolded =>
     rbind (if needs0
            then rbind (view weight [Some (size weight 0); None])
                   (fun weight_unfolded =>
                 rbind (transpose2 weight_unfolded) (fun weight_T =>
                 rbind (matmul weight_T grad_output_unfolded)
                   (fun grad_input_unfolded =>
                 rbind (fold grad_input_unfolded (input_height, input_width)
                          kernel_size (Z.to_nat padding) (Z.to_nat stride))
                   (fun grad_input => Ok (Some grad_input)))))
            else Ok None)
       (fun grad_input =>
     rbind (if needs1
            then rbind (transpose12 input_unfolded) (fun input_transpose =>
                 rbind (matmul grad_output_unfolded input_transpose)
                   (fun prod =>
                 rbind (sum_dim0 prod) (fun grad_weight_unfolded =>
                 rbind (view grad_weight_unfolded
                          [Some (size weight 0); None;
                           Some kernel_size; Some kernel_size])
                   (fun grad_weight => Ok (Some grad_weight)))))
            else Ok None)
       (fun grad_weight =>
     rbind (match bias with
            | Some _ =>
                if needs2
                then rbind (sum_dims023 (contiguous grad_output))
                       (fun grad_bias => Ok (Some grad_bias))
                else Ok None
            | None => Ok None
            end)
       (fun grad_bias => Ok (grad_input, grad_weight, grad_bias))))))
  end.

(** The reference the operator is compared with: the convolution written
    as nested loops over the output positions, with a triple loop over
    input channel and the two kernel axes for each of them. *)
Definition bias_at (bias : option Tensor) (co : nat) : Z :=
  match bias with
  | Some b => get1 b co
  | None => 0
  end.

Definition conv2d_reference (x w : Tensor) (bias : option Tensor) (s p : nat)
  : Tensor :=
  let N := size x 0 in
  let C_i := size x 1 in
  let H := size x 2 in
  let W := size x 3 in
  let C_o := size w 0 in
  let K := size w 2 in
  let H_o := out_size H p K s in
  let W_o := out_size W p K s in
  {| shape := [N; C_o; H_o; W_o];
     data := tab4 N C_o H_o W_o (fun n co ho wo =>
               sum_n C_i (fun ci =>
                 sum_n K (fun kh =>
                   sum_n K (fun kw =>
                     get4 w co ci kh kw *
                     pad_read x p n ci (ho * s + kh) (wo * s + kw))))
               + bias_at bias co) |}.

(** The optional bias is a vector with one entry per output channel. *)
Definition bias_ok (Co : nat) (bias : option Tensor) : Prop :=
  match bias with
  | None => True
  | Some b => shape b = [Co] /\ length (data b) = Co
  end.

(** The patches that [forward] saves for [backward]. *)
Definition unfolded (x : Tensor) (K p s : nat) : Tensor :=
  {| shape := [size x 0; size x 1 * K * K;
               out_size (size x 2) p K s * out_size (size x 3) p K s]%nat;
     data := tab6 (size x 0) (size x 1) K K
               (out_size (size x 2) p K s) (out_size (size x 3) p K s)
               (fun n c kh kw ho wo =>
                  pad_read x p n c (ho * s + kh) (wo * s + kw)) |}.

(** Weighted sum of an accumulator: the quantity that the scatter of
    [fold] increases entry by entry. *)
Definition wsum (xf : nat -> Z) (acc : list Z) : Z :=
  sum_n (length acc) (fun j => nth j acc 0 * xf j).

(** A loop body is additive when each iteration keeps the length of the
    accumulator and adds a known amount to its weighted sum. *)
Definition additive (xf : nat -> Z) (len n : nat)
  (step : list Z -> nat -> list Z) (c : nat -> Z) : Prop :=
  forall acc k, (k < n)%nat -> length acc = len ->
    length (step acc k) = len /\ wsum xf (step acc k) = wsum xf acc + c k.

(** The contract that the assertions of [forward] check. *)
Definition contract (x w : Tensor) (stride padding : pyval) : Prop :=
  size w 2 = size w 3 /\
  size x 1 = size w 1 /\
  (exists s, stride = PyInt s /\ 0 < s) /\
  (exists p, padding = PyInt p /\ 0 <= p /\
     Z.of_nat (size w 2) <= Z.of_nat (size x 2) + 2 * p /\
     Z.of_nat (size w 2) <= Z.of_nat (size x 3) + 2 * p).

(** Exceptions of torch are [RuntimeError]s; only an [assert] raises
    [AssertionError]. *)
Definition raises_only_runtime {A} (r : result A) : Prop :=
  forall e, r = Err e -> e = RuntimeError.

(** The result of [fold] on a matrix with the layout of the patches. *)
Definition folded (m : Tensor) (N C H W K p s : nat) : Tensor :=
  {| shape := [N; C; H; W];
     data := flat_map (fun n =>
               flat_map (fun c =>
                 fold_plane m n c H W K p s
                   (out_size H p K s) (out_size W p K s))
                 (seq 0 C))
               (seq 0 N) |}.

(** Transposed flattened weight times flattened grad_output:
    entry (n, r, l) is the sum over output channels of w[co, r] g[n, co, l]. *)
Definition grad_patches (w g : Tensor) (N R Co L : nat) : Tensor :=
  {| shape := [N; R; L];
     data := tab3 N R L (fun n r l =>
               sum_n Co (fun co =>
                 nth (co * R + r) (data w) 0 *
                 nth ((n * Co + co) * L + l) (data g) 0)) |}.

(** grad_output times the transposed patches, summed over the batch. *)
Definition grad_weight_spec (u g : Tensor) (N C K Co L : nat) : Tensor :=
  {| shape := [Co; C; K; K];
     data := tab2 Co (C * K * K) (fun co r =>
               sum_n N (fun n => sum_n L (fun l =>
                 nth ((n * Co + co) * L + l) (data g) 0 * get3 u n r l))) |}.

(** grad_output summed over the batch and the two spatial axes. *)
Definition grad_bias_spec (g : Tensor) (N Co Ho Wo : nat) : Tensor :=
  {| shape := [Co];
     data := tab1 Co (fun co =>
               sum_n N (fun n => sum_n Ho (fun h => sum_n Wo (fun w =>
                 get4 g n co h w)))) |}.

(** Concrete arguments for the examples: a 4 x 4 map, a 2 x 2 kernel, a
    bias, a gradient of ones, an empty batch, a 1 x 1 kernel and a 3 x 3
    map of ones. *)
Definition ex_ctx : Ctx := mkCtx 0 0 0 0 None (true, true, true).
Definition ex_x : Tensor := mkTensor [1; 1; 4; 4]%nat (map Z.of_nat (seq 1 16)).
Definition ex_w : Tensor := mkTensor [1; 1; 2; 2]%nat [1; 2; 3; 4].
Definition ex_b : Tensor := mkTensor [1]%nat [10].
Definition ex_g : Tensor := mkTensor [1; 1; 3; 3]%nat (repeat 1 9).
Definition ex_x3 : Tensor := mkTensor [1; 1; 3; 3]%nat (repeat 1 9).

(** [grad] is the gradient in [a] of the loss <g, f a>: it has the shape
    of [a], and moving [a] by [d] changes the loss by <grad, d>.  As [f]
    is affine in [a] this is its exact derivative. *)
Definition exact_gradient (f : Tensor -> result Tensor) (g a grad : Tensor)
  : Prop :=
  shape grad = shape a /\
  forall d, shape d = shape a ->
    exists o o', f a = Ok o /\ f (tadd a d) = Ok o' /\
      dot g o' - dot g o = dot grad d.

(** ** Part III: adversarial samples and attention *)

(** A tensor object of torch: its value and the autograd metadata that the
    two procedures read and write. *)
Record TObj := mkTObj {
  t_val : Tensor;
  requires_grad : bool;
  grad : option Tensor
}.

(** The [nn.Module] under attack: its mode flag and the [requires_grad]
    flag of each of its parameters. *)
Record Module := mkModule {
  training : bool;
  params_requires_grad : list bool
}.

(** The mutable state shared with the caller: the heap of tensor objects
    and the model. *)
Record World := mkWorld {
  heap : gmap nat TObj;
  module : Module
}.

(** A differentiable model as autograd sees it: the forward evaluation,
    which depends on the mode and may raise, and the backward pass (the
    gradient of a scalar with respect to the input, given its gradient with
    respect to the logits).  The gradient autograd returns has the shape of
    the tensor it differentiates. *)
Record DiffModel := mkDiffModel {
  call : bool -> Tensor -> result Tensor;
  vjp : bool -> Tensor -> Tensor -> Tensor
}.

(** A loss [loss(logits, labels)] with its gradient in the logits. *)
Record LossFn := mkLossFn {
  loss_value : Tensor -> list nat -> result Z;
  loss_vjp : Tensor -> list nat -> Tensor
}.

Record PGDAttack := mkPGDAttack {
  loss_fn : LossFn;
  num_steps : Z;
  step_size : Z;
  epsilon : Z
}.

(** Index of the first smallest (largest) of [f 0 .. f (k - 1)]. *)
Fixpoint argmin_upto (k : nat) (f : nat -> Z) : nat :=
  match k with
  | O => O
  | S k' => let j := argmin_upto k' f in
            if (0 <? k')%nat && (f k' <? f j) then k' else j
  end.

Fixpoint argmax_upto (k : nat) (f : nat -> Z) : nat :=
  match k with
  | O => O
  | S k' => let j := argmax_upto k' f in
            if (0 <? k')%nat && (f j <? f k') then k' else j
  end.

(** [logits.argmin(dim=1)] and [logits.argmax(1)] of an (N, classes)
    matrix; torch raises when there is no class. *)
Definition argmin_dim1 (logits : Tensor) : result (list nat) :=
  match shape logits with
  | [N; K] =>
      if (0 <? K)%nat
      then Ok (map (fun n => argmin_upto K (fun k => get2 logits n k)) (seq 0 N))
      else Err RuntimeError
  | _ => Err RuntimeError
  end.

Definition argmax_dim1 (logits : Tensor) : result (list nat) :=
  match shape logits with
  | [N; K] =>
      if (0 <? K)%nat
      then Ok (map (fun n => argmax_upto K (fun k => get2 logits n k)) (seq 0 N))
      else Err RuntimeError
  | _ => Err RuntimeError
  end.

(** Element-wise operations; the operands of a binary one have the same
    shape here. *)
Definition tmap (f : Z -> Z) (t : Tensor) : Tensor :=
  {| shape := shape t; data := map f (data t) |}.

Definition tzip (f : Z -> Z -> Z) (a b : Tensor) : Tensor :=
  {| shape := shape a;
     data := tab1 (numel a) (fun i => f (nth i (data a) 0) (nth i (data b) 0)) |}.

(** Heap primitives. *)
Definition set_heap (h : gmap nat TObj) (w : World) : World :=
  {| heap := h; module := module w |}.

Definition set_training (b : bool) (w : World) : World :=
  {| heap := heap w;
     module := {| training := b;
                  params_requires_grad := params_requires_grad (module w) |} |}.

Definition alloc (o : TObj) : ST World nat :=
  fun w => let l := fresh (dom (heap w)) in
           (set_heap (<[l := o]> (heap w)) w, Ok l).

Definition load (l : nat) : ST World TObj :=
  fun w => match heap w !! l with
           | Some o => (w, Ok o)
           | None => (w, Err RuntimeError)
           end.

Definition store (l : nat) (o : TObj) : ST World unit :=
  fun w => (set_heap (<[l := o]> (heap w)) w, Ok tt).

(** [model(t)]: the model is evaluated in its current mode. *)
Definition call_model (model : DiffModel) (t : Tensor) : ST World Tensor :=
  fun w => (w, call model (training (module w)) t).

Definition get_training : ST World bool :=
  fun w => (w, Ok (training (module w))).

(** [t.grad.zero_()] when [t.grad] is not [None]. *)
Definition zero_grad (o : TObj) : option Tensor :=
  match grad o with
  | Some gr => Some (tmap (fun _ => 0) gr)
  | None => None
  end.

(** [PGDAttack.perturb]: one iteration of the loop, from the candidate at
    [output] to the next candidate. *)
Definition pgd_iteration (self : PGDAttack) (model : DiffModel)
  (input output : nat) : ST World nat :=
  (* output.requires_grad_(); if output.grad is not None: output.grad.zero_() *)
  do o <- load output ;
  run store output {| t_val := t_val o; requires_grad := true;
                      grad := zero_grad o |} ;
  (* forward pass *)
  do logits <- call_model model (t_val o) ;
  do pred <- lift (argmin_dim1 logits) ;
  do loss <- lift (loss_value (loss_fn self) logits pred) ;
  (* gradients of the loss in the candidate *)
  do mode <- get_training ;
  let gradients :=
    vjp model mode (t_val o) (loss_vjp (loss_fn self) logits pred) in
  (* create adversarial sample, clamp values *)
  do stepped <- alloc {| t_val := tzip (fun v g => v - step_size self * Z.sgn g)
                                    (t_val o) gradients;
                         requires_grad := false; grad := None |} ;
  do s <- load stepped ;
  do x <- load input ;
  alloc {| t_val := tzip Z.max
                      (tzip Z.min (t_val s)
                            (tmap (fun v => v + epsilon self) (t_val x)))
                      (tmap (fun v => v - epsilon self) (t_val x));
           requires_grad := false; grad := None |}.

Fixpoint pgd_loop (self : PGDAttack) (model : DiffModel) (input : nat)
  (k : nat) (output : nat) : ST World nat :=
  match k with
  | O => ret output
  | S k' =>
      do next <- pgd_iteration self model input output ;
      pgd_loop self model input k' next
  end.

(** [PGDAttack.perturb] on an input whose requires_grad flag torch lets
    the caller assign (a leaf of the graph, of floating-point type), with a
    loss that autograd can differentiate in the candidate.
    [PGDAttack_perturb] below is the method on any tensor argument; it runs
    as this one on such an input ([PGDAttack_perturb_leaf]). *)
Definition perturb (self : PGDAttack) (model : DiffModel) (input : nat)
  : ST World nat :=
  (* clone the input tensor and disable the gradients *)
  do x <- load input ;
  do output <- alloc {| t_val := clone (t_val x);
                        requires_grad := requires_grad x; grad := None |} ;
  run store input {| t_val := t_val x; requires_grad := false;
                     grad := grad x |} ;
  (* set model mode to eval *)
  do was_training <- get_training ;
  run (if was_training then modify (set_training false) else ret tt) ;
  do output <- pgd_loop self model input (Z.to_nat (num_steps self)) output ;
  (* set model back to training if necessary *)
  run (if was_training then modify (set_training true) else ret tt) ;
  ret output.

(** [GradAttention.explain] *)
Definition freeze_params (w : World) : World :=
  {| heap := heap w;
     module := {| training := training (module w);
                  params_requires_grad :=
                    map (fun _ => false) (params_requires_grad (module w)) |} |}.

Fixpoint max_upto (k : nat) (f : nat -> Z) : Z :=
  match k with
  | O => 0
  | S O => f O
  | S k' => Z.max (max_upto k' f) (f k')
  end.

(** [values, _ = t.max(1)] of a 4-D tensor; torch raises when the reduced
    dimension is empty. *)
Definition max_dim1 (t : Tensor) : result Tensor :=
  match shape t with
  | [N; C; H; W] =>
      if (0 <? C)%nat
      then Ok {| shape := [N; H; W];
                 data := tab3 N H W (fun n h w =>
                           max_upto C (fun c => get4 t n c h w)) |}
      else Err RuntimeError
  | _ => Err RuntimeError
  end.

(** [t.unsqueeze(1)] *)
Definition unsqueeze1 (t : Tensor) : result Tensor :=
  match shape t with
  | d :: rest => Ok {| shape := d :: 1%nat :: rest; data := data t |}
  | [] => Err RuntimeError
  end.

(** [GradAttention.explain] on an input whose requires_grad flag torch
    lets the caller assign, with a loss that autograd can differentiate in
    the input.  [GradAttention_explain] below is the method on any tensor
    argument; it runs as this one on such an input
    ([GradAttention_explain_leaf]). *)
Definition explain (loss : LossFn) (model : DiffModel) (input : nat)
  : ST World Tensor :=
  (* input.requires_grad = True; if input.grad is not None: zero it *)
  do x <- load input ;
  run store input {| t_val := t_val x; requires_grad := true;
                     grad := zero_grad x |} ;
  (* for params in model.parameters(): params.requires_grad = False *)
  run modify freeze_params ;
  run modify (set_training false) ;
  (* forward pass *)
  do output <- call_model model (t_val x) ;
  do pred <- lift (argmax_dim1 output) ;
  do loss_ <- lift (loss_value loss output pred) ;
  (* backward pass: the gradient is accumulated into input.grad *)
  do mode <- get_training ;
  let g := vjp model mode (t_val x) (loss_vjp loss output pred) in
  let accumulated :=
    match zero_grad x with
    | Some z => tzip Z.add {| shape := shape (t_val x); data := data z |} g
    | None => {| shape := shape (t_val x); data := data g |}
    end in
  run store input {| t_val := t_val x; requires_grad := true;
                     grad := Some accumulated |} ;
  let grads := tmap Z.abs accumulated in
  (* take maximum across channels *)
  do saliency <- lift (max_dim1 grads) ;
  do saliency <- lift (unsqueeze1 saliency) ;
  ret saliency.

(** *** The two methods on any tensor argument *)

(** The tensor a caller passes as [input]: the object on the heap, with the
    two attributes that torch examines when a requires_grad flag is set,
    [input.is_leaf] and [input.is_floating_point()].  Neither changes
    during a call.  A tensor that is not a leaf requires a gradient. *)
Record TensorArg := mkTensorArg {
  arg_loc : nat;
  arg_is_leaf : bool;
  arg_is_floating : bool
}.

(** The setter [t.requires_grad = b]: torch raises RuntimeError on a
    tensor that is not a leaf, whatever [b] is, and when a tensor that is
    not of floating-point type is asked to require a gradient. *)
Definition assign_requires_grad (t : TensorArg) (b : bool) : result unit :=
  if arg_is_leaf t
  then if b && negb (arg_is_floating t) then Err RuntimeError else Ok tt
  else Err RuntimeError.

(** What [torch.autograd.grad(loss, [t])] and [loss.backward()] need:
    [connected mode t] tells whether the loss that the model, in mode
    [mode], and the loss function compute from [t] is a scalar that the
    graph records as depending on [t].  Where it is not, both raise
    RuntimeError.  (The parameters of the model and [t] are the only
    tensors of the graph that require a gradient.) *)
Definition Autograd := bool -> Tensor -> bool.

(** [PGDAttack.perturb]: one iteration of the loop.  The candidate has the
    type of the input, and [output.requires_grad_()] raises on a tensor
    that is not of floating-point type. *)
Definition PGDAttack_iteration (self : PGDAttack) (model : DiffModel)
  (connected : Autograd) (input : TensorArg) (output : nat) : ST World nat :=
  (* output.requires_grad_(); if output.grad is not None: output.grad.zero_() *)
  run lift (if arg_is_floating input then Ok tt else Err RuntimeError) ;
  do o <- load output ;
  run store output {| t_val := t_val o; requires_grad := true;
                      grad := zero_grad o |} ;
  (* forward pass *)
  do logits <- call_model model (t_val o) ;
  do pred <- lift (argmin_dim1 logits) ;
  do loss <- lift (loss_value (loss_fn self) logits pred) ;
  (* gradients = torch.autograd.grad(loss, [output])[0] *)
  do mode <- get_training ;
  run lift (if connected mode (t_val o) then Ok tt else Err RuntimeError) ;
  let gradients :=
    vjp model mode (t_val o) (loss_vjp (loss_fn self) logits pred) in
  (* create adversarial sample, clamp values *)
  do stepped <- alloc {| t_val := tzip (fun v g => v - step_size self * Z.sgn g)
                                    (t_val o) gradients;
                         requires_grad := false; grad := None |} ;
  do s <- load stepped ;
  do x <- load (arg_loc input) ;
  alloc {| t_val := tzip Z.max
                      (tzip Z.min (t_val s)
                            (tmap (fun v => v + epsilon self) (t_val x)))
                      (tmap (fun v => v - epsilon self) (t_val x));
           requires_grad := false; grad := None |}.

Fixpoint PGDAttack_loop (self : PGDAttack) (model : DiffModel)
  (connected : Autograd) (input : TensorArg) (k : nat) (output : nat)
  : ST World nat :=
  match k with
  | O => ret output
  | S k' =>
      do next <- PGDAttack_iteration self model connected input output ;
      PGDAttack_loop self model connected input k' next
  end.

(** [PGDAttack.perturb] *)
Definition PGDAttack_perturb (self : PGDAttack) (model : DiffModel)
  (connected : Autograd) (input : TensorArg) : ST World nat :=
  (* output = input.clone() *)
  do x <- load (arg_loc input) ;
  do output <- alloc {| t_val := clone (t_val x);
                        requires_grad := requires_grad x; grad := None |} ;
  (* input.requires_grad = False *)
  run lift (assign_requires_grad input false) ;
  run store (arg_loc input) {| t_val := t_val x; requires_grad := false;
                               grad := grad x |} ;
  (* set model mode to eval *)
  do was_training <- get_training ;
  run (if was_training then modify (set_training false) else ret tt) ;
  do output <- PGDAttack_loop self model connected input
                 (Z.to_nat (num_steps self)) output ;
  (* set model back to training if necessary *)
  run (if was_training then modify (set_training true) else ret tt) ;
  ret output.

(** [GradAttention.explain] *)
Definition GradAttention_explain (loss : LossFn) (model : DiffModel)
  (connected : Autograd) (input : TensorArg) : ST World Tensor :=
  (* input.requires_grad = True *)
  run lift (assign_requires_grad input true) ;
  (* if input.grad is not None: input.grad.zero_() *)
  do x <- load (arg_loc input) ;
  run store (arg_loc input) {| t_val := t_val x; requires_grad := true;
                               grad := zero_grad x |} ;
  (* for params in model.parameters(): params.requires_grad = False *)
  run modify freeze_params ;
  run modify (set_training false) ;
  (* forward pass *)
  do output <- call_model model (t_val x) ;
  do pred <- lift (argmax_dim1 output) ;
  do loss_ <- lift (loss_value loss output pred) ;
  (* loss.backward(): the gradient is accumulated into input.grad *)
  do mode <- get_training ;
  run lift (if connected mode (t_val x) then Ok tt else Err RuntimeError) ;
  let g := vjp model mode (t_val x) (loss_vjp loss output pred) in
  let accumulated :=
    match zero_grad x with
    | Some z => tzip Z.add {| shape := shape (t_val x); data := data z |} g
    | None => {| shape := shape (t_val x); data := data g |}
    end in
  run store (arg_loc input) {| t_val := t_val x; requires_grad := true;
                               grad := Some accumulated |} ;
  let grads := tmap Z.abs accumulated in
  (* take maximum across channels *)
  do saliency <- lift (max_dim1 grads) ;
  do saliency <- lift (unsqueeze1 saliency) ;
  ret saliency.

(** The model whose forward pass raises where autograd would refuse the
    loss taken against the label [label] of the logits: a run of the
    general method on a leaf is the run of the method above on this
    model. *)
Definition traced (label : Tensor -> result (list nat)) (loss : LossFn)
  (connected : Autograd) (model : DiffModel) : DiffModel :=
  {| call := fun mode t =>
       rbind (call model mode t) (fun logits =>
       rbind (label logits) (fun pred =>
       rbind (loss_value loss logits pred) (fun _ =>
       if connected mode t then Ok logits else Err RuntimeError)));
     vjp := vjp model |}.

(** The attack as the specification words it: on pure values, one step
    and its iteration. *)
Definition clamp (lo hi v : Z) : Z := Z.max lo (Z.min v hi).

Definition clamp_box (eps : Z) (original t : Tensor) : Tensor :=
  {| shape := shape t;
     data := tab1 (numel t) (fun i =>
               clamp (nth i (data original) 0 - eps)
                     (nth i (data original) 0 + eps)
                     (nth i (data t) 0)) |}.

Definition pgd_gradient (self : PGDAttack) (model : DiffModel) (mode : bool)
  (candidate logits : Tensor) (label : list nat) : Tensor :=
  vjp model mode candidate (loss_vjp (loss_fn self) logits label).

Definition pgd_step_spec (self : PGDAttack) (model : DiffModel) (mode : bool)
  (original candidate : Tensor) : result Tensor :=
  rbind (call model mode candidate) (fun logits =>
  rbind (argmin_dim1 logits) (fun label =>
  rbind (loss_value (loss_fn self) logits label) (fun _ =>
  let gradient := pgd_gradient self model mode candidate logits label in
  Ok (clamp_box (epsilon self) original
        (tzip (fun v g => v - step_size self * Z.sgn g) candidate gradient))))).

Fixpoint pgd_spec (self : PGDAttack) (model : DiffModel) (mode : bool)
  (original : Tensor) (k : nat) (candidate : Tensor) : result Tensor :=
  match k with
  | O => Ok candidate
  | S k' =>
      rbind (pgd_step_spec self model mode original candidate)
            (pgd_spec self model mode original k')
  end.


(** A model with two classes whose logits are the two pixels of the input,
    a loss, and a model that raises: the inputs of the examples below. *)
Definition toy_model : DiffModel :=
  {| call := fun _ t => Ok {| shape := [1; 2]%nat; data := data t |};
     vjp := fun _ t g => {| shape := shape t; data := data g |} |}.

Definition toy_loss : LossFn :=
  {| loss_value := fun _ _ => Ok 0;
     loss_vjp := fun logits pred =>
        {| shape := shape logits;
           data := match pred with
                   | [O] => [-1; 1]
                   | _ => [1; -1]
                   end |} |}.

Definition failing_model : DiffModel :=
  {| call := fun _ _ => Err RuntimeError;
     vjp := fun _ t g => t |}.

Definition toy_attack (n eps : Z) : PGDAttack :=
  {| loss_fn := toy_loss; num_steps := n; step_size := 1; epsilon := eps |}.

Definition toy_input : TObj :=
  {| t_val := mkTensor [1; 1; 1; 2]%nat [5; 7];
     requires_grad := true; grad := None |}.

Definition toy_logits : Tensor := mkTensor [1; 2]%nat [5; 7].

Definition toy_world (tr : bool) : World :=
  {| heap := {[ 0%nat := toy_input ]}; module := mkModule tr [true; true] |}.

(** Tensor arguments and graphs for the examples: a leaf of floating-point
    type, the result of an operation (not a leaf), and a graph in which
    every loss depends on the tensor it is computed from. *)
Definition leaf_arg (l : nat) : TensorArg := mkTensorArg l true true.
Definition nonleaf_arg (l : nat) : TensorArg := mkTensorArg l false true.
Definition always_connected : Autograd := fun _ _ => true.

(** An input with two channels of two pixels that already has a gradient,
    a linear model on it with two classes, and the world that holds them. *)
Definition two_channel_input : TObj :=
  {| t_val := mkTensor [1; 2; 1; 2]%nat [5; 7; 1; 2];
     requires_grad := false;
     grad := Some (mkTensor [1; 2; 1; 2]%nat [9; 9; 9; 9]) |}.

Definition two_channel_model : DiffModel :=
  {| call := fun _ t =>
       Ok {| shape := [1; 2]%nat;
             data := [nth 0 (data t) 0 - 3 * nth 2 (data t) 0;
                      nth 1 (data t) 0 + 2 * nth 3 (data t) 0] |};
     vjp := fun _ t g =>
       {| shape := shape t;
          data := [nth 0 (data g) 0; nth 1 (data g) 0;
                   -3 * nth 0 (data g) 0; 2 * nth 1 (data g) 0] |} |}.

Definition two_channel_logits : Tensor := mkTensor [1; 2]%nat [2; 11].

Definition two_channel_world : World :=
  {| heap := {[ 0%nat := two_channel_input ]};
     module := mkModule true [true; false] |}.

(** An input without channels, and a model whose logits are constants plus
    0 * input.sum(): the graph records them as depending on the input, with
    a gradient of zeros. *)
Definition no_channel_input : TObj :=
  {| t_val := mkTensor [1; 0; 1; 2]%nat [];
     requires_grad := false; grad := None |}.

Definition constant_model : DiffModel :=
  {| call := fun _ _ => Ok toy_logits;
     vjp := fun _ t _ => {| shape := shape t;
                            data := map (fun _ => 0) (data t) |} |}.

Definition no_channel_world : World :=
  {| heap := {[ 0%nat := no_channel_input ]};
     module := mkModule true [true; true] |}.

(** Outcome of a computation on the heap: [Q] on a normal return, [E] when
    an exception propagates. *)
Definition post {A} (m : ST World A) (w : World)
  (Q : World -> A -> Prop) (E : World -> error -> Prop) : Prop :=
  match m w with
  | (w', Ok a) => Q w' a
  | (w', Err e) => E w' e
  end.

(** ** Definitions for the further properties *)



(** Sum of two optional gradients: [None] when either is absent. *)
Definition oadd (a b : option Tensor) : option Tensor :=
  match a, b with
  | Some t, Some u => Some (tadd t u)
  | _, _ => None
  end.

(** A grad_output for the output [out]: a view of the shape of [out],
    with one stride per dimension, that torch can view with its last two
    dimensions merged (every contiguous tensor of that shape is one). *)
Definition grad_output_for (out : Tensor) (g : Strided) : Prop :=
  s_shape g = shape out /\
  length (s_strides g) = length (shape out) /\
  viewable (s_shape g) (s_strides g)
    [size out 0; size out 1; (size out 2 * size out 3)%nat] = true.

(** Two gradients of ones and twos for the 3 x 3 output of the example. *)
Definition ex_g2 : Tensor := mkTensor [1; 1; 3; 3]%nat (repeat 2 9).
(** A gradient for the 1 x 1 output of the 3 x 3 example. *)
Definition ex_g1 : Tensor := mkTensor [1; 1; 1; 1]%nat [5].

(** A world with a second tensor beside the input of the examples. *)
Definition toy_world2 (tr : bool) : World :=
  {| heap := {[ 0%nat := toy_input;
                1%nat := {| t_val := mkTensor [2]%nat [3; 4];
                            requires_grad := true; grad := None |} ]};
     module := mkModule tr [true; true] |}.

(** What [explain] leaves in [input.grad]: the gradient [g] of the
    backward pass, accumulated into the gradient that was there, which
    [explain] has set to zero. *)
Definition accumulated_grad (xo : TObj) (g : Tensor) : Tensor :=
  match zero_grad xo with
  | Some z => tzip Z.add {| shape := shape (t_val xo); data := data z |} g
  | None => {| shape := shape (t_val xo); data := data g |}
  end.

(** ** The convolution module and the networks *)

(** Exceptions of the module code: those of the operator, and the two
    that Python raises in the initialisers. *)
Inductive exn :=
| Raised (e : error)
| ZeroDivisionError
| AttributeError.

Inductive outcome (A : Type) :=
| Done (a : A)
| Raise (e : exn).
Arguments Done {A} a.
Arguments Raise {A} e.

(** The attributes of a [CustomConv2d] module; [dilation] and [groups]
    are stored and never read. *)
Record CustomConv2d := mkCustomConv2d {
  conv_in_channels : nat;
  conv_out_channels : nat;
  conv_kernel_size : Z;
  conv_stride : Z;
  conv_padding : Z;
  conv_weight : Tensor;
  conv_bias : option Tensor
}.

(** A tensor of the given shape whose elements are drawn from [src]:
    uninitialised memory, or the draws of a random initialiser. *)
Definition new_tensor (src : nat -> Z) (dims : list nat) : Tensor :=
  {| shape := dims; data := tab1 (numel_of dims) src |}.

(** [CustomConv2d.reset_parameters]: [rand_w] and [rand_b] are the draws
    of [kaiming_uniform_] and of [uniform_]; [kaiming_uniform_] leaves a
    tensor without elements as it is, and 1 / sqrt(fan_in) divides by zero
    when the fan-in in_channels * K * K is zero. *)
Definition CustomConv2d_reset_parameters (rand_w rand_b : nat -> Z)
  (self : CustomConv2d) : outcome CustomConv2d :=
  let weight := new_tensor rand_w (shape (conv_weight self)) in
  match conv_bias self with
  | Some b =>
      let fan_in := (size weight 1 * (size weight 2 * size weight 3))%nat in
      if (fan_in =? 0)%nat
      then Raise ZeroDivisionError
      else Done {| conv_in_channels := conv_in_channels self;
                   conv_out_channels := conv_out_channels self;
                   conv_kernel_size := conv_kernel_size self;
                   conv_stride := conv_stride self;
                   conv_padding := conv_padding self;
                   conv_weight := weight;
                   conv_bias := Some (new_tensor rand_b (shape b)) |}
  | None =>
      Done {| conv_in_channels := conv_in_channels self;
              conv_out_channels := conv_out_channels self;
              conv_kernel_size := conv_kernel_size self;
              conv_stride := conv_stride self;
              conv_padding := conv_padding self;
              conv_weight := weight;
              conv_bias := None |}
  end.

(** [CustomConv2d.__init__]; the channel counts are non-negative ints,
    [mem] is the memory that [torch.Tensor(...)] returns uninitialised, and
    torch refuses a negative dimension. *)
Definition CustomConv2d_init (mem rand_w rand_b : nat -> Z)
  (in_channels out_channels : nat) (kernel_size stride padding : pyval)
  (bias : bool) : outcome CustomConv2d :=
  if negb (isinstance_int kernel_size) then Raise (Raised AssertionError)
  else if negb (isinstance_int stride) then Raise (Raised AssertionError)
  else if negb (isinstance_int padding) then Raise (Raised AssertionError)
  else if int_of kernel_size <? 0 then Raise (Raised RuntimeError)
  else
    let K := Z.to_nat (int_of kernel_size) in
    CustomConv2d_reset_parameters rand_w rand_b
      {| conv_in_channels := in_channels;
         conv_out_channels := out_channels;
         conv_kernel_size := int_of kernel_size;
         conv_stride := int_of stride;
         conv_padding := int_of padding;
         conv_weight := new_tensor mem [out_channels; in_channels; K; K];
         conv_bias := if bias
                      then Some (new_tensor mem [out_channels])
                      else None |}.

(** [CustomConv2d.forward]: the operator on the module's parameters. *)
Definition CustomConv2d_forward (self : CustomConv2d) (input : Tensor)
  : M Tensor :=
  forward input (conv_weight self) (conv_bias self)
    (PyInt (conv_stride self)) (PyInt (conv_padding self)).

(** The module that [CustomConv2d(1, 1, 2)] builds when the initialisers
    draw 1, 2, 3, 4 for the weight and 10 for the bias. *)
Definition ex_conv : CustomConv2d :=
  {| conv_in_channels := 1; conv_out_channels := 1;
     conv_kernel_size := 2; conv_stride := 1; conv_padding := 0;
     conv_weight := ex_w; conv_bias := Some ex_b |}.

(** The modules of the networks.  [Conv2d] is torch's [nn.Conv2d] with
    its weight and bias; [CustomConv] is the module above, which is not an
    instance of [nn.Conv2d]; [BatchNorm2d] carries its affine weight and
    bias; [Self] is the network itself and [Sequential], [ModuleList] are
    containers. *)
Inductive Layer :=
| Conv2d (weight : Tensor) (bias : option Tensor) (stride padding : nat)
| CustomConv (m : CustomConv2d)
| BatchNorm2d (weight bias : Tensor)
| ReLU
| MaxPool2d (kernel_size stride padding : nat)
| AdaptiveAvgPool2d (h w : nat)
| Linear (in_features out_features : nat)
| BatchNorm1d (num_features : nat)
| Sequential
| ModuleList
| Self.

(** [nn.BatchNorm2d(n)] as torch builds it: weight of ones, bias of
    zeros. *)
Definition nn_BatchNorm2d (n : nat) : Layer :=
  BatchNorm2d (new_tensor (fun _ => 1) [n]) (new_tensor (fun _ => 0) [n]).

(** [conv_op(in, out, kernel_size=k, stride=s, padding=p)]: the
    constructor of convolutions that the networks take as an argument. *)
Definition ConvOp : Type := nat -> nat -> nat -> nat -> nat -> Layer.

(** [nn.Conv2d(in, out, k, stride, padding)], with the bias it has by
    default; [src] gives the initial values. *)
Definition nn_Conv2d (src : nat -> Z) : ConvOp :=
  fun i o k s p =>
    Conv2d (new_tensor src [o; i; k; k]) (Some (new_tensor src [o])) s p.

(** [self.modules()] of a [SimpleNet] after [SimpleNet.__init__]: the
    network, [features] and its layers, [avgpool], [fc]. *)
Definition SimpleNet_modules (conv_op : ConvOp) (num_classes : nat)
  : list Layer :=
  [ Self; Sequential;
    (* conv1 block: conv 7x7 *)
    conv_op 3 64 7 2 3; ReLU;
    (* max pooling 1/2 *)
    MaxPool2d 3 2 1;
    (* conv2 block: simple bottleneck *)
    conv_op 64 64 1 1 0; ReLU;
    conv_op 64 64 3 1 1; ReLU;
    conv_op 64 256 1 1 0; ReLU;
    (* max pooling 1/2 *)
    MaxPool2d 3 2 1;
    (* conv3 block: simple bottleneck *)
    conv_op 256 128 1 1 0; ReLU;
    conv_op 128 128 3 1 1; ReLU;
    conv_op 128 512 1 1 0; ReLU;
    (* global avg pooling + FC *)
    AdaptiveAvgPool2d 1 1; Linear 512 num_classes ]%nat.

(** [self.modules()] of a [CustomNet] after [CustomNet.__init__].  The
    one residual block is appended [res_depth] times to [reslist];
    [modules()] yields a module once, so the block is listed once when
    [res_depth] is positive and not at all otherwise. *)
Definition CustomNet_modules (conv_op : ConvOp) (num_classes : nat)
  (res_depth : Z) : list Layer :=
  [ Self; Sequential;
    conv_op 3 64 7 2 3; ReLU;
    MaxPool2d 3 2 1;
    nn_BatchNorm2d 64;
    conv_op 64 64 1 1 0; ReLU;
    conv_op 64 64 3 1 1; ReLU;
    conv_op 64 256 1 1 0; ReLU;
    MaxPool2d 3 2 1;
    nn_BatchNorm2d 256;
    ModuleList ]%nat
  ++ (if 0 <? res_depth
      then [ Sequential;
             conv_op 256 64 1 1 0; ReLU;
             conv_op 64 64 3 1 1; ReLU;
             conv_op 64 256 1 1 0; ReLU;
             nn_BatchNorm2d 256 ]%nat
      else [])
  ++ [ Sequential;
       conv_op 256 128 1 1 0; ReLU;
       conv_op 128 128 3 1 1; ReLU;
       conv_op 128 512 1 1 0; ReLU;
       AdaptiveAvgPool2d 1 1;
       Linear 512 256; ReLU; BatchNorm1d 256; Linear 256 num_classes ]%nat.

(** [nn.init.constant_(t, v)] *)
Definition constant_ (t : Tensor) (v : Z) : Tensor := tmap (fun _ => v) t.

(** [SimpleNet.reset_parameters] and [CustomNet.reset_parameters] (the
    same text), on the list that [self.modules()] yields; the modules are
    updated in place, so that what was done before an exception stays
    done.  [kaiming_normal_] is the random initialiser of torch;
    [nn.init] has no attribute [consintat_]. *)
Fixpoint reset_parameters (kaiming_normal_ : Tensor -> Tensor)
  (modules : list Layer) : list Layer * outcome unit :=
  match modules with
  | [] => ([], Done tt)
  | m :: rest =>
      match m with
      | Conv2d weight bias s p =>
          let m' := Conv2d (kaiming_normal_ weight) bias s p in
          match bias with
          | Some _ => (m' :: rest, Raise AttributeError)
          | None =>
              let '(rest', r) := reset_parameters kaiming_normal_ rest in
              (m' :: rest', r)
          end
      | BatchNorm2d weight bias =>
          let '(rest', r) := reset_parameters kaiming_normal_ rest in
          (BatchNorm2d (constant_ weight 1) (constant_ bias 0) :: rest', r)
      | _ =>
          let '(rest', r) := reset_parameters kaiming_normal_ rest in
          (m :: rest', r)
      end
  end.

(** An [nn.Conv2d] that has a bias. *)
Definition biased_conv (m : Layer) : bool :=
  match m with
  | Conv2d _ (Some _) _ _ => true
  | _ => false
  end.

(** A module that [reset_parameters] has no branch for. *)
Definition not_reset (m : Layer) : bool :=
  match m with
  | Conv2d _ _ _ _ | BatchNorm2d _ _ => false
  | _ => true
  end.

(** What [reset_parameters] does to an [nn.Conv2d] before it reaches the
    bias: the weight is drawn again. *)
Definition reinit_weight (kaiming_normal_ : Tensor -> Tensor) (m : Layer)
  : Layer :=
  match m with
  | Conv2d weight bias s p => Conv2d (kaiming_normal_ weight) bias s p
  | _ => m
  end.

(** Two constructors of convolutions for the examples: torch's, with
    zeros for the initial values, and one that returns the custom module
    of the example. *)
Definition ex_conv_op : ConvOp := nn_Conv2d (fun _ => 0).
Definition ex_custom_conv_op : ConvOp := fun _ _ _ _ _ => CustomConv ex_conv.

(** ** Lemmas on sums *)

Section Sums.

Local Open Scope nat_scope.

Lemma sum_n_ext n (f g : nat -> Z) :
  (forall i, i < n -> f i = g i) -> sum_n n f = sum_n n g.
Proof.
  induction n as [|n IH]; simpl; intros H; [reflexivity|].
  rewrite IH, H; auto.
Qed.

Lemma sum_n_zero n : sum_n n (fun _ => 0%Z) = 0%Z.
Proof. induction n as [|n IH]; simpl; [reflexivity|]. rewrite IH. reflexivity. Qed.

Lemma sum_n_plus n (f g : nat -> Z) :
  sum_n n (fun i => (f i + g i)%Z) = (sum_n n f + sum_n n g)%Z.
Proof. induction n as [|n IH]; simpl; [reflexivity|]. rewrite IH. ring. Qed.

Lemma sum_n_minus n (f g : nat -> Z) :
  sum_n n (fun i => (f i - g i)%Z) = (sum_n n f - sum_n n g)%Z.
Proof. induction n as [|n IH]; simpl; [reflexivity|]. rewrite IH. ring. Qed.

Lemma sum_n_scal_l n (c : Z) (f : nat -> Z) :
  sum_n n (fun i => (c * f i)%Z) = (c * sum_n n f)%Z.
Proof. induction n as [|n IH]; simpl; [ring|]. rewrite IH. ring. Qed.

Lemma sum_n_scal_r n (c : Z) (f : nat -> Z) :
  sum_n n (fun i => (f i * c)%Z) = (sum_n n f * c)%Z.
Proof. induction n as [|n IH]; simpl; [ring|]. rewrite IH. ring. Qed.

Lemma sum_n_const n (c : Z) : sum_n n (fun _ => c) = (Z.of_nat n * c)%Z.
Proof. induction n as [|n IH]; simpl sum_n; [ring|]. rewrite IH. lia. Qed.

Lemma sum_n_app m n (f : nat -> Z) :
  sum_n (m + n) f = (sum_n m f + sum_n n (fun j => f (m + j)%nat))%Z.
Proof.
  induction n as [|n IH].
  - rewrite Nat.add_0_r. simpl. ring.
  - rewrite Nat.add_succ_r. simpl. rewrite IH. ring.
Qed.

Lemma sum_n_prod a b (f : nat -> Z) :
  sum_n (a * b) f = sum_n a (fun i => sum_n b (fun j => f (i * b + j))).
Proof.
  induction a as [|a IH]; [reflexivity|].
  rewrite Nat.mul_succ_l, sum_n_app, IH. reflexivity.
Qed.

Lemma sum_n_swap a b (f : nat -> nat -> Z) :
  sum_n a (fun i => sum_n b (fun j => f i j)) =
  sum_n b (fun j => sum_n a (fun i => f i j)).
Proof.
  induction a as [|a IH]; simpl.
  - symmetry. apply sum_n_zero.
  - rewrite IH, <- sum_n_plus. reflexivity.
Qed.

Lemma sum_n_pick n k (f : nat -> Z) :
  sum_n n (fun i => if i =? k then f i else 0%Z) =
  if k <? n then f k else 0%Z.
Proof.
  induction n as [|n IH]; simpl; [reflexivity|].
  rewrite IH.
  destruct (Nat.eqb_spec n k) as [->|Hne].
  - rewrite Nat.ltb_irrefl.
    replace (k <? S k) with true by (symmetry; apply Nat.ltb_lt; lia). ring.
  - destruct (Nat.ltb_spec k n), (Nat.ltb_spec k (S n)); try lia; ring.
Qed.

Lemma sum_n_nonneg n (f : nat -> Z) :
  (forall i, i < n -> (0 <= f i)%Z) -> (0 <= sum_n n f)%Z.
Proof.
  induction n as [|n IH]; simpl; intros H; [lia|].
  specialize (H n (Nat.lt_succ_diag_r n)) as Hn.
  assert (0 <= sum_n n f)%Z by (apply IH; intros; apply H; lia). lia.
Qed.

End Sums.

(** ** Lemmas on tabulated arrays *)

Section Tabulate.

Local Open Scope nat_scope.

Lemma length_flat_map_seq {A} (g : nat -> list A) m a s :
  (forall k, s <= k < s + a -> length (g k) = m) ->
  length (flat_map g (seq s a)) = a * m.
Proof.
  revert s. induction a as [|a IH]; intros s H; simpl; [reflexivity|].
  rewrite length_app, H by lia. rewrite IH; [reflexivity|].
  intros k Hk. apply H. lia.
Qed.

Lemma nth_flat_map_seq {A} (g : nat -> list A) m d a s i j :
  (forall k, s <= k < s + a -> length (g k) = m) ->
  i < a -> j < m ->
  nth (i * m + j) (flat_map g (seq s a)) d = nth j (g (s + i)) d.
Proof.
  revert s i. induction a as [|a IH]; intros s i H Hi Hj; [lia|].
  simpl. destruct i as [|i].
  - simpl. rewrite app_nth1 by (rewrite H; lia).
    rewrite Nat.add_0_r. reflexivity.
  - rewrite app_nth2 by (rewrite H; lia).
    rewrite H by lia.
    replace (S i * m + j - m) with (i * m + j) by lia.
    rewrite IH; try lia.
    + replace (S s + i) with (s + S i) by lia. reflexivity.
    + intros k Hk. apply H. lia.
Qed.

Lemma idx_lt i a j b : i < a -> j < b -> i * b + j < a * b.
Proof. intros Hi Hj. nia. Qed.

Lemma length_tab1 a f : length (tab1 a f) = a.
Proof. unfold tab1. rewrite length_map, length_seq. reflexivity. Qed.

Lemma nth_tab1 a f i : i < a -> nth i (tab1 a f) 0%Z = f i.
Proof.
  intros Hi. unfold tab1.
  rewrite (nth_indep _ 0%Z (f 0)) by (rewrite length_map, length_seq; lia).
  rewrite map_nth, seq_nth by lia. reflexivity.
Qed.

Lemma length_tab2 a b f : length (tab2 a b f) = a * b.
Proof. apply length_flat_map_seq. intros. apply length_tab1. Qed.

Lemma nth_tab2 a b f i j :
  i < a -> j < b -> nth (i * b + j) (tab2 a b f) 0%Z = f i j.
Proof.
  intros Hi Hj. unfold tab2.
  rewrite (nth_flat_map_seq _ b) by (auto; intros; apply length_tab1).
  apply nth_tab1. exact Hj.
Qed.

Lemma length_tab3 a b c f : length (tab3 a b c f) = a * (b * c).
Proof. apply length_flat_map_seq. intros. apply length_tab2. Qed.

Lemma nth_tab3 a b c f i j k :
  i < a -> j < b -> k < c ->
  nth ((i * b + j) * c + k) (tab3 a b c f) 0%Z = f i j k.
Proof.
  intros Hi Hj Hk. unfold tab3.
  replace ((i * b + j) * c + k) with (i * (b * c) + (j * c + k)) by ring.
  rewrite (nth_flat_map_seq _ (b * c)); auto.
  - apply nth_tab2; assumption.
  - intros. apply length_tab2.
  - apply idx_lt; assumption.
Qed.

Lemma length_tab4 a b c d f : length (tab4 a b c d f) = a * (b * (c * d)).
Proof. apply length_flat_map_seq. intros. apply length_tab3. Qed.

Lemma nth_tab4 a b c d f i j k l :
  i < a -> j < b -> k < c -> l < d ->
  nth (((i * b + j) * c + k) * d + l) (tab4 a b c d f) 0%Z = f i j k l.
Proof.
  intros Hi Hj Hk Hl. unfold tab4.
  replace (((i * b + j) * c + k) * d + l)
    with (i * (b * (c * d)) + ((j * c + k) * d + l)) by ring.
  rewrite (nth_flat_map_seq _ (b * (c * d))); auto.
  - apply nth_tab3; assumption.
  - intros. apply length_tab3.
  - rewrite Nat.mul_assoc. auto using idx_lt.
Qed.

Lemma length_tab5 a b c d e f :
  length (tab5 a b c d e f) = a * (b * (c * (d * e))).
Proof. apply length_flat_map_seq. intros. apply length_tab4. Qed.

Lemma nth_tab5 a b c d e f i j k l m :
  i < a -> j < b -> k < c -> l < d -> m < e ->
  nth ((((i * b + j) * c + k) * d + l) * e + m) (tab5 a b c d e f) 0%Z
  = f i j k l m.
Proof.
  intros Hi Hj Hk Hl Hm. unfold tab5.
  replace ((((i * b + j) * c + k) * d + l) * e + m)
    with (i * (b * (c * (d * e))) + (((j * c + k) * d + l) * e + m)) by ring.
  rewrite (nth_flat_map_seq _ (b * (c * (d * e)))); auto.
  - apply nth_tab4; assumption.
  - intros. apply length_tab4.
  - rewrite !Nat.mul_assoc. auto using idx_lt.
Qed.

Lemma length_tab6 a b c d e g f :
  length (tab6 a b c d e g f) = a * (b * (c * (d * (e * g)))).
Proof. apply length_flat_map_seq. intros. apply length_tab5. Qed.

Lemma nth_tab6 a b c d e g f i j k l m o :
  i < a -> j < b -> k < c -> l < d -> m < e -> o < g ->
  nth (((((i * b + j) * c + k) * d + l) * e + m) * g + o)
      (tab6 a b c d e g f) 0%Z
  = f i j k l m o.
Proof.
  intros Hi Hj Hk Hl Hm Ho. unfold tab6.
  replace (((((i * b + j) * c + k) * d + l) * e + m) * g + o)
    with (i * (b * (c * (d * (e * g))))
          + ((((j * c + k) * d + l) * e + m) * g + o)) by ring.
  rewrite (nth_flat_map_seq _ (b * (c * (d * (e * g))))); auto.
  - apply nth_tab5; assumption.
  - intros. apply length_tab5.
  - rewrite !Nat.mul_assoc. auto 6 using idx_lt.
Qed.

(** Pointwise equal generators give equal arrays. *)

Lemma tab1_ext a f g :
  (forall i, i < a -> f i = g i) -> tab1 a f = tab1 a g.
Proof.
  intros H. unfold tab1. apply map_ext_in. intros i Hi.
  apply in_seq in Hi. apply H. lia.
Qed.

Lemma flat_map_seq_ext {A} (f g : nat -> list A) a :
  (forall i, i < a -> f i = g i) ->
  flat_map f (seq 0 a) = flat_map g (seq 0 a).
Proof.
  intros H. rewrite !flat_map_concat_map. f_equal.
  apply map_ext_in. intros i Hi. apply in_seq in Hi. apply H. lia.
Qed.

Lemma tab2_ext a b f g :
  (forall i j, i < a -> j < b -> f i j = g i j) -> tab2 a b f = tab2 a b g.
Proof.
  intros H. apply flat_map_seq_ext. intros i Hi.
  apply tab1_ext. intros. apply H; assumption.
Qed.

Lemma tab3_ext a b c f g :
  (forall i j k, i < a -> j < b -> k < c -> f i j k = g i j k) ->
  tab3 a b c f = tab3 a b c g.
Proof.
  intros H. apply flat_map_seq_ext. intros i Hi.
  apply tab2_ext. intros. apply H; assumption.
Qed.

Lemma tab4_ext a b c d f g :
  (forall i j k l, i < a -> j < b -> k < c -> l < d ->
     f i j k l = g i j k l) ->
  tab4 a b c d f = tab4 a b c d g.
Proof.
  intros H. apply flat_map_seq_ext. intros i Hi.
  apply tab3_ext. intros. apply H; assumption.
Qed.

(** A row of length [a * b] is [a] rows of length [b]: the identity behind
    [view]. *)

Lemma seq_shift_add s t len :
  seq (s + t) len = map (fun j => s + j) (seq t len).
Proof.
  revert t. induction len as [|len IH]; intros t; simpl; [reflexivity|].
  f_equal. rewrite <- Nat.add_succ_r. apply IH.
Qed.

Lemma tab1_split a b f :
  tab1 (a * b) f = tab2 a b (fun i j => f (i * b + j)).
Proof.
  unfold tab2, tab1. induction a as [|a IH]; [reflexivity|].
  rewrite Nat.mul_succ_l, seq_app, map_app, IH.
  rewrite seq_S, flat_map_app. f_equal.
  simpl. rewrite app_nil_r.
  rewrite <- (map_map (fun j => a * b + j) f). f_equal.
  rewrite <- seq_shift_add. f_equal. lia.
Qed.

End Tabulate.

(** ** The operations on well-shaped arguments *)

Section Operations.

Local Open Scope nat_scope.

Lemma out_size_pos H p K s : 0 < out_size H p K s.
Proof. unfold out_size. lia. Qed.

(** Python computes the output height on integers with floor division;
    under the operator's assertions it is [out_size]. *)
Lemma out_size_of_Z (H K : nat) (p s : Z) :
  (0 < s)%Z -> (0 <= p)%Z -> (Z.of_nat K <= Z.of_nat H + 2 * p)%Z ->
  Z.to_nat ((Z.of_nat H + 2 * p - Z.of_nat K) / s + 1)
  = out_size H (Z.to_nat p) K (Z.to_nat s).
Proof.
  intros Hs Hp HK. unfold out_size.
  assert (Hq : (0 <= (Z.of_nat H + 2 * p - Z.of_nat K) / s)%Z)
    by (apply Z.div_pos; lia).
  rewrite Z2Nat.inj_add by lia.
  f_equal.
  rewrite <- (Z2Nat.id s) at 1 by lia.
  replace (Z.of_nat H + 2 * p - Z.of_nat K)%Z
    with (Z.of_nat (H + 2 * Z.to_nat p - K)) by lia.
  rewrite <- Nat2Z.inj_div, Nat2Z.id. reflexivity.
Qed.

Lemma conv_params_ok_spec H W K p s :
  conv_params_ok H W K p s = true <->
  0 < K /\ 0 < s /\ K <= H + 2 * p /\ K <= W + 2 * p.
Proof.
  unfold conv_params_ok.
  rewrite !andb_true_iff, !Nat.ltb_lt, !Nat.leb_le. tauto.
Qed.

Lemma unfold_eq x N C H W K p s :
  shape x = [N; C; H; W] -> conv_params_ok H W K p s = true ->
  unfold x K p s =
  Ok {| shape := [N; C * K * K; out_size H p K s * out_size W p K s];
        data := tab6 N C K K (out_size H p K s) (out_size W p K s)
                  (fun n c kh kw ho wo =>
                     pad_read x p n c (ho * s + kh) (wo * s + kw)) |}.
Proof. intros Hx Hok. unfold unfold. rewrite Hx, Hok. reflexivity. Qed.

Lemma view_infer_last t (pre : list nat) :
  0 < numel_of pre -> numel t mod numel_of pre = 0 ->
  view t (map Some pre ++ [None]) =
  Ok {| shape := pre ++ [numel t / numel_of pre]; data := data t |}.
Proof.
  intros Hpos Hmod. unfold view.
  assert (Hk : fold_right (fun d acc => match d with
                                        | Some k => k * acc
                                        | None => acc
                                        end) 1 (map Some pre ++ [None])
               = numel_of pre).
  { clear. induction pre as [|d pre IH]; simpl; [reflexivity|].
    rewrite IH. reflexivity. }
  assert (Hh : length (List.filter (fun d : option nat =>
                         match d with None => true | _ => false end)
                       (map Some pre ++ [None])) = 1).
  { clear. induction pre as [|d pre IH]; simpl; [reflexivity|]. exact IH. }
  rewrite Hh, Hk.
  replace (0 <? numel_of pre) with true by (symmetry; apply Nat.ltb_lt; lia).
  rewrite Hmod. simpl. f_equal. f_equal.
  rewrite map_app, map_map, map_id. reflexivity.
Qed.

Lemma mod_mul_l a b : 0 < a -> (a * b) mod a = 0.
Proof. intros Ha. rewrite Nat.mul_comm. apply Nat.Div0.mod_mul. Qed.

Lemma div_mul_l a b : 0 < a -> (a * b) / a = b.
Proof. intros Ha. rewrite Nat.mul_comm. apply Nat.div_mul. lia. Qed.

Lemma matmul_matrix_batch a b M K N L :
  shape a = [M; K] -> shape b = [N; K; L] ->
  matmul a b =
  Ok {| shape := [N; M; L];
        data := tab3 N M L (fun n i l =>
                  sum_n K (fun k => (get2 a i k * get3 b n k l)%Z)) |}.
Proof.
  intros Ha Hb. unfold matmul. rewrite Ha, Hb, Nat.eqb_refl. reflexivity.
Qed.

Lemma matmul_batch_batch a b N M K L :
  shape a = [N; M; K] -> shape b = [N; K; L] ->
  matmul a b =
  Ok {| shape := [N; M; L];
        data := tab3 N M L (fun n i l =>
                  sum_n K (fun k => (get3 a n i k * get3 b n k l)%Z)) |}.
Proof.
  intros Ha Hb. unfold matmul. rewrite Ha, Hb, !Nat.eqb_refl.
  cbn [andb orb]. rewrite Nat.max_id. f_equal. f_equal.
  apply tab3_ext. intros n i l Hn _ _.
  destruct (Nat.eqb_spec N 1) as [->|_]; [|reflexivity].
  replace n with 0 by lia. reflexivity.
Qed.

Lemma tab3_split_last a b c d f :
  tab3 a b (c * d) f = tab4 a b c d (fun i j k l => f i j (k * d + l)).
Proof.
  unfold tab4, tab3. apply flat_map_seq_ext. intros i _.
  unfold tab2. apply flat_map_seq_ext. intros j _.
  apply tab1_split.
Qed.

Lemma view_4d sh d N Co Ho Wo :
  length d = N * (Co * (Ho * Wo)) -> 0 < N -> 0 < Co -> 0 < Ho ->
  view {| shape := sh; data := d |} [Some N; Some Co; Some Ho; None] =
  Ok {| shape := [N; Co; Ho; Wo]; data := d |}.
Proof.
  intros Hlen HN HCo HHo.
  change [Some N; Some Co; Some Ho; None]
    with (map Some [N; Co; Ho] ++ [None]).
  assert (Hk : numel_of [N; Co; Ho] = N * Co * Ho) by (simpl; ring).
  assert (Hpos : 0 < N * Co * Ho) by (repeat apply Nat.mul_pos_pos; lia).
  rewrite view_infer_last; rewrite ?Hk; unfold numel; cbn [data];
    rewrite ?Hlen.
  - replace (N * (Co * (Ho * Wo))) with (N * Co * Ho * Wo) by ring.
    rewrite div_mul_l by exact Hpos. reflexivity.
  - exact Hpos.
  - replace (N * (Co * (Ho * Wo))) with (N * Co * Ho * Wo) by ring.
    apply mod_mul_l. exact Hpos.
Qed.

End Operations.

(** ** The forward pass computes the reference convolution *)

Section Forward.

(** One output element of the patch-matrix product is the triple sum of
    the convolution. *)
Lemma patch_product_triple_sum x w N C H W Co K p s n co ho wo :
  shape x = [N; C; H; W] -> shape w = [Co; C; K; K] ->
  (n < N)%nat -> (ho < out_size H p K s)%nat -> (wo < out_size W p K s)%nat ->
  sum_n (C * K * K) (fun r =>
    get2 {| shape := [Co; C * K * K]%nat; data := data w |} co r *
    get3 (unfolded x K p s) n r (ho * out_size W p K s + wo))
  = sum_n C (fun ci => sum_n K (fun kh => sum_n K (fun kw =>
      get4 w co ci kh kw *
      pad_read x p n ci (ho * s + kh) (wo * s + kw)))).
Proof.
  intros Hx Hw Hn Hho Hwo.
  rewrite sum_n_prod. rewrite sum_n_prod.
  apply sum_n_ext. intros ci Hci.
  apply sum_n_ext. intros kh Hkh.
  apply sum_n_ext. intros kw Hkw.
  f_equal.
  - unfold get2, get4, size. rewrite Hw. cbn [shape nth]. f_equal. ring.
  - unfold get3, unfolded, size. rewrite Hx. cbn [shape data nth].
    set (Ho := out_size H p K s). set (Wo := out_size W p K s).
    replace ((n * (C * K * K) + ((ci * K + kh) * K + kw)) * (Ho * Wo)
             + (ho * Wo + wo))%nat
      with (((((n * C + ci) * K + kh) * K + kw) * Ho + ho) * Wo + wo)%nat
      by ring.
    rewrite nth_tab6 by assumption. reflexivity.
Qed.

Lemma view_column b :
  view b [None; Some 1%nat] =
  Ok {| shape := [numel b; 1%nat]; data := data b |}.
Proof.
  unfold view. cbn [fold_right List.filter length map Nat.mul Nat.add].
  rewrite Nat.mod_1_r, Nat.div_1_r. reflexivity.
Qed.

Lemma forward_run x w bias (s p : Z) ctx (N C H W Co K : nat) :
  shape x = [N; C; H; W] -> shape w = [Co; C; K; K] ->
  wf w -> bias_ok Co bias ->
  0 < s -> 0 <= p ->
  Z.of_nat K <= Z.of_nat H + 2 * p -> Z.of_nat K <= Z.of_nat W + 2 * p ->
  (0 < N)%nat -> (0 < Co)%nat -> (0 < K)%nat ->
  forward x w bias (PyInt s) (PyInt p) ctx =
  (save_for_backward (unfolded x K (Z.to_nat p) (Z.to_nat s), w, bias)
     (save_conv_params s p H W ctx),
   Ok (conv2d_reference x w bias (Z.to_nat s) (Z.to_nat p))).
Proof.
  intros Hx Hw Ww Hb Hs Hp HKH HKW HN HCo HK.
  unfold forward, bind, assert_, lift, modify, ret.
  assert (Hsz : size x 0 = N /\ size x 1 = C /\ size x 2 = H /\ size x 3 = W
                /\ size w 0 = Co /\ size w 1 = C /\ size w 2 = K
                /\ size w 3 = K).
  { unfold size. rewrite Hx, Hw. repeat split. }
  destruct Hsz as (-> & -> & -> & -> & -> & -> & -> & ->).
  cbn [isinstance_int int_of andb].
  rewrite !Nat.eqb_refl.
  replace (0 <? s) with true by (symmetry; apply Z.ltb_lt; lia).
  replace (0 <=? p) with true by (symmetry; apply Z.leb_le; lia).
  replace (Z.of_nat K <=? Z.of_nat H + 2 * p) with true
    by (symmetry; apply Z.leb_le; lia).
  replace (Z.of_nat K <=? Z.of_nat W + 2 * p) with true
    by (symmetry; apply Z.leb_le; lia).
  rewrite (unfold_eq x N C H W) by (auto; apply conv_params_ok_spec; lia).
  rewrite out_size_of_Z by assumption.
  assert (HU : unfolded x K (Z.to_nat p) (Z.to_nat s) =
    {| shape := [N; C * K * K;
                 out_size H (Z.to_nat p) K (Z.to_nat s) *
                 out_size W (Z.to_nat p) K (Z.to_nat s)]%nat;
       data := tab6 N C K K (out_size H (Z.to_nat p) K (Z.to_nat s))
                 (out_size W (Z.to_nat p) K (Z.to_nat s))
                 (fun n c kh kw ho wo =>
                    pad_read x (Z.to_nat p) n c
                      (ho * Z.to_nat s + kh) (wo * Z.to_nat s + kw)) |}).
  { unfold unfolded, size. rewrite Hx. reflexivity. }
  rewrite <- HU.
  assert (Href : conv2d_reference x w bias (Z.to_nat s) (Z.to_nat p) =
    {| shape := [N; Co; out_size H (Z.to_nat p) K (Z.to_nat s);
                 out_size W (Z.to_nat p) K (Z.to_nat s)];
       data := tab4 N Co (out_size H (Z.to_nat p) K (Z.to_nat s))
                 (out_size W (Z.to_nat p) K (Z.to_nat s))
                 (fun n co ho wo =>
                    sum_n C (fun ci => sum_n K (fun kh => sum_n K (fun kw =>
                      get4 w co ci kh kw *
                      pad_read x (Z.to_nat p) n ci
                        (ho * Z.to_nat s + kh) (wo * Z.to_nat s + kw))))
                    + bias_at bias co) |}).
  { unfold conv2d_reference, size. rewrite Hx, Hw. reflexivity. }
  rewrite Href. clear Href.
  set (Ho := out_size H (Z.to_nat p) K (Z.to_nat s)) in *.
  set (Wo := out_size W (Z.to_nat p) K (Z.to_nat s)) in *.
  assert (HHo : (0 < Ho)%nat) by apply out_size_pos.
  assert (Hnw : numel w = (Co * (C * K * K))%nat).
  { unfold numel. rewrite Ww, Hw. simpl. ring. }
  assert (Hvw : view w [Some Co; None] =
                Ok {| shape := [Co; C * K * K]%nat; data := data w |}).
  { change [Some Co; None] with (map Some [Co] ++ [None]).
    rewrite view_infer_last; cbn [numel_of fold_right];
      rewrite ?Nat.mul_1_r, ?Hnw.
    - rewrite div_mul_l by lia. reflexivity.
    - lia.
    - apply mod_mul_l; lia. }
  rewrite Hvw.
  rewrite (matmul_matrix_batch _ _ Co (C * K * K) N (Ho * Wo))
    by (try reflexivity; rewrite HU; reflexivity).
  assert (Hcore : forall n co ho wo,
    (n < N)%nat -> (co < Co)%nat -> (ho < Ho)%nat -> (wo < Wo)%nat ->
    nth ((n * Co + co) * (Ho * Wo) + (ho * Wo + wo))
        (tab3 N Co (Ho * Wo) (fun n i l =>
           sum_n (C * K * K) (fun k =>
             get2 {| shape := [Co; C * K * K]%nat; data := data w |} i k *
             get3 (unfolded x K (Z.to_nat p) (Z.to_nat s)) n k l))) 0
    = sum_n C (fun ci => sum_n K (fun kh => sum_n K (fun kw =>
        get4 w co ci kh kw *
        pad_read x (Z.to_nat p) n ci
          (ho * Z.to_nat s + kh) (wo * Z.to_nat s + kw))))).
  { intros n co ho wo Hn Hco Hho Hwo.
    rewrite nth_tab3 by (auto using idx_lt).
    apply (patch_product_triple_sum x w N C H W Co K); assumption. }
  destruct bias as [b|].
  - destruct Hb as [Hsb Hlb].
    rewrite view_column. unfold iadd_column. cbn [shape]. unfold numel.
    rewrite Hlb, Nat.eqb_refl.
    rewrite (view_4d _ _ N Co Ho Wo)
      by (auto; rewrite length_tab3; reflexivity).
    unfold clone. cbn [shape data]. f_equal. f_equal. f_equal.
    rewrite tab3_split_last. apply tab4_ext.
    intros n co ho wo Hn Hco Hho Hwo.
    unfold get3 at 1, size. cbn [shape data nth bias_at].
    rewrite Hcore by assumption. reflexivity.
  - rewrite (view_4d _ _ N Co Ho Wo)
      by (auto; rewrite length_tab3; reflexivity).
    unfold clone. cbn [shape data]. f_equal. f_equal. f_equal.
    rewrite tab3_split_last. apply tab4_ext.
    intros n co ho wo Hn Hco Hho Hwo.
    cbn [bias_at]. rewrite Z.add_0_r.
    rewrite <- (Hcore n co ho wo) by assumption.
    rewrite nth_tab3 by (auto using idx_lt). reflexivity.
Qed.

End Forward.

(** ** The assertions of the forward pass *)

Section Contract.

Ltac runtime_only :=
  intros e He;
  repeat match type of He with
         | context [match ?t with _ => _ end] => destruct t; try discriminate
         | context [if ?t then _ else _] => destruct t; try discriminate
         end;
  try discriminate; congruence.

Lemma view_raises t dims : raises_only_runtime (view t dims).
Proof. unfold view. runtime_only. Qed.

Lemma unfold_raises x K p s : raises_only_runtime (unfold x K p s).
Proof. unfold unfold. runtime_only. Qed.

Lemma matmul_raises a b : raises_only_runtime (matmul a b).
Proof. unfold matmul. runtime_only. Qed.

Lemma iadd_column_raises a b : raises_only_runtime (iadd_column a b).
Proof. unfold iadd_column. runtime_only. Qed.

Lemma forward_contract x w bias stride padding ctx :
  snd (forward x w bias stride padding ctx) = Err AssertionError <->
  ~ contract x w stride padding.
Proof.
  unfold forward, bind, assert_, lift, modify, ret, contract.
  destruct (Nat.eqb_spec (size w 2) (size w 3)) as [E1|E1];
    [|cbn; split; [intros _ (? & _); contradiction | reflexivity]].
  destruct (Nat.eqb_spec (size x 1) (size w 1)) as [E2|E2];
    [|cbn; split; [intros _ (_ & ? & _); contradiction | reflexivity]].
  destruct stride as [s|];
    [|cbn; split; [intros _ (_ & _ & (s & Hs & _) & _); discriminate
                  | reflexivity]].
  cbn [isinstance_int int_of andb].
  destruct (Z.ltb_spec 0 s) as [E3|E3];
    [|cbn; split; [intros _ (_ & _ & (s' & Hs & ?) & _);
                   injection Hs as <-; lia | reflexivity]].
  destruct padding as [p|];
    [|cbn; split; [intros _ (_ & _ & _ & (p & Hp & _)); discriminate
                  | reflexivity]].
  cbn [isinstance_int int_of andb].
  destruct (Z.leb_spec 0 p) as [E4|E4];
    [|cbn; split; [intros _ (_ & _ & _ & (p' & Hp & ? & _));
                   injection Hp as <-; lia | reflexivity]].
  destruct (Z.leb_spec (Z.of_nat (size w 2)) (Z.of_nat (size x 2) + 2 * p))
    as [E5|E5];
    [|cbn; split; [intros _ (_ & _ & _ & (p' & Hp & _ & ? & _));
                   injection Hp as <-; lia | reflexivity]].
  destruct (Z.leb_spec (Z.of_nat (size w 2)) (Z.of_nat (size x 3) + 2 * p))
    as [E6|E6];
    [|cbn; split; [intros _ (_ & _ & _ & (p' & Hp & _ & _ & ?));
                   injection Hp as <-; lia | reflexivity]].
  split.
  - intros Hres. exfalso.
    destruct (unfold _ _ _ _) as [u|e] eqn:Eu;
      [|apply unfold_raises in Eu; cbn in Hres; congruence].
    destruct (view w _) as [wu|e] eqn:Ew;
      [|apply view_raises in Ew; cbn in Hres; congruence].
    destruct (matmul _ _) as [o|e] eqn:Em;
      [|apply matmul_raises in Em; cbn in Hres; congruence].
    destruct bias as [b|].
    + destruct (view b _) as [c|e] eqn:Eb;
        [|apply view_raises in Eb; cbn in Hres; congruence].
      destruct (iadd_column _ _) as [o'|e] eqn:Ei;
        [|apply iadd_column_raises in Ei; cbn in Hres; congruence].
      destruct (view o' _) as [v|e] eqn:Ev;
        [|apply view_raises in Ev; cbn in Hres; congruence].
      discriminate.
    + destruct (view o _) as [v|e] eqn:Ev;
        [|apply view_raises in Ev; cbn in Hres; congruence].
      discriminate.
  - intros Hn. exfalso. apply Hn. repeat split; eauto 10.
Qed.

End Contract.

(** ** Patch accumulation as a weighted sum *)

Section Scatter.

Lemma length_add_at i v l : length (add_at i v l) = length l.
Proof.
  revert i. induction l as [|x l IH]; intros [|i]; simpl; auto.
Qed.

Lemma nth_add_at i v l j :
  nth j (add_at i v l) 0 =
  if ((j =? i) && (i <? length l))%nat then nth j l 0 + v else nth j l 0.
Proof.
  revert i j. induction l as [|x l IH]; intros i j.
  - destruct i, j; simpl; rewrite ?andb_false_r; reflexivity.
  - destruct i as [|i], j as [|j]; simpl; try reflexivity.
    rewrite IH. reflexivity.
Qed.

Lemma wsum_add_at xf i v acc :
  (i < length acc)%nat ->
  wsum xf (add_at i v acc) = wsum xf acc + v * xf i.
Proof.
  intros Hi. unfold wsum. rewrite length_add_at.
  rewrite (sum_n_ext _ _ (fun j =>
    nth j acc 0 * xf j + (if (j =? i)%nat then v * xf j else 0))).
  - rewrite sum_n_plus, sum_n_pick.
    replace (i <? length acc)%nat with true
      by (symmetry; apply Nat.ltb_lt; exact Hi).
    reflexivity.
  - intros j _. rewrite nth_add_at.
    replace (i <? length acc)%nat with true
      by (symmetry; apply Nat.ltb_lt; exact Hi).
    rewrite andb_true_r. destruct (j =? i)%nat; ring.
Qed.

Lemma wsum_zeros xf n : wsum xf (repeat 0 n) = 0.
Proof.
  unfold wsum. rewrite (sum_n_ext _ _ (fun _ => 0)).
  - apply sum_n_zero.
  - intros j _. rewrite nth_repeat. ring.
Qed.

Lemma fold_left_additive xf len n step c :
  additive xf len n step c ->
  additive xf len 1
    (fun acc _ => fold_left step (seq 0 n) acc) (fun _ => sum_n n c).
Proof.
  intros Hadd acc _ _ Hlen.
  induction n as [|n IH].
  - simpl. split; [assumption | ring].
  - rewrite seq_S, fold_left_app. simpl.
    destruct IH as [IHl IHw].
    { intros a k Hk Ha. apply Hadd; [lia | assumption]. }
    destruct (Hadd (fold_left step (seq 0 n) acc) n) as [Hl Hw]; [lia|assumption|].
    split; [assumption|]. rewrite Hw, IHw. ring.
Qed.

Lemma additive_loop xf len n m step c :
  (forall k, (k < m)%nat -> additive xf len n (fun acc i => step acc k i) (c k)) ->
  additive xf len m
    (fun acc k => fold_left (fun acc i => step acc k i) (seq 0 n) acc)
    (fun k => sum_n n (c k)).
Proof.
  intros H acc k Hk Hlen.
  apply (fold_left_additive xf len n _ (c k) (H k Hk) acc 0%nat); auto.
Qed.


Lemma wsum_fold_plane xf m n c H W K p s Ho Wo :
  length (fold_plane m n c H W K p s Ho Wo) = (H * W)%nat /\
  wsum xf (fold_plane m n c H W K p s Ho Wo) =
  sum_n Ho (fun ho => sum_n Wo (fun wo =>
    sum_n K (fun kh => sum_n K (fun kw =>
      if ((p <=? ho * s + kh) && (ho * s + kh <? H + p) &&
          (p <=? wo * s + kw) && (wo * s + kw <? W + p))%nat
      then get3 m n ((c * K + kh) * K + kw) (ho * Wo + wo) *
           xf ((ho * s + kh - p) * W + (wo * s + kw - p))%nat
      else 0)))).
Proof.
  unfold fold_plane.
  pose proof (fold_left_additive xf (H * W) Ho
    (fun acc ho =>
      fold_left (fun acc wo =>
        fold_left (fun acc kh =>
          fold_left (fun acc kw =>
            if ((p <=? ho * s + kh) && (ho * s + kh <? H + p) &&
                (p <=? wo * s + kw) && (wo * s + kw <? W + p))%nat
            then add_at ((ho * s + kh - p) * W + (wo * s + kw - p))
                   (get3 m n ((c * K + kh) * K + kw) (ho * Wo + wo)) acc
            else acc)
          (seq 0 K) acc)
        (seq 0 K) acc)
      (seq 0 Wo) acc)) as Hmain.
  edestruct Hmain as [Hl Hw]; cycle 3.
  - split; [exact Hl|]. rewrite Hw, wsum_zeros. rewrite Z.add_0_l. reflexivity.
  - apply additive_loop. intros ho _.
    apply additive_loop. intros wo _.
    apply additive_loop. intros kh _.
    intros acc kw _ Hlen.
    destruct (_ && _ && _ && _)%nat eqn:Hin.
    + rewrite length_add_at. split; [assumption|].
      apply wsum_add_at. rewrite Hlen.
      rewrite !andb_true_iff, !Nat.leb_le, !Nat.ltb_lt in Hin.
      apply idx_lt; lia.
    + split; [assumption | ring].
  - exact (Nat.lt_0_1).
  - apply repeat_length.
Qed.

End Scatter.

(** ** The round trip fold (unfold X) *)

Section RoundTrip.

Lemma nth_as_wsum l i :
  (i < length l)%nat ->
  nth i l 0 = wsum (fun j => if (j =? i)%nat then 1 else 0) l.
Proof.
  intros Hi. unfold wsum.
  rewrite (sum_n_ext _ _ (fun j => if (j =? i)%nat then nth j l 0 else 0)).
  - rewrite sum_n_pick.
    replace (i <? length l)%nat with true
      by (symmetry; apply Nat.ltb_lt; exact Hi).
    reflexivity.
  - intros j _. destruct (j =? i)%nat; ring.
Qed.

Lemma sum_n_pick_offset K o t (F : nat -> Z) :
  sum_n K (fun k => if (o + k =? t)%nat then F k else 0) =
  if ((o <=? t) && (t <? o + K))%nat then F (t - o)%nat else 0.
Proof.
  destruct (Nat.leb_spec o t) as [Hot|Hot]; cbn [andb].
  - rewrite (sum_n_ext _ _ (fun k => if (k =? t - o)%nat then F k else 0)).
    + rewrite sum_n_pick.
      destruct (Nat.ltb_spec (t - o) K), (Nat.ltb_spec t (o + K));
        try lia; reflexivity.
    + intros k _.
      destruct (Nat.eqb_spec (o + k) t), (Nat.eqb_spec k (t - o));
        try lia; reflexivity.
  - rewrite (sum_n_ext _ _ (fun _ => 0)); [apply sum_n_zero|].
    intros k _. destruct (Nat.eqb_spec (o + k) t); [lia | reflexivity].
Qed.

Lemma fold_eq m N C L H W K p s :
  shape m = [N; C * K * K; L]%nat ->
  conv_params_ok H W K p s = true ->
  L = (out_size H p K s * out_size W p K s)%nat ->
  fold m (H, W) K p s = Ok (folded m N C H W K p s).
Proof.
  intros Hm Hok HL. unfold fold. rewrite Hm, Hok.
  apply conv_params_ok_spec in Hok. destruct Hok as (HK & _).
  assert (HKK : (K * K <> 0)%nat) by nia.
  rewrite <- Nat.mul_assoc, Nat.Div0.mod_mul, Nat.div_mul by exact HKK.
  rewrite Nat.eqb_refl. subst L. rewrite Nat.eqb_refl. reflexivity.
Qed.

Lemma nth_folded (plane : nat -> nat -> list Z) N C H W n c h w :
  (forall n c, length (plane n c) = (H * W)%nat) ->
  (n < N)%nat -> (c < C)%nat -> (h < H)%nat -> (w < W)%nat ->
  nth (((n * C + c) * H + h) * W + w)
      (flat_map (fun n => flat_map (fun c => plane n c) (seq 0 C)) (seq 0 N)) 0
  = nth (h * W + w) (plane n c) 0.
Proof.
  intros Hlen Hn Hc Hh Hw.
  replace (((n * C + c) * H + h) * W + w)%nat
    with (n * (C * (H * W)) + (c * (H * W) + (h * W + w)))%nat by ring.
  rewrite (nth_flat_map_seq _ (C * (H * W))); auto.
  - rewrite (nth_flat_map_seq _ (H * W)); auto using idx_lt.
  - intros k _. apply length_flat_map_seq. intros. apply Hlen.
  - apply idx_lt; auto using idx_lt.
Qed.

Lemma flat_index_inj W h w h' w' :
  (w < W)%nat -> (w' < W)%nat ->
  ((h' * W + w' =? h * W + w)%nat = ((h' =? h) && (w' =? w))%nat).
Proof.
  intros Hw Hw'.
  destruct (Nat.eqb_spec h' h) as [->|Hne]; cbn [andb].
  - destruct (Nat.eqb_spec w' w) as [->|Hne].
    + apply Nat.eqb_refl.
    + apply Nat.eqb_neq. lia.
  - apply Nat.eqb_neq. nia.
Qed.

Lemma fold_unfold_at x N C H W K p s n c h w :
  shape x = [N; C; H; W] ->
  conv_params_ok H W K p s = true ->
  (n < N)%nat -> (c < C)%nat -> (h < H)%nat -> (w < W)%nat ->
  nth (h * W + w)
      (fold_plane (unfolded x K p s) n c H W K p s
         (out_size H p K s) (out_size W p K s)) 0
  = coverage H W K p s h w * get4 x n c h w.
Proof.
  intros Hx Hok Hn Hc Hh Hw.
  set (Ho := out_size H p K s). set (Wo := out_size W p K s).
  destruct (wsum_fold_plane (fun j => if (j =? h * W + w)%nat then 1 else 0)
              (unfolded x K p s) n c H W K p s Ho Wo) as [Hlen Hsum].
  rewrite nth_as_wsum by (rewrite Hlen; apply idx_lt; assumption).
  rewrite Hsum. unfold coverage. fold Ho Wo.
  rewrite <- sum_n_scal_r. apply sum_n_ext. intros ho Hho.
  rewrite <- sum_n_scal_r. apply sum_n_ext. intros wo Hwo.
  rewrite (sum_n_ext _ _ (fun kh =>
    if (ho * s + kh =? h + p)%nat
    then (if covers K p s w wo then get4 x n c h w else 0) else 0)).
  - rewrite sum_n_pick_offset. unfold covers.
    destruct ((ho * s <=? h + p)%nat && (h + p <? ho * s + K)%nat);
      cbn [andb]; [|ring].
    destruct ((wo * s <=? w + p)%nat && (w + p <? wo * s + K)%nat); ring.
  - intros kh Hkh.
    rewrite (sum_n_ext _ _ (fun kw =>
      if (wo * s + kw =? w + p)%nat
      then (if (ho * s + kh =? h + p)%nat then get4 x n c h w else 0)
      else 0)).
    + rewrite sum_n_pick_offset. unfold covers.
      destruct ((wo * s <=? w + p)%nat && (w + p <? wo * s + K)%nat);
        destruct (ho * s + kh =? h + p)%nat; reflexivity.
    + intros kw Hkw.
      destruct ((p <=? ho * s + kh)%nat && (ho * s + kh <? H + p)%nat &&
                (p <=? wo * s + kw)%nat && (wo * s + kw <? W + p)%nat)
        eqn:Hin.
      * rewrite !andb_true_iff, !Nat.leb_le, !Nat.ltb_lt in Hin.
        rewrite flat_index_inj by lia.
        unfold get3, unfolded, size. rewrite Hx. cbn [shape data nth].
        fold Ho Wo.
        replace ((n * (C * K * K) + ((c * K + kh) * K + kw)) * (Ho * Wo)
                 + (ho * Wo + wo))%nat
          with (((((n * C + c) * K + kh) * K + kw) * Ho + ho) * Wo + wo)%nat
          by ring.
        rewrite nth_tab6 by assumption.
        unfold pad_read, size. rewrite Hx. cbn [nth].
        replace ((p <=? ho * s + kh)%nat && (ho * s + kh <? H + p)%nat &&
                 (p <=? wo * s + kw)%nat && (wo * s + kw <? W + p)%nat)
          with true
          by (symmetry; rewrite !andb_true_iff, !Nat.leb_le, !Nat.ltb_lt; lia).
        destruct (Nat.eqb_spec (ho * s + kh - p) h) as [E1|E1],
                 (Nat.eqb_spec (wo * s + kw - p) w) as [E2|E2],
                 (Nat.eqb_spec (ho * s + kh) (h + p)) as [E3|E3],
                 (Nat.eqb_spec (wo * s + kw) (w + p)) as [E4|E4];
          cbn [andb]; try lia; try ring.
        rewrite E1, E2. ring.
      * destruct (Nat.eqb_spec (ho * s + kh) (h + p)) as [E3|E3],
                 (Nat.eqb_spec (wo * s + kw) (w + p)) as [E4|E4];
          try reflexivity.
        exfalso.
        assert (Hin' : ((p <=? ho * s + kh)%nat && (ho * s + kh <? H + p)%nat &&
                (p <=? wo * s + kw)%nat && (wo * s + kw <? W + p)%nat) = true)
          by (rewrite !andb_true_iff, !Nat.leb_le, !Nat.ltb_lt; lia).
        congruence.
Qed.

End RoundTrip.

Section Coverage.

Lemma sum_n_product a b (f g : nat -> Z) :
  sum_n a (fun i => sum_n b (fun j => f i * g j)) = sum_n a f * sum_n b g.
Proof.
  rewrite <- sum_n_scal_r. apply sum_n_ext. intros i _.
  apply sum_n_scal_l.
Qed.

Lemma coverage_factor H W K p s h w :
  coverage H W K p s h w =
  sum_n (out_size H p K s) (fun ho => if covers K p s h ho then 1 else 0) *
  sum_n (out_size W p K s) (fun wo => if covers K p s w wo then 1 else 0).
Proof.
  unfold coverage. rewrite <- sum_n_product.
  apply sum_n_ext. intros ho _. apply sum_n_ext. intros wo _.
  destruct (covers K p s h ho), (covers K p s w wo); reflexivity.
Qed.

(** A count of indices that satisfy a test met by at most one index. *)
Lemma count_at_most_one n (b : nat -> bool) :
  (forall i j, (i < n)%nat -> (j < n)%nat ->
     b i = true -> b j = true -> i = j) ->
  0 <= sum_n n (fun i => if b i then 1 else 0) <= 1.
Proof.
  induction n as [|n IH]; intros Huniq; simpl; [lia|].
  assert (Hrec : 0 <= sum_n n (fun i => if b i then 1 else 0) <= 1).
  { apply IH. intros i j Hi Hj. apply Huniq; lia. }
  destruct (b n) eqn:Hbn; [|lia].
  assert (Hz : sum_n n (fun i => if b i then 1 else 0) = 0).
  { rewrite (sum_n_ext _ _ (fun _ => 0)); [apply sum_n_zero|].
    intros i Hi. destruct (b i) eqn:Hbi; [|reflexivity].
    assert (i = n) by (apply Huniq; auto; lia). lia. }
  lia.
Qed.

Lemma covers_unique K p s x o o' :
  (K <= s)%nat -> covers K p s x o = true -> covers K p s x o' = true ->
  o = o'.
Proof.
  unfold covers. rewrite !andb_true_iff, !Nat.leb_le, !Nat.ltb_lt.
  intros HKs [H1 H2] [H3 H4]. nia.
Qed.

Lemma coverage_no_overlap H W K p s h w :
  (K <= s)%nat -> 0 <= coverage H W K p s h w <= 1.
Proof.
  intros HKs. rewrite coverage_factor.
  pose proof (count_at_most_one (out_size H p K s) (covers K p s h)) as Hh.
  pose proof (count_at_most_one (out_size W p K s) (covers K p s w)) as Hw.
  assert (0 <= sum_n (out_size H p K s)
                 (fun ho => if covers K p s h ho then 1 else 0) <= 1)
    by (apply Hh; intros i j _ _ Hi Hj;
        exact (covers_unique K p s h i j HKs Hi Hj)).
  assert (0 <= sum_n (out_size W p K s)
                 (fun wo => if covers K p s w wo then 1 else 0) <= 1)
    by (apply Hw; intros i j _ _ Hi Hj;
        exact (covers_unique K p s w i j HKs Hi Hj)).
  nia.
Qed.

Lemma length_folded (plane : nat -> nat -> list Z) N C H W :
  (forall n c, length (plane n c) = (H * W)%nat) ->
  length (flat_map (fun n => flat_map (fun c => plane n c) (seq 0 C))
            (seq 0 N)) = (N * (C * (H * W)))%nat.
Proof.
  intros Hlen. apply length_flat_map_seq. intros n _.
  apply length_flat_map_seq. intros c _. apply Hlen.
Qed.

Lemma fold_unfold_run x N C H W K p s :
  shape x = [N; C; H; W] ->
  conv_params_ok H W K p s = true ->
  exists y,
    rbind (unfold x K p s) (fun u => fold u (H, W) K p s) = Ok y /\
    shape y = shape x /\ wf y /\
    forall n c h w, (n < N)%nat -> (c < C)%nat -> (h < H)%nat -> (w < W)%nat ->
      get4 y n c h w = coverage H W K p s h w * get4 x n c h w.
Proof.
  intros Hx Hok.
  rewrite (unfold_eq x N C H W) by assumption. cbn [rbind].
  assert (HU : {| shape := [N; C * K * K;
                            out_size H p K s * out_size W p K s]%nat;
                  data := tab6 N C K K (out_size H p K s) (out_size W p K s)
                            (fun n c kh kw ho wo =>
                               pad_read x p n c (ho * s + kh) (wo * s + kw)) |}
               = unfolded x K p s).
  { unfold unfolded, size. rewrite Hx. reflexivity. }
  rewrite HU.
  rewrite (fold_eq _ N C (out_size H p K s * out_size W p K s))
    by (auto; rewrite <- HU; reflexivity).
  eexists. split; [reflexivity|]. unfold folded.
  assert (Hlen : forall n c,
    length (fold_plane (unfolded x K p s) n c H W K p s
              (out_size H p K s) (out_size W p K s)) = (H * W)%nat).
  { intros n c.
    apply (wsum_fold_plane (fun _ => 0) (unfolded x K p s)). }
  split; [|split].
  - cbn [shape]. symmetry. exact Hx.
  - unfold wf. cbn [shape data numel_of fold_right].
    rewrite (length_folded _ N C H W) by exact Hlen.
    rewrite Nat.mul_1_r. reflexivity.
  - intros n c h w Hn Hc Hh Hw.
    unfold get4 at 1, size. cbn [shape data nth].
    rewrite (nth_folded _ N C H W) by assumption.
    apply (fold_unfold_at x N C H W); assumption.
Qed.

End Coverage.

(** ** The backward pass on well-shaped arguments *)

(** ** Views of strided tensors *)

Section StridedViews.

Lemma length_gather dims : forall strides off st,
  length strides = length dims ->
  length (gather dims strides off st) = numel_of dims.
Proof.
  induction dims as [|d ds IH]; intros [|s ss] off st Hl;
    try discriminate; [reflexivity|].
  cbn [gather numel_of fold_right].
  apply length_flat_map_seq. intros i _. apply IH.
  cbn in Hl. lia.
Qed.

Lemma wf_contiguous g :
  length (s_strides g) = length (s_shape g) -> wf (contiguous g).
Proof. intros Hl. unfold wf, contiguous. cbn [shape data]. apply length_gather. exact Hl. Qed.

Lemma length_row_major dims : length (row_major dims) = length dims.
Proof. induction dims; cbn; auto. Qed.

Lemma firstn_plus (l : list Z) : forall a n,
  firstn (a + n) l = firstn a l ++ firstn n (skipn a l).
Proof.
  induction l as [|x l IH]; intros [|a] n; cbn;
    rewrite ?firstn_nil; try reflexivity.
  f_equal. apply IH.
Qed.

Lemma firstn_skipn_chunks (l : list Z) n d : forall off,
  (off + d * n <= length l)%nat ->
  flat_map (fun i => firstn n (skipn (off + i * n) l)) (seq 0 d)
  = firstn (d * n) (skipn off l).
Proof.
  induction d as [|d IH]; intros off Hlen; [reflexivity|].
  rewrite seq_S, flat_map_app, IH by lia. cbn [flat_map plus].
  rewrite app_nil_r.
  replace (S d * n)%nat with (d * n + n)%nat by lia.
  rewrite (firstn_plus _ (d * n) n), skipn_skipn.
  f_equal. f_equal. f_equal. lia.
Qed.

Lemma gather_row_major dims : forall off st,
  (off + numel_of dims <= length st)%nat ->
  gather dims (row_major dims) off st = firstn (numel_of dims) (skipn off st).
Proof.
  induction dims as [|d ds IH]; intros off st Hlen.
  - cbn [gather numel_of fold_right] in *.
    assert (Hoff : (off < length st)%nat) by lia.
    clear Hlen. revert off Hoff.
    induction st as [|a st IHs]; intros [|off] Hoff; cbn in *;
      try lia; try reflexivity.
    apply IHs. lia.
  - cbn [gather row_major]. change (numel_of (d :: ds)) with (d * numel_of ds)%nat in *.
    rewrite <- firstn_skipn_chunks by exact Hlen.
    apply flat_map_seq_ext. intros i Hi. apply IH. nia.
Qed.

Lemma contiguous_of_tensor t : wf t -> contiguous (of_tensor t) = t.
Proof.
  intros Wt. unfold contiguous, of_tensor. cbn [s_shape s_strides s_offset s_storage].
  rewrite gather_row_major by (rewrite Wt; lia).
  cbn [skipn]. rewrite <- Wt, firstn_all. destruct t; reflexivity.
Qed.

Lemma consume_view_all vd : forall vn,
  (0 < vn)%nat -> Forall (fun d => (0 < d)%nat) vd ->
  consume_view vd vn (vn * numel_of vd) = ([], (vn * numel_of vd)%nat).
Proof.
  induction vd as [|d rest IH]; intros vn Hvn Hpos.
  - cbn. rewrite Nat.mul_1_r. reflexivity.
  - inversion Hpos as [|? ? Hd Hrest]; subst.
    change (numel_of (d :: rest)) with (d * numel_of rest)%nat.
    cbn [consume_view].
    assert (Hp : (0 < numel_of rest)%nat).
    { clear -Hrest. induction Hrest; cbn; [lia|].
      change (fold_right Nat.mul 1%nat l) with (numel_of l).
      apply Nat.mul_pos_pos; assumption. }
    assert (Hc : ((vn <? vn * (d * numel_of rest)) || (d =? 1))%nat = true).
    { destruct (Nat.eqb_spec d 1) as [|Hne]; [apply orb_true_r|].
      rewrite orb_false_r. apply Nat.ltb_lt.
      assert (2 <= d * numel_of rest)%nat by nia.
      rewrite <- (Nat.mul_1_r vn) at 1.
      apply Nat.mul_lt_mono_pos_l; lia. }
    rewrite Hc. rewrite Nat.mul_assoc. apply IH; [nia | exact Hrest].
Qed.

Lemma view_chunks_chained old : forall vd tn,
  old <> [] -> chained old tn ->
  (0 < tn)%nat -> Forall (fun d => (0 < d)%nat) vd ->
  numel_of vd = (tn * numel_of (map fst old))%nat ->
  view_chunks old vd 1 tn 1 = true.
Proof.
  induction old as [|[sz st] prev IH]; intros vd tn Hne Hch Htn Hpos Hnum;
    [contradiction|].
  cbn [view_chunks]. destruct Hch as [_ Hch].
  change (numel_of (map fst ((sz, st) :: prev)))
    with (sz * numel_of (map fst prev))%nat in Hnum.
  destruct prev as [|[psz pst] prev'].
  - cbn [map numel_of fold_right] in Hnum. rewrite Nat.mul_1_r in Hnum.
    pose proof (consume_view_all vd 1 ltac:(lia) Hpos) as Hc.
    rewrite Nat.mul_1_l, Hnum in Hc. rewrite Hc.
    rewrite Nat.eqb_refl. reflexivity.
  - destruct Hch as [Hst Hch'].
    assert (E : (pst =? tn * sz * 1)%nat = true)
      by (apply Nat.eqb_eq; lia).
    rewrite E, andb_false_r.
    apply IH; [discriminate | split; assumption | | exact Hpos | ].
    + destruct sz; [|lia].
      exfalso. rewrite Nat.mul_0_l, Nat.mul_0_r in Hnum.
      clear -Hpos Hnum. induction Hpos; cbn in Hnum; [lia|].
      change (fold_right Nat.mul 1%nat l) with (numel_of l) in Hnum. nia.
    + rewrite Hnum. lia.
Qed.

(** A contiguous 4-D tensor can be viewed with its last two dimensions
    merged. *)
Lemma viewable_row_major N Co Ho Wo :
  (0 < N)%nat -> (0 < Co)%nat -> (0 < Ho)%nat -> (0 < Wo)%nat ->
  viewable [N; Co; Ho; Wo] (row_major [N; Co; Ho; Wo]) [N; Co; Ho * Wo]%nat
  = true.
Proof.
  intros HN HCo HHo HWo. unfold viewable.
  cbn [row_major combine rev app]. cbv zeta.
  destruct (Nat.eqb_spec (numel_of [N; Co; Ho; Wo]) 0) as [|_];
    [reflexivity|].
  apply view_chunks_chained.
  - discriminate.
  - cbn [chained numel_of fold_right]. repeat split; ring.
  - lia.
  - cbn [rev app]. repeat constructor; try assumption.
    apply Nat.mul_pos_pos; assumption.
  - cbn [rev app map fst numel_of fold_right]. ring.
Qed.

Lemma ex_g_transposed_not_viewable :
  viewable (s_shape ex_g_transposed) (s_strides ex_g_transposed) [1; 1; 9]%nat
  = false.
Proof. reflexivity. Qed.

End StridedViews.

(** ** The run of [backward] *)

Section BackwardRun.

Lemma view_flat_weight w Co C K :
  shape w = [Co; C; K; K] -> wf w -> (0 < Co)%nat ->
  view w [Some (size w 0); None] =
  Ok {| shape := [Co; C * K * K]%nat; data := data w |}.
Proof.
  intros Hw Ww HCo.
  unfold size. rewrite Hw. cbn [nth].
  change [Some Co; None] with (map Some [Co] ++ [None]).
  assert (Hnw : numel w = (Co * (C * K * K))%nat).
  { unfold numel. rewrite Ww, Hw. simpl. ring. }
  rewrite view_infer_last; cbn [numel_of fold_right];
    rewrite ?Nat.mul_1_r, ?Hnw.
  - rewrite div_mul_l by lia. reflexivity.
  - lia.
  - apply mod_mul_l; lia.
Qed.

Lemma view_flat_grad g N Co Ho Wo :
  shape g = [N; Co; Ho; Wo] -> wf g -> (0 < N)%nat -> (0 < Co)%nat ->
  view g [Some (size g 0); Some (size g 1); None] =
  Ok {| shape := [N; Co; Ho * Wo]%nat; data := data g |}.
Proof.
  intros Hg Wg HN HCo.
  unfold size. rewrite Hg. cbn [nth].
  change [Some N; Some Co; None] with (map Some [N; Co] ++ [None]).
  assert (Hng : numel g = (N * Co * (Ho * Wo))%nat).
  { unfold numel. rewrite Wg, Hg. simpl. ring. }
  assert (Hk : numel_of [N; Co] = (N * Co)%nat) by (simpl; ring).
  assert (Hpos : (0 < N * Co)%nat) by (apply Nat.mul_pos_pos; lia).
  rewrite view_infer_last; rewrite ?Hk, ?Hng.
  - rewrite div_mul_l by lia. reflexivity.
  - lia.
  - apply mod_mul_l; lia.
Qed.

Lemma view_weight_shape sh d Co C K :
  length d = (Co * (C * K * K))%nat -> (0 < Co)%nat -> (0 < K)%nat ->
  view {| shape := sh; data := d |} [Some Co; None; Some K; Some K] =
  Ok {| shape := [Co; C; K; K]; data := d |}.
Proof.
  intros Hlen HCo HK. unfold view.
  cbn [fold_right List.filter length map]. unfold numel. cbn [data].
  rewrite Nat.mul_1_r, Hlen.
  assert (Hpos : (0 < Co * (K * K))%nat) by (repeat apply Nat.mul_pos_pos; lia).
  replace (Co * (C * K * K))%nat with (Co * (K * K) * C)%nat by ring.
  replace (0 <? Co * (K * K))%nat with true
    by (symmetry; apply Nat.ltb_lt; exact Hpos).
  rewrite mod_mul_l, div_mul_l by exact Hpos. reflexivity.
Qed.

Lemma grad_input_run w g N C Co K L :
  shape w = [Co; C; K; K] -> wf w -> (0 < Co)%nat ->
  rbind (view w [Some (size w 0); None]) (fun weight_unfolded =>
    rbind (transpose2 weight_unfolded) (fun weight_T =>
      matmul weight_T {| shape := [N; Co; L]; data := data g |}))
  = Ok (grad_patches w g N (C * K * K) Co L).
Proof.
  intros Hw Ww HCo.
  rewrite (view_flat_weight w Co C K) by assumption. cbn [rbind].
  unfold transpose2. cbn [shape rbind].
  rewrite (matmul_matrix_batch _ _ (C * K * K) Co N L) by reflexivity.
  unfold grad_patches. f_equal. f_equal.
  apply tab3_ext. intros n r l Hn Hr Hl.
  apply sum_n_ext. intros co Hco.
  f_equal.
  unfold get2 at 1, size. cbn [shape data nth].
  rewrite nth_tab2 by assumption. reflexivity.
Qed.

Lemma grad_weight_run u g N C Co K L :
  shape u = [N; C * K * K; L]%nat -> (0 < Co)%nat -> (0 < K)%nat ->
  rbind (transpose12 u) (fun input_transpose =>
    rbind (matmul {| shape := [N; Co; L]; data := data g |} input_transpose)
      (fun prod =>
    rbind (sum_dim0 prod) (fun grad_weight_unfolded =>
      view grad_weight_unfolded [Some Co; None; Some K; Some K])))
  = Ok (grad_weight_spec u g N C K Co L).
Proof.
  intros Hu HCo HK.
  unfold transpose12. rewrite Hu. cbn [rbind].
  rewrite (matmul_batch_batch _ _ N Co L (C * K * K)) by reflexivity.
  cbn [rbind]. unfold sum_dim0. cbn [shape rbind].
  rewrite (view_weight_shape _ _ Co C K)
    by (auto; rewrite length_tab2; reflexivity).
  unfold grad_weight_spec. f_equal. f_equal.
  apply tab2_ext. intros co r Hco Hr.
  apply sum_n_ext. intros n Hn.
  unfold get3 at 1, size. cbn [shape data nth].
  rewrite nth_tab3 by assumption.
  apply sum_n_ext. intros l Hl.
  f_equal.
  unfold get3 at 1, size. cbn [shape data nth].
  rewrite nth_tab3 by assumption. reflexivity.
Qed.

Lemma grad_bias_run g N Co Ho Wo :
  shape g = [N; Co; Ho; Wo] ->
  sum_dims023 g = Ok (grad_bias_spec g N Co Ho Wo).
Proof. intros Hg. unfold sum_dims023. rewrite Hg. reflexivity. Qed.

Lemma backward_run x w bias gs ctx (N C H W Co K : nat) n0 n1 n2 :
  let p := Z.to_nat (ctx_padding ctx) in
  let s := Z.to_nat (ctx_stride ctx) in
  let Ho := out_size H p K s in
  let Wo := out_size W p K s in
  let g := contiguous gs in
  shape x = [N; C; H; W] -> shape w = [Co; C; K; K] -> wf w ->
  shape g = [N; Co; Ho; Wo] -> wf g ->
  viewable (s_shape gs) (s_strides gs) [N; Co; Ho * Wo]%nat = true ->
  conv_params_ok H W K p s = true ->
  (0 < N)%nat -> (0 < Co)%nat ->
  saved_tensors ctx = Some (unfolded x K p s, w, bias) ->
  ctx_input_height ctx = H -> ctx_input_width ctx = W ->
  needs_input_grad ctx = (n0, n1, n2) ->
  backward gs ctx =
  (ctx,
   Ok (if n0
       then Some (folded (grad_patches w g N (C * K * K) Co (Ho * Wo))
                    N C H W K p s)
       else None,
       if n1
       then Some (grad_weight_spec (unfolded x K p s) g N C K Co (Ho * Wo))
       else None,
       match bias with
       | Some _ => if n2 then Some (grad_bias_spec g N Co Ho Wo) else None
       | None => None
       end)).
Proof.
  intros p s Ho Wo g Hx Hw Ww Hg Wg Hview Hok HN HCo Hsaved HH HW Hneeds.
  pose proof Hok as Hok'. apply conv_params_ok_spec in Hok'.
  destruct Hok' as (HK & Hs & _).
  unfold backward. rewrite Hsaved, Hneeds, HH, HW.
  unfold strided_view.
  change (s_size gs 0) with (size g 0). change (s_size gs 1) with (size g 1).
  fold g.
  rewrite (view_flat_grad g N Co Ho Wo) by assumption.
  cbn [rbind shape]. rewrite Hview.
  cbn [rbind]. fold p s.
  assert (HwK : size w 2 = K /\ size w 0 = Co)
    by (unfold size; rewrite Hw; split; reflexivity).
  destruct HwK as [-> HwCo].
  f_equal.
  assert (E0 :
    rbind (view w [Some (size w 0); None]) (fun weight_unfolded =>
      rbind (transpose2 weight_unfolded) (fun weight_T =>
        rbind (matmul weight_T
                 {| shape := [N; Co; (Ho * Wo)%nat]; data := data g |})
          (fun grad_input_unfolded =>
        rbind (fold grad_input_unfolded (H, W) K p s)
          (fun grad_input => Ok (Some grad_input)))))
    = Ok (Some (folded (grad_patches w g N (C * K * K) Co (Ho * Wo))
                  N C H W K p s))).
  { pose proof (grad_input_run w g N C Co K (Ho * Wo) Hw Ww HCo) as E.
    destruct (view w _) as [wu|]; [|discriminate]. cbn [rbind] in *.
    destruct (transpose2 wu) as [wt|]; [|discriminate]. cbn [rbind] in *.
    rewrite E. cbn [rbind].
    rewrite (fold_eq _ N C (Ho * Wo)) by (auto; reflexivity).
    reflexivity. }
  assert (E1 :
    rbind (transpose12 (unfolded x K p s)) (fun input_transpose =>
      rbind (matmul {| shape := [N; Co; (Ho * Wo)%nat]; data := data g |}
               input_transpose)
        (fun prod =>
      rbind (sum_dim0 prod) (fun grad_weight_unfolded =>
        rbind (view grad_weight_unfolded
                 [Some (size w 0); None; Some K; Some K])
          (fun grad_weight => Ok (Some grad_weight)))))
    = Ok (Some (grad_weight_spec (unfolded x K p s) g N C K Co (Ho * Wo)))).
  { rewrite HwCo.
    pose proof (grad_weight_run (unfolded x K p s) g N C Co K (Ho * Wo)) as E.
    destruct (transpose12 _) as [ut|]; [|discriminate E; auto; unfold unfolded, size; rewrite Hx; reflexivity].
    cbn [rbind] in *.
    destruct (matmul _ ut) as [pr|]; [|discriminate E; auto; unfold unfolded, size; rewrite Hx; reflexivity].
    cbn [rbind] in *.
    destruct (sum_dim0 pr) as [gwu|]; [|discriminate E; auto; unfold unfolded, size; rewrite Hx; reflexivity].
    cbn [rbind] in *.
    rewrite E; auto. unfold unfolded, size. rewrite Hx. reflexivity. }
  rewrite E0, E1. clear E0 E1.
  rewrite (grad_bias_run g N Co Ho Wo) by assumption.
  destruct n0, n1, bias as [b|], n2; reflexivity.
Qed.
(** On a grad_output whose strides do not allow its last two dimensions
    to be merged, the [view] of the first line raises. *)
Lemma backward_not_viewable gs ctx (N Co Ho Wo : nat) :
  s_shape gs = [N; Co; Ho; Wo] -> length (s_strides gs) = 4%nat ->
  (0 < N)%nat -> (0 < Co)%nat ->
  viewable (s_shape gs) (s_strides gs) [N; Co; Ho * Wo]%nat = false ->
  snd (backward gs ctx) = Err RuntimeError.
Proof.
  intros Hs Hl HN HCo Hv. unfold backward.
  destruct (saved_tensors ctx) as [[[u w] b]|]; [|reflexivity].
  destruct (needs_input_grad ctx) as [[n0 n1] n2]. cbn [snd].
  unfold strided_view.
  change (s_size gs 0) with (size (contiguous gs) 0).
  change (s_size gs 1) with (size (contiguous gs) 1).
  rewrite (view_flat_grad (contiguous gs) N Co Ho Wo);
    [| exact Hs | apply wf_contiguous; rewrite Hl, Hs; reflexivity
     | exact HN | exact HCo].
  cbn [rbind shape]. rewrite Hv. reflexivity.
Qed.

End BackwardRun.

(** ** Reordering nested sums *)

Section Reorder.

Lemma sum3_rot a b c (f : nat -> nat -> nat -> Z) :
  sum_n a (fun i => sum_n b (fun j => sum_n c (fun k => f i j k))) =
  sum_n c (fun k => sum_n a (fun i => sum_n b (fun j => f i j k))).
Proof.
  transitivity (sum_n a (fun i => sum_n c (fun k => sum_n b (fun j => f i j k)))).
  - apply sum_n_ext. intros i _. apply sum_n_swap.
  - apply (sum_n_swap a c (fun i k => sum_n b (fun j => f i j k))).
Qed.

Lemma sum3_rev a b c (f : nat -> nat -> nat -> Z) :
  sum_n a (fun i => sum_n b (fun j => sum_n c (fun k => f i j k))) =
  sum_n c (fun k => sum_n b (fun j => sum_n a (fun i => f i j k))).
Proof.
  rewrite sum3_rot. apply sum_n_ext. intros k _. apply sum_n_swap.
Qed.

Lemma sum4_swap22 a b c d (f : nat -> nat -> nat -> nat -> Z) :
  sum_n a (fun i => sum_n b (fun j =>
    sum_n c (fun k => sum_n d (fun l => f i j k l)))) =
  sum_n c (fun k => sum_n d (fun l =>
    sum_n a (fun i => sum_n b (fun j => f i j k l)))).
Proof.
  transitivity (sum_n a (fun i => sum_n c (fun k => sum_n d (fun l =>
                  sum_n b (fun j => f i j k l))))).
  - apply sum_n_ext. intros i _.
    symmetry. apply (sum3_rot c d b (fun k l j => f i j k l)).
  - symmetry.
    apply (sum3_rot c d a (fun k l i => sum_n b (fun j => f i j k l))).
Qed.

Lemma sum_n_flat3 a b c (f : nat -> Z) :
  sum_n (a * (b * c)) f =
  sum_n a (fun i => sum_n b (fun j => sum_n c (fun k =>
    f ((i * b + j) * c + k)%nat))).
Proof.
  rewrite sum_n_prod. apply sum_n_ext. intros i _.
  rewrite sum_n_prod. apply sum_n_ext. intros j _.
  apply sum_n_ext. intros k _. f_equal. ring.
Qed.

Lemma index_split a b r :
  (r < a * b)%nat -> exists i j, (i < a)%nat /\ (j < b)%nat /\ r = (i * b + j)%nat.
Proof.
  intros Hr.
  assert (Hb : (b <> 0)%nat) by (intros ->; lia).
  exists (r / b)%nat, (r mod b)%nat. split; [|split].
  - apply Nat.Div0.div_lt_upper_bound. lia.
  - apply Nat.mod_upper_bound. exact Hb.
  - rewrite (Nat.div_mod_eq r b) at 1. ring.
Qed.

End Reorder.

(** ** Linearity of the forward pass and the adjoint identities *)

Section Linearity.

Lemma get3_unfolded t N C H W K p s n c kh kw ho wo :
  shape t = [N; C; H; W] ->
  (n < N)%nat -> (c < C)%nat -> (kh < K)%nat -> (kw < K)%nat ->
  (ho < out_size H p K s)%nat -> (wo < out_size W p K s)%nat ->
  get3 (unfolded t K p s) n ((c * K + kh) * K + kw)
       (ho * out_size W p K s + wo)
  = pad_read t p n c (ho * s + kh) (wo * s + kw).
Proof.
  intros Ht Hn Hc Hkh Hkw Hho Hwo.
  unfold get3, unfolded, size. rewrite Ht. cbn [shape data nth].
  set (Ho := out_size H p K s). set (Wo := out_size W p K s).
  replace ((n * (C * K * K) + ((c * K + kh) * K + kw)) * (Ho * Wo)
           + (ho * Wo + wo))%nat
    with (((((n * C + c) * K + kh) * K + kw) * Ho + ho) * Wo + wo)%nat
    by ring.
  rewrite nth_tab6 by assumption. reflexivity.
Qed.

Lemma get4_tadd x d N C H W n c h w :
  shape x = [N; C; H; W] -> wf x ->
  (n < N)%nat -> (c < C)%nat -> (h < H)%nat -> (w < W)%nat ->
  get4 (tadd x d) n c h w =
  get4 x n c h w + nth (((n * C + c) * H + h) * W + w) (data d) 0.
Proof.
  intros Hx Wx Hn Hc Hh Hw.
  unfold get4, tadd, size. cbn [shape data]. rewrite Hx. cbn [nth].
  rewrite nth_tab1; [reflexivity|].
  unfold numel. rewrite Wx, Hx. cbn [numel_of fold_right].
  rewrite Nat.mul_1_r, !Nat.mul_assoc. auto using idx_lt.
Qed.

Lemma pad_read_tadd x d N C H W p n c a b :
  shape x = [N; C; H; W] -> shape d = [N; C; H; W] -> wf x ->
  (n < N)%nat -> (c < C)%nat ->
  pad_read (tadd x d) p n c a b = pad_read x p n c a b + pad_read d p n c a b.
Proof.
  intros Hx Hd Wx Hn Hc.
  unfold pad_read.
  assert (Hs : size (tadd x d) 2 = H /\ size (tadd x d) 3 = W /\
               size x 2 = H /\ size x 3 = W /\
               size d 2 = H /\ size d 3 = W).
  { unfold size, tadd. cbn [shape]. rewrite Hx, Hd. repeat split. }
  destruct Hs as (-> & -> & -> & -> & -> & ->).
  destruct ((p <=? a)%nat && (a <? H + p)%nat &&
            (p <=? b)%nat && (b <? W + p)%nat) eqn:Hin; [|ring].
  rewrite !andb_true_iff, !Nat.leb_le, !Nat.ltb_lt in Hin.
  rewrite (get4_tadd x d N C H W) by (auto; lia).
  f_equal. unfold get4, size. rewrite Hd. cbn [nth]. reflexivity.
Qed.

Lemma unfolded_tadd x d N C H W K p s n r l :
  shape x = [N; C; H; W] -> shape d = [N; C; H; W] -> wf x ->
  (n < N)%nat -> (r < C * K * K)%nat ->
  (l < out_size H p K s * out_size W p K s)%nat ->
  get3 (unfolded (tadd x d) K p s) n r l =
  get3 (unfolded x K p s) n r l + get3 (unfolded d K p s) n r l.
Proof.
  intros Hx Hd Wx Hn Hr Hl.
  apply index_split in Hr. destruct Hr as (i & kw & Hi & Hkw & ->).
  apply index_split in Hi. destruct Hi as (c & kh & Hc & Hkh & ->).
  apply index_split in Hl. destruct Hl as (ho & wo & Hho & Hwo & ->).
  rewrite !(get3_unfolded _ N C H W) by (auto; reflexivity).
  apply (pad_read_tadd x d N C H W); assumption.
Qed.


Lemma reference_data x w bias N C H W Co K s p :
  shape x = [N; C; H; W] -> shape w = [Co; C; K; K] ->
  conv2d_reference x w bias s p =
  {| shape := [N; Co; out_size H p K s; out_size W p K s];
     data := tab3 N Co (out_size H p K s * out_size W p K s)
               (fun n co l =>
                  sum_n (C * K * K) (fun r =>
                    nth (co * (C * K * K) + r) (data w) 0 *
                    get3 (unfolded x K p s) n r l)
                  + bias_at bias co) |}.
Proof.
  intros Hx Hw. unfold conv2d_reference.
  assert (Hsz : size x 0 = N /\ size x 1 = C /\ size x 2 = H /\ size x 3 = W
                /\ size w 0 = Co /\ size w 2 = K).
  { unfold size. rewrite Hx, Hw. repeat split. }
  destruct Hsz as (-> & -> & -> & -> & -> & ->).
  f_equal. rewrite tab3_split_last. apply tab4_ext.
  intros n co ho wo Hn Hco Hho Hwo. f_equal.
  symmetry. apply (patch_product_triple_sum x w N C H W Co K); assumption.
Qed.

Lemma dot_tab3 g sh N Co L F :
  length (data g) = (N * (Co * L))%nat ->
  dot g {| shape := sh; data := tab3 N Co L F |} =
  sum_n N (fun n => sum_n Co (fun co => sum_n L (fun l =>
    nth ((n * Co + co) * L + l) (data g) 0 * F n co l))).
Proof.
  intros Hlen. unfold dot, numel. cbn [data]. rewrite Hlen, sum_n_flat3.
  apply sum_n_ext. intros n Hn. apply sum_n_ext. intros co Hco.
  apply sum_n_ext. intros l Hl. rewrite nth_tab3 by assumption. reflexivity.
Qed.

Lemma sum3_minus a b c (f g : nat -> nat -> nat -> Z) :
  sum_n a (fun i => sum_n b (fun j => sum_n c (fun k => f i j k))) -
  sum_n a (fun i => sum_n b (fun j => sum_n c (fun k => g i j k))) =
  sum_n a (fun i => sum_n b (fun j => sum_n c (fun k => f i j k - g i j k))).
Proof.
  rewrite <- sum_n_minus. apply sum_n_ext. intros i _.
  rewrite <- sum_n_minus. apply sum_n_ext. intros j _.
  rewrite <- sum_n_minus. reflexivity.
Qed.

Lemma length_grad g N Co Ho Wo :
  shape g = [N; Co; Ho; Wo] -> wf g ->
  length (data g) = (N * (Co * (Ho * Wo)))%nat.
Proof.
  intros Hg Wg. rewrite Wg, Hg. cbn [numel_of fold_right].
  rewrite Nat.mul_1_r. reflexivity.
Qed.

(** The bias gradient is the exact derivative of the loss <g, forward>. *)
Lemma grad_bias_exact x w b db g N C H W Co K s p :
  shape x = [N; C; H; W] -> shape w = [Co; C; K; K] ->
  shape g = [N; Co; out_size H p K s; out_size W p K s] -> wf g ->
  length (data b) = Co ->
  dot g (conv2d_reference x w (Some (tadd b db)) s p) -
  dot g (conv2d_reference x w (Some b) s p) =
  dot (grad_bias_spec g N Co (out_size H p K s) (out_size W p K s)) db.
Proof.
  intros Hx Hw Hg Wg Hb.
  set (Ho := out_size H p K s) in *. set (Wo := out_size W p K s) in *.
  rewrite !(reference_data x w _ N C H W Co K) by assumption.
  fold Ho Wo.
  rewrite !dot_tab3 by (apply (length_grad g N Co Ho Wo); assumption).
  rewrite sum3_minus.
  rewrite (sum_n_ext _ _ (fun n => sum_n Co (fun co =>
    sum_n (Ho * Wo) (fun l =>
      nth ((n * Co + co) * (Ho * Wo) + l) (data g) 0) * nth co (data db) 0))).
  2:{ intros n Hn. apply sum_n_ext. intros co Hco.
      rewrite <- sum_n_scal_r. apply sum_n_ext. intros l Hl.
      cbn [bias_at]. unfold get1, tadd. cbn [data].
      rewrite nth_tab1 by (unfold numel; lia). ring. }
  rewrite sum_n_swap.
  unfold dot, grad_bias_spec, numel. cbn [data]. rewrite length_tab1.
  apply sum_n_ext. intros co Hco.
  rewrite nth_tab1 by assumption.
  rewrite <- sum_n_scal_r. apply sum_n_ext. intros n Hn.
  f_equal. rewrite sum_n_prod.
  apply sum_n_ext. intros h Hh. apply sum_n_ext. intros w' Hw'.
  unfold get4, size. rewrite Hg. cbn [nth]. f_equal. ring.
Qed.

(** The weight gradient is the exact derivative of the loss. *)
Lemma grad_weight_exact x w dw bias g N C H W Co K s p :
  shape x = [N; C; H; W] -> shape w = [Co; C; K; K] -> wf w ->
  shape g = [N; Co; out_size H p K s; out_size W p K s] -> wf g ->
  dot g (conv2d_reference x (tadd w dw) bias s p) -
  dot g (conv2d_reference x w bias s p) =
  dot (grad_weight_spec (unfolded x K p s) g N C K Co
         (out_size H p K s * out_size W p K s)) dw.
Proof.
  intros Hx Hw Ww Hg Wg.
  set (Ho := out_size H p K s) in *. set (Wo := out_size W p K s) in *.
  set (R := (C * K * K)%nat). set (L := (Ho * Wo)%nat).
  assert (Hnw : numel w = (Co * R)%nat).
  { unfold numel, R. rewrite Ww, Hw. simpl. ring. }
  rewrite (reference_data x (tadd w dw) _ N C H W Co K)
    by (auto; cbn [tadd shape]; assumption).
  rewrite (reference_data x w _ N C H W Co K) by assumption.
  fold Ho Wo R L.
  rewrite !dot_tab3 by (apply (length_grad g N Co Ho Wo); assumption).
  rewrite sum3_minus.
  set (G := fun n co l => nth ((n * Co + co) * L + l) (data g) 0).
  set (U := fun n r l => get3 (unfolded x K p s) n r l).
  set (D := fun co r => nth (co * R + r) (data dw) 0).
  transitivity (sum_n N (fun n => sum_n Co (fun co => sum_n L (fun l =>
                  sum_n R (fun r => G n co l * U n r l * D co r))))).
  { apply sum_n_ext. intros n Hn. apply sum_n_ext. intros co Hco.
    apply sum_n_ext. intros l Hl.
    rewrite <- Z.mul_sub_distr_l. fold (G n co l).
    match goal with
    | |- _ * (?A + ?b - (?B + ?b)) = _ =>
        replace (A + b - (B + b)) with (A - B) by ring
    end.
    rewrite <- sum_n_minus, <- sum_n_scal_l.
    apply sum_n_ext. intros r Hr.
    unfold tadd, D, U. cbn [data].
    rewrite nth_tab1 by (rewrite Hnw; apply idx_lt; assumption).
    ring. }
  rewrite (sum_n_swap N Co).
  unfold dot, grad_weight_spec, numel. cbn [data].
  rewrite length_tab2. fold R. rewrite sum_n_prod.
  apply sum_n_ext. intros co Hco.
  rewrite (sum3_rot N L R (fun n l r => G n co l * U n r l * D co r)).
  apply sum_n_ext. intros r Hr.
  rewrite nth_tab2 by assumption. fold (D co r).
  rewrite <- sum_n_scal_r. apply sum_n_ext. intros n Hn.
  rewrite <- sum_n_scal_r. reflexivity.
Qed.


Lemma nth_folded_flat (plane : nat -> nat -> list Z) N C HW n c j :
  (forall n c, length (plane n c) = HW) ->
  (n < N)%nat -> (c < C)%nat -> (j < HW)%nat ->
  nth ((n * C + c) * HW + j)
      (flat_map (fun n => flat_map (fun c => plane n c) (seq 0 C)) (seq 0 N)) 0
  = nth j (plane n c) 0.
Proof.
  intros Hlen Hn Hc Hj.
  replace ((n * C + c) * HW + j)%nat
    with (n * (C * HW) + (c * HW + j))%nat by ring.
  rewrite (nth_flat_map_seq _ (C * HW)); auto.
  - rewrite (nth_flat_map_seq _ HW); auto.
  - intros k _. apply length_flat_map_seq. intros. apply Hlen.
  - apply idx_lt; assumption.
Qed.

(** [fold] is the adjoint of [unfold]: pairing a folded matrix with a map
    is pairing the matrix with the patches of the map. *)
Lemma fold_adjoint m d N C H W K p s :
  shape d = [N; C; H; W] ->
  dot (folded m N C H W K p s) d =
  sum_n N (fun n => sum_n C (fun c =>
    sum_n (out_size H p K s) (fun ho => sum_n (out_size W p K s) (fun wo =>
      sum_n K (fun kh => sum_n K (fun kw =>
        get3 m n ((c * K + kh) * K + kw) (ho * out_size W p K s + wo) *
        pad_read d p n c (ho * s + kh) (wo * s + kw))))))).
Proof.
  intros Hd.
  set (Ho := out_size H p K s). set (Wo := out_size W p K s).
  assert (Hlen : forall n c,
    length (fold_plane m n c H W K p s Ho Wo) = (H * W)%nat).
  { intros n c. apply (wsum_fold_plane (fun _ => 0) m). }
  unfold dot, numel, folded. cbn [data]. fold Ho Wo.
  rewrite (length_folded _ N C H W) by exact Hlen.
  rewrite sum_n_flat3.
  apply sum_n_ext. intros n Hn. apply sum_n_ext. intros c Hc.
  destruct (wsum_fold_plane
              (fun j => nth ((n * C + c) * (H * W) + j) (data d) 0)
              m n c H W K p s Ho Wo) as [_ Hsum].
  unfold wsum in Hsum. rewrite Hlen in Hsum.
  etransitivity; [|etransitivity; [exact Hsum|]].
  - apply sum_n_ext. intros j Hj.
    rewrite (nth_folded_flat _ N C (H * W)) by assumption. reflexivity.
  - apply sum_n_ext. intros ho Hho. apply sum_n_ext. intros wo Hwo.
    apply sum_n_ext. intros kh Hkh. apply sum_n_ext. intros kw Hkw.
    unfold pad_read, get4, size. rewrite Hd. cbn [nth].
    destruct ((p <=? ho * s + kh)%nat && (ho * s + kh <? H + p)%nat &&
              (p <=? wo * s + kw)%nat && (wo * s + kw <? W + p)%nat);
      [|ring].
    f_equal. f_equal. ring.
Qed.

Lemma sum_patch_split C K Ho Wo (F : nat -> nat -> Z) :
  sum_n (C * K * K) (fun r => sum_n (Ho * Wo) (fun l => F r l)) =
  sum_n C (fun c => sum_n K (fun kh => sum_n K (fun kw =>
    sum_n Ho (fun ho => sum_n Wo (fun wo =>
      F ((c * K + kh) * K + kw)%nat (ho * Wo + wo)%nat))))).
Proof.
  rewrite sum_n_prod, sum_n_prod.
  apply sum_n_ext. intros c _. apply sum_n_ext. intros kh _.
  apply sum_n_ext. intros kw _. apply sum_n_prod.
Qed.

(** The input gradient is the exact derivative of the loss. *)
Lemma grad_input_exact x dx w bias g N C H W Co K s p :
  shape x = [N; C; H; W] -> shape dx = [N; C; H; W] -> wf x ->
  shape w = [Co; C; K; K] ->
  shape g = [N; Co; out_size H p K s; out_size W p K s] -> wf g ->
  dot g (conv2d_reference (tadd x dx) w bias s p) -
  dot g (conv2d_reference x w bias s p) =
  dot (folded (grad_patches w g N (C * K * K) Co
                 (out_size H p K s * out_size W p K s))
         N C H W K p s) dx.
Proof.
  intros Hx Hdx Wx Hw Hg Wg.
  set (Ho := out_size H p K s) in *. set (Wo := out_size W p K s) in *.
  set (R := (C * K * K)%nat). set (L := (Ho * Wo)%nat).
  rewrite (reference_data (tadd x dx) w _ N C H W Co K)
    by (auto; cbn [tadd shape]; assumption).
  rewrite (reference_data x w _ N C H W Co K) by assumption.
  fold Ho Wo R L.
  rewrite !dot_tab3 by (apply (length_grad g N Co Ho Wo); assumption).
  rewrite sum3_minus.
  rewrite (fold_adjoint _ dx N C H W K p s) by assumption.
  fold Ho Wo.
  set (G := fun n co l => nth ((n * Co + co) * L + l) (data g) 0).
  set (D := fun co r => nth (co * R + r) (data w) 0).
  set (U := fun n r l => get3 (unfolded dx K p s) n r l).
  apply sum_n_ext. intros n Hn.
  transitivity (sum_n Co (fun co => sum_n L (fun l => sum_n R (fun r =>
                  D co r * G n co l * U n r l)))).
  { apply sum_n_ext. intros co Hco. apply sum_n_ext. intros l Hl.
    rewrite <- Z.mul_sub_distr_l.
    match goal with
    | |- _ * (?A + ?b - (?B + ?b)) = _ =>
        replace (A + b - (B + b)) with (A - B) by ring
    end.
    rewrite <- sum_n_minus, <- sum_n_scal_l.
    apply sum_n_ext. intros r Hr.
    rewrite (unfolded_tadd x dx N C H W) by assumption.
    unfold G, D, U. ring. }
  rewrite (sum3_rev Co L R (fun co l r => D co r * G n co l * U n r l)).
  transitivity (sum_n R (fun r => sum_n L (fun l =>
    get3 (grad_patches w g N R Co L) n r l * U n r l))).
  { apply sum_n_ext. intros r Hr. apply sum_n_ext. intros l Hl.
    unfold get3 at 1, grad_patches, size. cbn [shape data nth].
    rewrite nth_tab3 by assumption.
    rewrite <- sum_n_scal_r. reflexivity. }
  unfold R, L. rewrite sum_patch_split.
  apply sum_n_ext. intros c Hc.
  rewrite (sum4_swap22 K K Ho Wo).
  apply sum_n_ext. intros ho Hho. apply sum_n_ext. intros wo Hwo.
  apply sum_n_ext. intros kh Hkh. apply sum_n_ext. intros kw Hkw.
  f_equal. unfold U.
  apply (get3_unfolded dx N C H W); assumption.
Qed.

End Linearity.

(** ** A forward call that returns was a valid call *)

Section ForwardInversion.

Lemma forward_ok_inv x w bias stride padding ctx ctx' out
      (N C H W Co Ci K1 K2 : nat) :
  shape x = [N; C; H; W] -> shape w = [Co; Ci; K1; K2] ->
  forward x w bias stride padding ctx = (ctx', Ok out) ->
  K1 = K2 /\ C = Ci /\
  exists s p, stride = PyInt s /\ padding = PyInt p /\
    0 < s /\ 0 <= p /\
    Z.of_nat K1 <= Z.of_nat H + 2 * p /\ Z.of_nat K1 <= Z.of_nat W + 2 * p /\
    (0 < K1)%nat /\ (0 < Co)%nat /\ (0 < N)%nat.
Proof.
  intros Hx Hw.
  unfold forward, bind, assert_, lift, modify, ret.
  assert (Hsz : size x 0 = N /\ size x 1 = C /\ size x 2 = H /\ size x 3 = W
                /\ size w 0 = Co /\ size w 1 = Ci /\ size w 2 = K1
                /\ size w 3 = K2).
  { unfold size. rewrite Hx, Hw. repeat split. }
  destruct Hsz as (-> & -> & -> & -> & -> & -> & -> & ->).
  destruct (Nat.eqb_spec K1 K2) as [E1|E1]; [|discriminate].
  destruct (Nat.eqb_spec C Ci) as [E2|E2]; [|discriminate].
  destruct stride as [s|]; [|discriminate].
  cbn [isinstance_int int_of andb].
  destruct (Z.ltb_spec 0 s) as [E3|E3]; [|discriminate].
  destruct padding as [p|]; [|discriminate].
  cbn [isinstance_int int_of andb].
  destruct (Z.leb_spec 0 p) as [E4|E4]; [|discriminate].
  destruct (Z.leb_spec (Z.of_nat K1) (Z.of_nat H + 2 * p)) as [E5|E5];
    [|discriminate].
  destruct (Z.leb_spec (Z.of_nat K1) (Z.of_nat W + 2 * p)) as [E6|E6];
    [|discriminate].
  destruct (unfold _ _ _ _) as [u|e] eqn:Eu; [|discriminate].
  destruct (view w _) as [wu|e] eqn:Ew; [|discriminate].
  destruct (matmul _ _) as [o|e] eqn:Em; [|discriminate].
  intros Hres.
  assert (HK : (0 < K1)%nat).
  { unfold unfold in Eu. rewrite Hx in Eu.
    destruct (conv_params_ok _ _ _ _ _) eqn:Hok; [|discriminate].
    apply conv_params_ok_spec in Hok. tauto. }
  assert (HCo : (0 < Co)%nat).
  { unfold view in Ew. cbn [fold_right List.filter length] in Ew.
    destruct (Nat.ltb_spec 0 (Co * 1)) as [Hpos|Hpos]; [lia|].
    cbn [andb] in Ew. discriminate. }
  assert (Hv : forall o', (exists v,
              view o' [Some N; Some Co;
                Some (Z.to_nat ((Z.of_nat H + 2 * p - Z.of_nat K1) / s + 1));
                None] = Ok v) -> (0 < N)%nat).
  { intros o' [v Ev]. unfold view in Ev.
    cbn [fold_right List.filter length] in Ev.
    match type of Ev with
    | context [(0 <? ?k)%nat] =>
        destruct (Nat.ltb_spec 0 k) as [Hpos|Hpos];
          [|cbn [andb] in Ev; discriminate]
    end.
    destruct N; [simpl in Hpos; lia | lia]. }
  repeat split; try assumption.
  exists s, p. repeat split; try assumption.
  destruct bias as [b|].
  - destruct (view b _) as [c|e]; [|discriminate].
    destruct (iadd_column _ _) as [o'|e]; [|discriminate].
    destruct (view o' _) as [v|e] eqn:Ev; [|discriminate].
    apply (Hv o'). eauto.
  - destruct (view o _) as [v|e] eqn:Ev; [|discriminate].
    apply (Hv o). eauto.
Qed.

End ForwardInversion.

Section Claims.

Lemma forward_failure_saves_nothing x w bias stride padding ctx e :
  snd (forward x w bias stride padding ctx) = Err e ->
  saved_tensors (fst (forward x w bias stride padding ctx)) = saved_tensors ctx.
Proof.
  unfold forward, bind, assert_, lift, modify, ret.
  repeat match goal with
         | |- context [if ?b then _ else _] => destruct b; cbn [fst snd]
         | |- context [match ?r with Ok _ => _ | Err _ => _ end] =>
             destruct r; cbn [fst snd]
         | |- context [match ?r with Some _ => _ | None => _ end] =>
             destruct r; cbn [fst snd]
         end;
    try discriminate; try reflexivity.
Qed.

(** C4. On 4-D tensors, [forward] raises the contract error (the
    [AssertionError] of its assertions) exactly when the contract fails:
    the kernel is not square, the channel counts differ, the stride is not
    a positive integer, the padding is not a non-negative integer, or the
    kernel exceeds the padded height or width.  When the contract holds no
    contract error is raised, and a contract error leaves no output and
    nothing saved for backward. *)
Theorem forward_contract_error x w bias stride padding ctx :
  length (shape x) = 4%nat -> length (shape w) = 4%nat ->
  (snd (forward x w bias stride padding ctx) = Err AssertionError <->
   ~ contract x w stride padding) /\
  (contract x w stride padding ->
   snd (forward x w bias stride padding ctx) <> Err AssertionError) /\
  (snd (forward x w bias stride padding ctx) = Err AssertionError ->
   saved_tensors (fst (forward x w bias stride padding ctx))
   = saved_tensors ctx).
Proof.
  intros _ _. split; [apply forward_contract|]. split.
  - intros Hc Hr. apply forward_contract in Hr. contradiction.
  - apply forward_failure_saves_nothing.
Qed.


Lemma forward_contract_error_witness :
  (snd (forward ex_x ex_w (Some ex_b) (PyInt 1) (PyInt 0) ex_ctx)
     = Err AssertionError <->
   ~ contract ex_x ex_w (PyInt 1) (PyInt 0)) /\
  (contract ex_x ex_w (PyInt 1) (PyInt 0) ->
   snd (forward ex_x ex_w (Some ex_b) (PyInt 1) (PyInt 0) ex_ctx)
     <> Err AssertionError) /\
  (snd (forward ex_x ex_w (Some ex_b) (PyInt 1) (PyInt 0) ex_ctx)
     = Err AssertionError ->
   saved_tensors (fst (forward ex_x ex_w (Some ex_b) (PyInt 1) (PyInt 0) ex_ctx))
   = saved_tensors ex_ctx).
Proof.
  apply (forward_contract_error ex_x ex_w (Some ex_b) (PyInt 1) (PyInt 0) ex_ctx);
    reflexivity.
Defined.




(** C3, as stated, fails when the windows do not reach every element:
    on a 3 x 3 map with kernel_size = stride = 2 the last row and column
    are in no window, and the round trip puts zeros there. *)
Lemma fold_unfold_not_identity :
  conv_params_ok 3 3 2 0 2 = true /\ (2 <= 2)%nat /\
  rbind (unfold ex_x3 2 0 2) (fun u => fold u (3, 3)%nat 2 0 2) <> Ok ex_x3.
Proof.
  split; [reflexivity|]. split; [lia|]. vm_compute. discriminate.
Qed.

Lemma sum_n_ge_term n (f : nat -> Z) k :
  (forall i, (i < n)%nat -> 0 <= f i) -> (k < n)%nat -> f k <= sum_n n f.
Proof.
  induction n as [|n IH]; intros Hpos Hk; [lia|]. simpl.
  assert (0 <= sum_n n f) by (apply sum_n_nonneg; intros; apply Hpos; lia).
  destruct (Nat.eq_dec k n) as [->|Hne].
  - lia.
  - assert (f k <= sum_n n f) by (apply IH; [intros; apply Hpos|]; lia).
    specialize (Hpos n (Nat.lt_succ_diag_r n)). lia.
Qed.

(** When the windows tile the axis (stride = kernel_size, no padding,
    kernel_size divides the length) every index is in exactly one. *)
Lemma covers_tiling H K h :
  (0 < K)%nat -> (K <= H)%nat -> (H mod K = 0)%nat -> (h < H)%nat ->
  sum_n (out_size H 0 K K) (fun ho => if covers K 0 K h ho then 1 else 0) = 1.
Proof.
  intros HK HKH Hdiv Hh.
  assert (Hle : 0 <= sum_n (out_size H 0 K K)
                       (fun ho => if covers K 0 K h ho then 1 else 0) <= 1).
  { apply count_at_most_one. intros i j _ _ Hi Hj.
    apply (covers_unique K 0 K h i j); auto. }
  assert (Hq : H = (K * (H / K))%nat).
  { rewrite (Nat.div_mod_eq H K) at 1. lia. }
  assert (Hout : out_size H 0 K K = (H / K)%nat).
  { unfold out_size. rewrite Nat.add_0_r.
    assert (1 <= H / K)%nat by (apply Nat.div_le_lower_bound; lia).
    replace (H - K)%nat with ((H / K - 1) * K)%nat by nia.
    rewrite Nat.div_mul by lia. lia. }
  assert (Hcov : covers K 0 K h (h / K) = true).
  { unfold covers. rewrite andb_true_iff, Nat.leb_le, Nat.ltb_lt.
    pose proof (Nat.div_mod_eq h K) as E.
    pose proof (Nat.mod_upper_bound h K) as B. nia. }
  assert (Hlt : (h / K < out_size H 0 K K)%nat).
  { rewrite Hout. apply Nat.Div0.div_lt_upper_bound. lia. }
  pose proof (sum_n_ge_term (out_size H 0 K K)
                (fun ho => if covers K 0 K h ho then 1 else 0) (h / K)) as Hge.
  cbv beta in Hge. rewrite Hcov in Hge.
  assert (1 <= sum_n (out_size H 0 K K)
                 (fun ho => if covers K 0 K h ho then 1 else 0)).
  { apply Hge; [|exact Hlt]. intros i _. destruct (covers K 0 K h i); lia. }
  lia.
Qed.

(** C3 (amended). For every 4-D map X and valid ConvParams,
    fold (unfold X) has the shape of X and each element of X multiplied by
    the number of receptive fields that cover it, for every stride.  When
    stride >= kernel_size that number is 0 or 1; the round trip is X
    itself when the windows tile the map (stride = kernel_size, no padding,
    kernel_size dividing H and W). *)
Theorem fold_unfold_multiplicity x (N C H W K p s : nat) :
  shape x = [N; C; H; W] ->
  conv_params_ok H W K p s = true ->
  exists y,
    rbind (unfold x K p s) (fun u => fold u (H, W) K p s) = Ok y /\
    shape y = shape x /\ wf y /\
    (forall n c h w,
       (n < N)%nat -> (c < C)%nat -> (h < H)%nat -> (w < W)%nat ->
       get4 y n c h w = coverage H W K p s h w * get4 x n c h w) /\
    ((K <= s)%nat -> forall h w, 0 <= coverage H W K p s h w <= 1) /\
    (s = K -> p = 0%nat -> (H mod K = 0)%nat -> (W mod K = 0)%nat ->
     forall n c h w,
       (n < N)%nat -> (c < C)%nat -> (h < H)%nat -> (w < W)%nat ->
       get4 y n c h w = get4 x n c h w).
Proof.
  intros Hx Hok.
  destruct (fold_unfold_run x N C H W K p s Hx Hok) as (y & Hy & Hs & Hwf & Hv).
  exists y. split; [exact Hy|]. split; [exact Hs|]. split; [exact Hwf|].
  split; [exact Hv|]. split.
  - intros HKs h w. apply coverage_no_overlap. exact HKs.
  - intros -> -> HdH HdW n c h w Hn Hc Hh Hw.
    rewrite Hv by assumption.
    apply conv_params_ok_spec in Hok. destruct Hok as (HK & _ & HKH & HKW).
    rewrite coverage_factor.
    rewrite (covers_tiling H K h), (covers_tiling W K w) by (auto; lia).
    ring.
Qed.

Lemma fold_unfold_multiplicity_witness :
  exists y,
    rbind (unfold ex_x 2 0 2) (fun u => fold u (4, 4)%nat 2 0 2) = Ok y /\
    shape y = shape ex_x /\ wf y /\
    (forall n c h w,
       (n < 1)%nat -> (c < 1)%nat -> (h < 4)%nat -> (w < 4)%nat ->
       get4 y n c h w = coverage 4 4 2 0 2 h w * get4 ex_x n c h w) /\
    ((2 <= 2)%nat -> forall h w, 0 <= coverage 4 4 2 0 2 h w <= 1) /\
    (2%nat = 2%nat -> 0%nat = 0%nat -> (4 mod 2 = 0)%nat -> (4 mod 2 = 0)%nat ->
     forall n c h w,
       (n < 1)%nat -> (c < 1)%nat -> (h < 4)%nat -> (w < 4)%nat ->
       get4 y n c h w = get4 ex_x n c h w).
Proof.
  apply (fold_unfold_multiplicity ex_x 1 1 4 4 2 0 2); reflexivity.
Defined.


Lemma wf_tadd a d : wf a -> wf (tadd a d).
Proof.
  intros Wa. unfold wf, tadd. cbn [shape data].
  rewrite length_tab1. exact Wa.
Qed.

(** C2, as stated, fails on a grad_output that is not contiguous: the
    gradient of the example with the strides of a transpose of its two
    spatial axes has the shape of the output, and the [view] of the first
    line of [backward] raises on it. *)
Lemma backward_noncontiguous_raises :
  exists ctx' out,
    forward ex_x ex_w (Some ex_b) (PyInt 1) (PyInt 0) ex_ctx = (ctx', Ok out) /\
    s_shape ex_g_transposed = shape out /\
    contiguous ex_g_transposed = ex_g /\
    snd (backward ex_g_transposed ctx') = Err RuntimeError.
Proof.
  exists (fst (forward ex_x ex_w (Some ex_b) (PyInt 1) (PyInt 0) ex_ctx)),
         (conv2d_reference ex_x ex_w (Some ex_b) 1 0).
  split; [reflexivity|]. split; [reflexivity|]. split; reflexivity.
Qed.

(** C2 (amended). For every forward call that returned and every
    grad_output of the shape of its output whose strides let it be viewed
    as (N, C_o, H_o * W_o), as those of every contiguous tensor do,
    [backward] returns, for each gradient that is needed: grad_input, the
    fold of the transposed flattened weight times the flattened
    grad_output; grad_weight, the sum over the batch of grad_output times
    the transposed patches, in the shape of the weight; grad_bias,
    grad_output summed over the batch and the two spatial axes.  Each is
    the exact derivative of the loss <grad_output, forward> in its
    argument: moving the argument by d changes the loss by
    <gradient, d>.  On a grad_output of that shape whose strides do not
    allow the view, [backward] raises. *)
Theorem backward_exact_gradients x w bias stride padding ctx ctx' out gs
        (N C H W Co Ci K1 K2 : nat) (n0 n1 n2 : bool) :
  shape x = [N; C; H; W] -> wf x ->
  shape w = [Co; Ci; K1; K2] -> wf w ->
  bias_ok Co bias ->
  needs_input_grad ctx = (n0, n1, n2) ->
  forward x w bias stride padding ctx = (ctx', Ok out) ->
  s_shape gs = shape out -> length (s_strides gs) = 4%nat ->
  let s := Z.to_nat (int_of stride) in
  let p := Z.to_nat (int_of padding) in
  let L := (out_size H p K1 s * out_size W p K1 s)%nat in
  viewable (s_shape gs) (s_strides gs) [N; Co; L] = true ->
  let g := contiguous gs in
  (exists gi gw gb,
    backward gs ctx' = (ctx', Ok (gi, gw, gb)) /\
    (if n0
     then exists t, gi = Some t /\
            fold (grad_patches w g N (C * K1 * K1) Co L) (H, W) K1 p s = Ok t /\
            exact_gradient
              (fun a => snd (forward a w bias stride padding ctx)) g x t
     else gi = None) /\
    (if n1
     then exists t, gw = Some t /\
            t = grad_weight_spec (unfolded x K1 p s) g N C K1 Co L /\
            exact_gradient
              (fun a => snd (forward x a bias stride padding ctx)) g w t
     else gw = None) /\
    match bias with
    | Some b =>
        if n2
        then exists t, gb = Some t /\
               t = grad_bias_spec g N Co (out_size H p K1 s)
                     (out_size W p K1 s) /\
               exact_gradient
                 (fun a => snd (forward x w (Some a) stride padding ctx)) g b t
        else gb = None
    | None => gb = None
    end) /\
  (forall t, shape t = shape out -> wf t ->
     s_shape (of_tensor t) = shape out /\
     length (s_strides (of_tensor t)) = 4%nat /\
     viewable (s_shape (of_tensor t)) (s_strides (of_tensor t)) [N; Co; L]
     = true /\
     contiguous (of_tensor t) = t) /\
  (forall gs', s_shape gs' = shape out -> length (s_strides gs') = 4%nat ->
     viewable (s_shape gs') (s_strides gs') [N; Co; L] = false ->
     snd (backward gs' ctx') = Err RuntimeError).
Proof.
  intros Hx Wx Hw Ww Hb Hneeds Hfw Hgs Hlen s p L Hview g.
  destruct (forward_ok_inv x w bias stride padding ctx ctx' out
              N C H W Co Ci K1 K2 Hx Hw Hfw)
    as (<- & <- & sz & pz & -> & -> & Hs & Hp & HfH & HfW & HK & HCo & HN).
  cbn [int_of] in s, p. subst s p L.
  set (s := Z.to_nat sz) in *. set (p := Z.to_nat pz) in *.
  set (Ho := out_size H p K1 s) in *. set (Wo := out_size W p K1 s) in *.
  assert (Hrun : forall x' w' bias',
    shape x' = [N; C; H; W] -> shape w' = [Co; C; K1; K1] -> wf w' ->
    bias_ok Co bias' ->
    forward x' w' bias' (PyInt sz) (PyInt pz) ctx =
    (save_for_backward (unfolded x' K1 p s, w', bias')
       (save_conv_params sz pz H W ctx),
     Ok (conv2d_reference x' w' bias' s p))).
  { intros x' w' bias' Hx' Hw' Ww' Hb'.
    apply (forward_run x' w' bias' sz pz ctx N C H W Co K1); assumption. }
  rewrite (Hrun x w bias Hx Hw Ww Hb) in Hfw.
  injection Hfw as <- <-.
  assert (Hso : shape (conv2d_reference x w bias s p) = [N; Co; Ho; Wo]).
  { unfold conv2d_reference, size. rewrite Hx, Hw. reflexivity. }
  rewrite Hso in Hgs.
  assert (Hg : shape g = [N; Co; Ho; Wo]) by exact Hgs.
  assert (Wg : wf g).
  { apply wf_contiguous. rewrite Hlen, Hgs. reflexivity. }
  assert (Hok : conv_params_ok H W K1 p s = true).
  { apply conv_params_ok_spec. unfold p, s. lia. }
  split.
  2:{ split.
      - intros t Ht Wt. rewrite Hso in Ht.
        cbn [of_tensor s_shape s_strides]. rewrite Ht.
        split; [symmetry; exact Hso|]. split; [reflexivity|]. split.
        + apply viewable_row_major; auto; apply out_size_pos.
        + apply contiguous_of_tensor. exact Wt.
      - intros gs' Hs' Hl' Hv'. rewrite Hso in Hs'.
        apply (backward_not_viewable gs' _ N Co Ho Wo); assumption. }
  pose proof (backward_run x w bias gs
    (save_for_backward (unfolded x K1 p s, w, bias)
       (save_conv_params sz pz H W ctx))
    N C H W Co K1 n0 n1 n2) as Hback.
  cbn [ctx_padding ctx_stride save_for_backward save_conv_params] in Hback.
  fold s p Ho Wo g in Hback.
  specialize (Hback Hx Hw Ww Hg Wg Hview Hok HN HCo
                eq_refl eq_refl eq_refl Hneeds).
  do 3 eexists. split; [exact Hback|].
  split; [|split].
  - destruct n0; [|reflexivity].
    eexists. split; [reflexivity|]. split.
    { apply (fold_eq _ N C (Ho * Wo)); auto. }
    split; [cbn [folded shape]; symmetry; exact Hx|].
    intros d Hd. rewrite Hx in Hd.
    exists (conv2d_reference x w bias s p),
           (conv2d_reference (tadd x d) w bias s p).
    rewrite (Hrun x w bias Hx Hw Ww Hb).
    rewrite (Hrun (tadd x d) w bias) by (auto; cbn [tadd shape]; assumption).
    cbn [snd]. split; [reflexivity|]. split; [reflexivity|].
    apply (grad_input_exact x d w bias g N C H W Co K1 s p); assumption.
  - destruct n1; [|reflexivity].
    eexists. split; [reflexivity|]. split; [reflexivity|].
    split; [cbn [grad_weight_spec shape]; symmetry; exact Hw|].
    intros d Hd.
    exists (conv2d_reference x w bias s p),
           (conv2d_reference x (tadd w d) bias s p).
    rewrite (Hrun x w bias Hx Hw Ww Hb).
    rewrite (Hrun x (tadd w d) bias)
      by (auto using wf_tadd; cbn [tadd shape]; assumption).
    cbn [snd]. split; [reflexivity|]. split; [reflexivity|].
    apply (grad_weight_exact x w d bias g N C H W Co K1 s p); assumption.
  - destruct bias as [b|]; [|reflexivity].
    destruct n2; [|reflexivity].
    destruct Hb as [Hsb Hlb].
    eexists. split; [reflexivity|]. split; [reflexivity|].
    split; [cbn [grad_bias_spec shape]; symmetry; exact Hsb|].
    intros d Hd.
    exists (conv2d_reference x w (Some b) s p),
           (conv2d_reference x w (Some (tadd b d)) s p).
    rewrite (Hrun x w (Some b) Hx Hw Ww (conj Hsb Hlb)).
    assert (Hb' : bias_ok Co (Some (tadd b d))).
    { split; [exact Hsb|]. cbn [tadd data]. rewrite length_tab1. exact Hlb. }
    rewrite (Hrun x w (Some (tadd b d)) Hx Hw Ww Hb').
    cbn [snd]. split; [reflexivity|]. split; [reflexivity|].
    apply (grad_bias_exact x w b d g N C H W Co K1 s p); assumption.
Qed.

Lemma backward_exact_gradients_witness :
  (exists gi gw gb,
    backward (of_tensor ex_g)
      (fst (forward ex_x ex_w (Some ex_b) (PyInt 1) (PyInt 0) ex_ctx))
    = (fst (forward ex_x ex_w (Some ex_b) (PyInt 1) (PyInt 0) ex_ctx),
       Ok (gi, gw, gb)) /\
    (exists t, gi = Some t /\
       fold (grad_patches ex_w (contiguous (of_tensor ex_g))
               1 (1 * 2 * 2) 1 (3 * 3)) (4, 4)%nat 2 0 1
       = Ok t /\
       exact_gradient
         (fun a => snd (forward a ex_w (Some ex_b) (PyInt 1) (PyInt 0) ex_ctx))
         (contiguous (of_tensor ex_g)) ex_x t) /\
    (exists t, gw = Some t /\
       t = grad_weight_spec (unfolded ex_x 2 0 1) (contiguous (of_tensor ex_g))
             1 1 2 1 (3 * 3) /\
       exact_gradient
         (fun a => snd (forward ex_x a (Some ex_b) (PyInt 1) (PyInt 0) ex_ctx))
         (contiguous (of_tensor ex_g)) ex_w t) /\
    (exists t, gb = Some t /\
       t = grad_bias_spec (contiguous (of_tensor ex_g)) 1 1 3 3 /\
       exact_gradient
         (fun a => snd (forward ex_x ex_w (Some a) (PyInt 1) (PyInt 0) ex_ctx))
         (contiguous (of_tensor ex_g)) ex_b t)) /\
  (forall t,
     shape t = shape (conv2d_reference ex_x ex_w (Some ex_b) 1 0) -> wf t ->
     s_shape (of_tensor t) = shape (conv2d_reference ex_x ex_w (Some ex_b) 1 0) /\
     length (s_strides (of_tensor t)) = 4%nat /\
     viewable (s_shape (of_tensor t)) (s_strides (of_tensor t))
       [1; 1; 3 * 3]%nat = true /\
     contiguous (of_tensor t) = t) /\
  (forall gs',
     s_shape gs' = shape (conv2d_reference ex_x ex_w (Some ex_b) 1 0) ->
     length (s_strides gs') = 4%nat ->
     viewable (s_shape gs') (s_strides gs') [1; 1; 3 * 3]%nat = false ->
     snd (backward gs'
            (fst (forward ex_x ex_w (Some ex_b) (PyInt 1) (PyInt 0) ex_ctx)))
     = Err RuntimeError).
Proof.
  apply (backward_exact_gradients ex_x ex_w (Some ex_b) (PyInt 1) (PyInt 0)
           ex_ctx
           (fst (forward ex_x ex_w (Some ex_b) (PyInt 1) (PyInt 0) ex_ctx))
           (conv2d_reference ex_x ex_w (Some ex_b) 1 0)
           (of_tensor ex_g) 1 1 4 4 1 1 2 2 true true true); try reflexivity.
  split; reflexivity.
Defined.

End Claims.

(** ** Reasoning about computations on the heap *)

Section Hoare.

Lemma post_bind {A B} (m : ST World A) (k : A -> ST World B) w Q E :
  post m w (fun w' a => post (k a) w' Q E) E -> post (bind m k) w Q E.
Proof. unfold post, bind. destruct (m w) as [w' [a|e]]; auto. Qed.

Lemma post_ret {A} (a : A) w (Q : World -> A -> Prop) E :
  Q w a -> post (ret a) w Q E.
Proof. auto. Qed.

Lemma post_load l w o (Q : World -> TObj -> Prop) E :
  heap w !! l = Some o -> Q w o -> post (load l) w Q E.
Proof. intros Hl HQ. unfold post, load. rewrite Hl. exact HQ. Qed.

Lemma post_store l o w (Q : World -> unit -> Prop) E :
  Q (set_heap (<[l := o]> (heap w)) w) tt -> post (store l o) w Q E.
Proof. auto. Qed.

Lemma post_alloc o w (Q : World -> nat -> Prop) E :
  (forall l, l ∉ dom (heap w) -> Q (set_heap (<[l := o]> (heap w)) w) l) ->
  post (alloc o) w Q E.
Proof. intros H. unfold post, alloc. apply H. apply is_fresh. Qed.

Lemma post_modify f w (Q : World -> unit -> Prop) E :
  Q (f w) tt -> post (modify f) w Q E.
Proof. auto. Qed.

Lemma post_get_training w (Q : World -> bool -> Prop) E :
  Q w (training (module w)) -> post get_training w Q E.
Proof. auto. Qed.

Lemma post_lift {A} (r : result A) w (Q : World -> A -> Prop) E :
  match r with Ok a => Q w a | Err e => E w e end -> post (lift r) w Q E.
Proof. unfold post, lift. auto. Qed.

Lemma post_call model t w (Q : World -> Tensor -> Prop) E :
  match call model (training (module w)) t with
  | Ok a => Q w a
  | Err e => E w e
  end -> post (call_model model t) w Q E.
Proof. unfold post, call_model. auto. Qed.

Lemma post_weaken {A} (m : ST World A) w (Q Q' : World -> A -> Prop)
      (E E' : World -> error -> Prop) :
  post m w Q E ->
  (forall w' a, Q w' a -> Q' w' a) -> (forall w' e, E w' e -> E' w' e) ->
  post m w Q' E'.
Proof.
  unfold post. destruct (m w) as [w' [a|e]]; auto.
Qed.

Lemma not_in_dom_ne (h : gmap nat TObj) l i o :
  l ∉ dom h -> h !! i = Some o -> l <> i.
Proof.
  intros Hl Hi ->. apply Hl. apply elem_of_dom. eauto.
Qed.

End Hoare.

(** ** The attack *)

Section Attack.

Variables (self : PGDAttack) (model : DiffModel) (input : nat).

Lemma clamp_code_eq (eps x v : Z) :
  Z.max (Z.min v (x + eps)) (x - eps) = clamp (x - eps) (x + eps) v.
Proof. unfold clamp. apply Z.max_comm. Qed.

Lemma nth_map_in_range (f : Z -> Z) l i :
  (i < length l)%nat -> nth i (map f l) 0 = f (nth i l 0).
Proof.
  intros Hi. rewrite (nth_indep _ 0 (f 0)) by (rewrite length_map; exact Hi).
  apply map_nth.
Qed.

Lemma tzip_clamp (eps : Z) (x t : Tensor) :
  numel t = numel x ->
  tzip Z.max (tzip Z.min t (tmap (fun v => v + eps) x))
             (tmap (fun v => v - eps) x)
  = clamp_box eps x t.
Proof.
  intros Hn. unfold tzip, tmap, clamp_box, numel. cbn [shape data].
  rewrite length_tab1. f_equal. apply tab1_ext. intros i Hi.
  rewrite nth_tab1 by assumption.
  unfold numel in Hn.
  rewrite !nth_map_in_range by lia. apply clamp_code_eq.
Qed.

(** One iteration of the loop is one step of the specification; it moves
    neither the input object nor the model. *)
Lemma pgd_iteration_post w output xo oo :
  heap w !! input = Some xo -> heap w !! output = Some oo ->
  output <> input ->
  numel (t_val oo) = numel (t_val xo) ->
  post (pgd_iteration self model input output) w
    (fun w' next =>
       module w' = module w /\ heap w' !! input = Some xo /\
       (next <> input) /\ (next ∉ dom (heap w)) /\
       dom (heap w) ⊆ dom (heap w') /\
       exists no, heap w' !! next = Some no /\
         numel (t_val no) = numel (t_val xo) /\
         shape (t_val no) = shape (t_val oo) /\
         pgd_step_spec self model (training (module w)) (t_val xo) (t_val oo)
         = Ok (t_val no))
    (fun w' e =>
       module w' = module w /\ heap w' !! input = Some xo /\
       dom (heap w) ⊆ dom (heap w') /\
       pgd_step_spec self model (training (module w)) (t_val xo) (t_val oo)
       = Err e).
Proof.
  intros Hin Hout Hne Hnum.
  unfold pgd_iteration, pgd_step_spec, pgd_gradient.
  apply post_bind, (post_load _ _ oo); [exact Hout|].
  apply post_bind, post_store.
  apply post_bind, post_call. cbn [set_heap heap module].
  assert (Hin1 : <[output := {| t_val := t_val oo; requires_grad := true;
                                grad := zero_grad oo |}]> (heap w) !! input
                 = Some xo)
    by (rewrite lookup_insert_ne by assumption; exact Hin).
  destruct (call model (training (module w)) (t_val oo)) as [logits|e];
    cbn [rbind].
  2:{ cbn [set_heap heap module]. repeat split; auto.
      rewrite dom_insert_L. set_solver. }
  apply post_bind, post_lift.
  destruct (argmin_dim1 logits) as [pred|e]; cbn [rbind].
  2:{ cbn [set_heap heap module]. repeat split; auto.
      rewrite dom_insert_L. set_solver. }
  apply post_bind, post_lift.
  destruct (loss_value (loss_fn self) logits pred) as [lv|e]; cbn [rbind].
  2:{ cbn [set_heap heap module]. repeat split; auto.
      rewrite dom_insert_L. set_solver. }
  apply post_bind, post_get_training. cbn [module].
  apply post_bind, post_alloc. intros l1 Hl1. cbn [heap] in Hl1.
  apply post_bind, (post_load _ _ _ _ _ (lookup_insert_eq _ _ _)).
  assert (Hl1i : l1 <> input) by (eapply not_in_dom_ne; eauto).
  apply post_bind, (post_load _ _ xo);
    [cbn [set_heap heap]; rewrite lookup_insert_ne by assumption; exact Hin1|].
  apply post_alloc. intros l2 Hl2. cbn [set_heap heap module] in *.
  assert (Hl2i : l2 <> input).
  { eapply not_in_dom_ne; [exact Hl2|].
    rewrite lookup_insert_ne by assumption. exact Hin1. }
  rewrite !dom_insert_L in Hl2. rewrite dom_insert_L in Hl1.
  split; [reflexivity|]. split.
  { rewrite !lookup_insert_ne by assumption. exact Hin. }
  split; [exact Hl2i|]. split; [set_solver|].
  split; [rewrite !dom_insert_L; set_solver|].
  eexists. split; [apply lookup_insert_eq|]. cbn [t_val].
  rewrite tzip_clamp
    by (unfold tzip, numel; cbn [data]; rewrite length_tab1; exact Hnum).
  split; [|split; [reflexivity|reflexivity]].
  unfold clamp_box, tzip, numel. cbn [data].
  rewrite !length_tab1. exact Hnum.
Qed.


Lemma clamp_bounds lo hi v : lo <= hi -> lo <= clamp lo hi v <= hi.
Proof. unfold clamp. lia. Qed.


Lemma nth_map_seq {A} (f : nat -> A) N n d :
  (n < N)%nat -> nth n (map f (seq 0 N)) d = f n.
Proof.
  intros Hn.
  rewrite (nth_indep _ d (f 0%nat)) by (rewrite length_map, length_seq; lia).
  rewrite map_nth, seq_nth by lia. reflexivity.
Qed.


Lemma argmax_upto_spec k (f : nat -> Z) :
  (0 < k)%nat ->
  (argmax_upto k f < k)%nat /\
  forall j, (j < k)%nat -> f j <= f (argmax_upto k f).
Proof.
  induction k as [|k IH]; intros Hk; [lia|]. cbn [argmax_upto].
  destruct k as [|k].
  - cbn. split; [lia|]. intros j Hj. replace j with 0%nat by lia. lia.
  - destruct IH as [IH1 IH2]; [lia|].
    replace (0 <? S k)%nat with true by reflexivity. cbn [andb].
    destruct (Z.ltb_spec (f (argmax_upto (S k) f)) (f (S k))) as [Hlt|Hge].
    + split; [lia|]. intros j Hj.
      destruct (Nat.eq_dec j (S k)) as [->|Hne]; [lia|].
      specialize (IH2 j). lia.
    + split; [lia|]. intros j Hj.
      destruct (Nat.eq_dec j (S k)) as [->|Hne]; [lia|].
      apply IH2. lia.
Qed.


Lemma argmax_dim1_spec logits labels n :
  argmax_dim1 logits = Ok labels -> (n < size logits 0)%nat ->
  (nth n labels 0 < size logits 1)%nat /\
  forall k, (k < size logits 1)%nat ->
    get2 logits n k <= get2 logits n (nth n labels 0%nat).
Proof.
  unfold argmax_dim1, size.
  destruct (shape logits) as [|N [|K [|]]] eqn:Hs; try discriminate.
  cbn [nth]. destruct (Nat.ltb_spec 0 K) as [HK|HK]; [|discriminate].
  intros [= <-] Hn.
  rewrite nth_map_seq by exact Hn.
  apply (argmax_upto_spec K (fun k => get2 logits n k) HK).
Qed.

(** A step of the specification, element by element. *)
Lemma pgd_step_data mode x c c' :
  pgd_step_spec self model mode x c = Ok c' ->
  exists logits label,
    call model mode c = Ok logits /\ argmin_dim1 logits = Ok label /\
    numel c' = numel c /\ shape c' = shape c /\
    forall i, (i < numel c)%nat ->
      nth i (data c') 0 =
      clamp (nth i (data x) 0 - epsilon self) (nth i (data x) 0 + epsilon self)
        (nth i (data c) 0 - step_size self *
           Z.sgn (nth i (data (pgd_gradient self model mode c logits label)) 0)).
Proof.
  unfold pgd_step_spec.
  destruct (call model mode c) as [logits|] eqn:Ec; [|discriminate].
  cbn [rbind].
  destruct (argmin_dim1 logits) as [label|] eqn:Ea; [|discriminate].
  cbn [rbind].
  destruct (loss_value _ _ _) as [lv|]; [|discriminate]. cbn [rbind].
  intros [= <-]. exists logits, label.
  split; [reflexivity|]. split; [exact Ea|].
  unfold clamp_box, tzip, numel. cbn [shape data]. rewrite !length_tab1.
  split; [reflexivity|]. split; [reflexivity|].
  intros i Hi. rewrite !nth_tab1 by assumption. reflexivity.
Qed.

Lemma pgd_step_box mode x c c' :
  0 <= epsilon self ->
  pgd_step_spec self model mode x c = Ok c' ->
  numel c' = numel c /\
  forall i, (i < numel c)%nat ->
    Z.abs (nth i (data c') 0 - nth i (data x) 0) <= epsilon self.
Proof.
  intros Heps Hstep.
  destruct (pgd_step_data mode x c c' Hstep)
    as (logits & label & _ & _ & Hn & _ & Hd).
  split; [exact Hn|]. intros i Hi. rewrite (Hd i Hi).
  match goal with
  | |- Z.abs (clamp ?lo ?hi ?v - _) <= _ =>
      pose proof (clamp_bounds lo hi v)
  end. lia.
Qed.

Lemma pgd_spec_box mode x k : forall c c',
  0 <= epsilon self ->
  (forall i, (i < numel c)%nat ->
     Z.abs (nth i (data c) 0 - nth i (data x) 0) <= epsilon self) ->
  pgd_spec self model mode x k c = Ok c' ->
  numel c' = numel c /\
  forall i, (i < numel c)%nat ->
    Z.abs (nth i (data c') 0 - nth i (data x) 0) <= epsilon self.
Proof.
  induction k as [|k IH]; intros c c' Heps Hc; cbn [pgd_spec].
  - intros [= <-]. auto.
  - destruct (pgd_step_spec self model mode x c) as [c1|] eqn:Hstep;
      [|discriminate].
    cbn [rbind]. intros Hrest.
    destruct (pgd_step_box mode x c c1 Heps Hstep) as [Hn1 Hb1].
    destruct (IH c1 c' Heps) as [Hn2 Hb2]; auto.
    + intros i Hi. apply Hb1. lia.
    + split; [lia|]. intros i Hi. apply Hb2. lia.
Qed.

Lemma pgd_loop_post k : forall w output xo oo,
  heap w !! input = Some xo -> heap w !! output = Some oo ->
  output <> input ->
  numel (t_val oo) = numel (t_val xo) ->
  post (pgd_loop self model input k output) w
    (fun w' out =>
       module w' = module w /\ heap w' !! input = Some xo /\
       (out <> input) /\ dom (heap w) ⊆ dom (heap w') /\
       (out = output \/ out ∉ dom (heap w)) /\
       exists fo, heap w' !! out = Some fo /\
         numel (t_val fo) = numel (t_val xo) /\
         pgd_spec self model (training (module w)) (t_val xo) k (t_val oo)
         = Ok (t_val fo))
    (fun w' e =>
       module w' = module w /\ heap w' !! input = Some xo /\
       pgd_spec self model (training (module w)) (t_val xo) k (t_val oo)
       = Err e).
Proof.
  induction k as [|k IH]; intros w output xo oo Hin Hout Hne Hnum.
  - cbn [pgd_loop pgd_spec]. apply post_ret.
    repeat split; auto. exists oo. auto.
  - cbn [pgd_loop pgd_spec]. apply post_bind.
    eapply post_weaken;
      [apply (pgd_iteration_post w output xo oo); assumption | |].
    + cbv beta.
      intros w' next (Hmod & Hin' & Hnext & Hfresh & Hdom & no & Hno & Hnn & _ & Hstep).
      rewrite Hstep. cbn [rbind].
      eapply post_weaken; [apply (IH w' next xo no); assumption | |].
      * cbv beta. rewrite Hmod.
        intros w'' out (Hmod' & Hin'' & Hout' & Hdom' & Hor & fo & Hfo & Hnf & Hsp).
        split; [exact Hmod'|]. split; [exact Hin''|]. split; [exact Hout'|].
        split; [clear - Hdom Hdom'; set_solver|]. split.
        { right. destruct Hor as [Heq|Hnew]; [rewrite Heq; exact Hfresh|].
          intros Hc. apply Hnew. set_solver. }
        exists fo. auto.
      * cbv beta. rewrite Hmod. intros w'' e (Hmod' & Hin'' & Hsp). auto.
    + cbv beta. intros w' e (Hmod & Hin' & _ & Hstep).
      rewrite Hstep. cbn [rbind]. auto.
Qed.

Lemma pgd_spec_shape mode x k : forall c c',
  pgd_spec self model mode x k c = Ok c' ->
  shape c' = shape c /\ numel c' = numel c.
Proof.
  induction k as [|k IH]; intros c c'; cbn [pgd_spec].
  - intros [= <-]. auto.
  - destruct (pgd_step_spec self model mode x c) as [c1|] eqn:Hstep;
      [|discriminate].
    cbn [rbind]. intros Hrest.
    destruct (pgd_step_data mode x c c1 Hstep)
      as (_ & _ & _ & _ & Hn & Hs & _).
    destruct (IH c1 c' Hrest) as [Hs' Hn']. split; congruence.
Qed.

(** What a call of [perturb] does to the heap and to the model. *)
Lemma perturb_post w xo :
  heap w !! input = Some xo ->
  post (perturb self model input) w
    (fun w' out =>
       module w' = module w /\ (out <> input) /\ (out ∉ dom (heap w)) /\
       heap w' !! input = Some {| t_val := t_val xo; requires_grad := false;
                                  grad := grad xo |} /\
       exists fo, heap w' !! out = Some fo /\
         numel (t_val fo) = numel (t_val xo) /\
         pgd_spec self model false (t_val xo) (Z.to_nat (num_steps self))
                  (clone (t_val xo)) = Ok (t_val fo))
    (fun w' e =>
       training (module w') = false /\
       params_requires_grad (module w') = params_requires_grad (module w) /\
       heap w' !! input = Some {| t_val := t_val xo; requires_grad := false;
                                  grad := grad xo |} /\
       pgd_spec self model false (t_val xo) (Z.to_nat (num_steps self))
                (clone (t_val xo)) = Err e).
Proof.
  intros Hin. unfold perturb.
  apply post_bind, (post_load _ _ xo); [exact Hin|].
  apply post_bind, post_alloc. intros l0 Hl0.
  assert (Hl0i : l0 <> input) by (eapply not_in_dom_ne; eauto).
  apply post_bind, post_store.
  apply post_bind, post_get_training. cbn [set_heap heap module].
  set (xo' := {| t_val := t_val xo; requires_grad := false; grad := grad xo |}).
  set (co := {| t_val := clone (t_val xo); requires_grad := requires_grad xo;
                grad := None |}).
  set (h1 := <[input := xo']> (<[l0 := co]> (heap w))).
  assert (Hin1 : h1 !! input = Some xo') by apply lookup_insert_eq.
  assert (Hout1 : h1 !! l0 = Some co).
  { unfold h1. rewrite lookup_insert_ne by auto. apply lookup_insert_eq. }
  assert (Hdom1 : dom (heap w) ⊆ dom h1).
  { unfold h1. rewrite !dom_insert_L. set_solver. }
  assert (Hnum : numel (t_val co) = numel (t_val xo')) by reflexivity.
  destruct (training (module w)) eqn:Htr.
  - apply post_bind, post_modify. cbn [set_training heap module].
    apply post_bind.
    eapply post_weaken;
      [apply (pgd_loop_post _ {| heap := h1;
                module := {| training := false;
                             params_requires_grad :=
                               params_requires_grad (module w) |} |}
                l0 xo' co); auto | |].
    + cbv beta. cbn [heap module training].
      intros w' out (Hmod & Hin' & Hout' & Hdom' & Hor & fo & Hfo & Hnf & Hsp).
      apply post_bind, post_modify. apply post_ret.
      cbn [set_training heap module]. rewrite Hmod. cbn [params_requires_grad].
      split; [destruct (module w); cbn in *; congruence|].
      split; [exact Hout'|]. split.
      { destruct Hor as [->|Hor]; [exact Hl0 | set_solver]. }
      split; [exact Hin'|]. exists fo. auto.
    + cbv beta. cbn [heap module training].
      intros w' e (Hmod & Hin' & Hsp). rewrite Hmod. auto.
  - apply post_bind, post_ret.
    apply post_bind.
    eapply post_weaken;
      [apply (pgd_loop_post _ {| heap := h1; module := module w |}
                l0 xo' co); auto | |].
    + cbv beta. cbn [heap module]. rewrite Htr.
      intros w' out (Hmod & Hin' & Hout' & Hdom' & Hor & fo & Hfo & Hnf & Hsp).
      apply post_bind, post_ret. apply post_ret.
      split; [exact Hmod|]. split; [exact Hout'|]. split.
      { destruct Hor as [->|Hor]; [exact Hl0 | set_solver]. }
      split; [exact Hin'|]. exists fo. auto.
    + cbv beta. cbn [heap module]. rewrite Htr.
      intros w' e (Hmod & Hin' & Hsp). rewrite Hmod. auto.
Qed.

End Attack.

(** ** The claims on the attack *)

Section AttackClaims.

(** C5, as stated, fails for a negative epsilon: with no step the sample
    is the input, at distance 0 > epsilon. *)
Lemma perturb_negative_epsilon :
  exists w' out fo,
    perturb (toy_attack 0 (-1)) toy_model 0%nat (toy_world true)
    = (w', Ok out) /\
    heap w' !! out = Some fo /\
    data (t_val fo) = data (t_val toy_input) /\
    ~ (Z.abs (nth 0 (data (t_val fo)) 0 - nth 0 (data (t_val toy_input)) 0)
       <= epsilon (toy_attack 0 (-1))).
Proof.
  destruct (perturb (toy_attack 0 (-1)) toy_model 0%nat (toy_world true))
    as [w' r] eqn:Hrun.
  pose proof (perturb_post (toy_attack 0 (-1)) toy_model 0%nat
                (toy_world true) toy_input eq_refl) as Hpost.
  unfold post in Hpost. rewrite Hrun in Hpost.
  destruct r as [out|e].
  - destruct Hpost as (_ & _ & _ & _ & fo & Hfo & _ & Hspec).
    cbn in Hspec. injection Hspec as Hval.
    exists w', out, fo. split; [reflexivity|]. split; [exact Hfo|].
    rewrite <- Hval. cbn. split; [reflexivity|]. lia.
  - destruct Hpost as (_ & _ & _ & Hspec). cbn in Hspec. discriminate.
Qed.

(** C5 (amended). For every model, input and configuration with
    epsilon >= 0 and any number of steps, every element of the tensor that
    [perturb] returns is within epsilon of the element of the input; with
    no step its values are those of the input.  [perturb] raises only when
    a call of the model or of the loss raised. *)
Theorem perturb_within_epsilon self model input w xo :
  0 <= epsilon self ->
  heap w !! input = Some xo ->
  match perturb self model input w with
  | (w', Ok out) =>
      exists fo, heap w' !! out = Some fo /\
        numel (t_val fo) = numel (t_val xo) /\
        (forall i, (i < numel (t_val xo))%nat ->
           Z.abs (nth i (data (t_val fo)) 0 - nth i (data (t_val xo)) 0)
           <= epsilon self) /\
        (num_steps self <= 0 -> data (t_val fo) = data (t_val xo))
  | (w', Err e) =>
      pgd_spec self model false (t_val xo) (Z.to_nat (num_steps self))
               (clone (t_val xo)) = Err e
  end.
Proof.
  intros Heps Hin.
  pose proof (perturb_post self model input w xo Hin) as Hpost.
  unfold post in Hpost.
  destruct (perturb self model input w) as [w' [out|e]].
  - destruct Hpost as (_ & _ & _ & _ & fo & Hfo & Hn & Hspec).
    exists fo. split; [exact Hfo|]. split; [exact Hn|]. split.
    + apply (pgd_spec_box self model false (t_val xo)
               (Z.to_nat (num_steps self)) (clone (t_val xo))); auto.
      intros i _. cbn [clone data]. rewrite Z.sub_diag. cbn. exact Heps.
    + intros Hz. replace (Z.to_nat (num_steps self)) with 0%nat in Hspec by lia.
      cbn in Hspec. injection Hspec as <-. reflexivity.
  - destruct Hpost as (_ & _ & _ & Hspec). exact Hspec.
Qed.

Lemma perturb_within_epsilon_witness :
  match perturb (toy_attack 3 2) toy_model 0%nat (toy_world true) with
  | (w', Ok out) =>
      exists fo, heap w' !! out = Some fo /\
        numel (t_val fo) = numel (t_val toy_input) /\
        (forall i, (i < numel (t_val toy_input))%nat ->
           Z.abs (nth i (data (t_val fo)) 0 - nth i (data (t_val toy_input)) 0)
           <= epsilon (toy_attack 3 2)) /\
        (num_steps (toy_attack 3 2) <= 0 ->
         data (t_val fo) = data (t_val toy_input))
  | (w', Err e) =>
      pgd_spec (toy_attack 3 2) toy_model false (t_val toy_input)
        (Z.to_nat (num_steps (toy_attack 3 2))) (clone (t_val toy_input))
      = Err e
  end.
Proof.
  apply (perturb_within_epsilon (toy_attack 3 2) toy_model 0%nat
           (toy_world true) toy_input).
  - cbn. lia.
  - reflexivity.
Defined.

(** C6, as stated, fails when the model raises inside the loop: the model
    is left in evaluation mode. *)
Lemma perturb_exception_leaves_eval :
  training (module (toy_world true)) = true /\
  snd (perturb (toy_attack 1 2) failing_model 0%nat (toy_world true))
  = Err RuntimeError /\
  training (module (fst (perturb (toy_attack 1 2) failing_model 0%nat
                           (toy_world true)))) = false.
Proof.
  split; [reflexivity|].
  pose proof (perturb_post (toy_attack 1 2) failing_model 0%nat
                (toy_world true) toy_input eq_refl) as Hpost.
  unfold post in Hpost.
  destruct (perturb (toy_attack 1 2) failing_model 0%nat (toy_world true))
    as [w' [out|e]]; cbn [fst snd].
  - destruct Hpost as (_ & _ & _ & _ & fo & _ & _ & Hspec).
    cbn in Hspec. discriminate.
  - destruct Hpost as (Htr & _ & _ & Hspec). cbn in Hspec.
    injection Hspec as <-. split; [reflexivity | exact Htr].
Qed.

(** C6 (amended). The attack runs the model in evaluation mode.  When
    [perturb] returns, the mode of the model (and the model as a whole) is
    what it was before the call; when an exception propagates out of the
    loop, the model is left in evaluation mode. *)
Theorem perturb_mode self model input w xo :
  heap w !! input = Some xo ->
  match perturb self model input w with
  | (w', Ok out) =>
      module w' = module w /\
      exists fo, heap w' !! out = Some fo /\
        pgd_spec self model false (t_val xo) (Z.to_nat (num_steps self))
                 (clone (t_val xo)) = Ok (t_val fo)
  | (w', Err e) =>
      training (module w') = false /\
      params_requires_grad (module w') = params_requires_grad (module w) /\
      pgd_spec self model false (t_val xo) (Z.to_nat (num_steps self))
               (clone (t_val xo)) = Err e
  end.
Proof.
  intros Hin.
  pose proof (perturb_post self model input w xo Hin) as Hpost.
  unfold post in Hpost.
  destruct (perturb self model input w) as [w' [out|e]].
  - destruct Hpost as (Hmod & _ & _ & _ & fo & Hfo & _ & Hspec). eauto.
  - destruct Hpost as (Htr & Hpar & _ & Hspec). auto.
Qed.

Lemma perturb_mode_witness :
  match perturb (toy_attack 3 2) toy_model 0%nat (toy_world true) with
  | (w', Ok out) =>
      module w' = module (toy_world true) /\
      exists fo, heap w' !! out = Some fo /\
        pgd_spec (toy_attack 3 2) toy_model false (t_val toy_input)
          (Z.to_nat (num_steps (toy_attack 3 2))) (clone (t_val toy_input))
        = Ok (t_val fo)
  | (w', Err e) =>
      training (module w') = false /\
      params_requires_grad (module w')
      = params_requires_grad (module (toy_world true)) /\
      pgd_spec (toy_attack 3 2) toy_model false (t_val toy_input)
        (Z.to_nat (num_steps (toy_attack 3 2))) (clone (t_val toy_input))
      = Err e
  end.
Proof.
  apply (perturb_mode (toy_attack 3 2) toy_model 0%nat (toy_world true)
           toy_input).
  reflexivity.
Defined.



End AttackClaims.

(** ** The saliency explainer *)

Section Saliency.

Variables (loss : LossFn) (model : DiffModel) (input : nat).

Lemma max_upto_spec k (f : nat -> Z) :
  (0 < k)%nat ->
  (forall j, (j < k)%nat -> f j <= max_upto k f) /\
  exists j, (j < k)%nat /\ max_upto k f = f j.
Proof.
  induction k as [|k IH]; intros Hk; [lia|].
  destruct k as [|k].
  - cbn. split.
    + intros j Hj. replace j with 0%nat by lia. lia.
    + exists 0%nat. split; [lia | reflexivity].
  - destruct IH as [IH1 (j0 & Hj0 & IH2)]; [lia|].
    change (max_upto (S (S k)) f)
      with (Z.max (max_upto (S k) f) (f (S k))).
    split.
    + intros j Hj. destruct (Nat.eq_dec j (S k)) as [->|Hne]; [lia|].
      specialize (IH1 j). lia.
    + destruct (Z.max_spec (max_upto (S k) f) (f (S k))) as [[_ ->]|[_ ->]].
      * exists (S k). split; [lia | reflexivity].
      * exists j0. split; [lia | exact IH2].
Qed.

Lemma nth_map_abs l i : nth i (map Z.abs l) 0 = Z.abs (nth i l 0).
Proof. exact (map_nth Z.abs l 0 i). Qed.

Lemma Forall_tab3 (P : Z -> Prop) a b c f :
  (forall i j k, (i < a)%nat -> (j < b)%nat -> (k < c)%nat -> P (f i j k)) ->
  Forall P (tab3 a b c f).
Proof.
  intros H. unfold tab3, tab2, tab1.
  apply Stdlib.Lists.List.Forall_forall. intros v Hv.
  apply in_flat_map in Hv. destruct Hv as (i & Hi & Hv).
  apply in_flat_map in Hv. destruct Hv as (j & Hj & Hv).
  apply in_map_iff in Hv. destruct Hv as (k & <- & Hk).
  apply in_seq in Hi, Hj, Hk. apply H; lia.
Qed.

(** The gradient that [loss.backward()] leaves in [input.grad]. *)
Lemma accumulated_gradient xo g i :
  (forall gr, grad xo = Some gr -> length (data gr) = numel (t_val xo)) ->
  (i < numel (t_val xo))%nat ->
  nth i (data match zero_grad xo with
              | Some z =>
                  tzip Z.add {| shape := shape (t_val xo); data := data z |} g
              | None => {| shape := shape (t_val xo); data := data g |}
              end) 0
  = nth i (data g) 0.
Proof.
  intros Hgr Hi. unfold zero_grad.
  destruct (grad xo) as [gr|]; [|reflexivity].
  unfold tzip, tmap, numel. cbn [shape data].
  rewrite length_map, (Hgr gr eq_refl).
  rewrite nth_tab1 by exact Hi.
  rewrite nth_map_in_range by (rewrite (Hgr gr eq_refl); exact Hi).
  lia.
Qed.

Lemma explain_post w xo :
  heap w !! input = Some xo ->
  post (explain loss model input) w
    (fun w' sal =>
       module w' = module (set_training false (freeze_params w)) /\
       exists logits pred,
         call model false (t_val xo) = Ok logits /\
         argmax_dim1 logits = Ok pred /\
         rbind (max_dim1 (tmap Z.abs
                  match zero_grad xo with
                  | Some z =>
                      tzip Z.add
                        {| shape := shape (t_val xo); data := data z |}
                        (vjp model false (t_val xo) (loss_vjp loss logits pred))
                  | None =>
                      {| shape := shape (t_val xo);
                         data := data (vjp model false (t_val xo)
                                         (loss_vjp loss logits pred)) |}
                  end)) unsqueeze1 = Ok sal)
    (fun w' e =>
       module w' = module (set_training false (freeze_params w))).
Proof.
  intros Hin. unfold explain.
  apply post_bind, (post_load _ _ xo); [exact Hin|].
  apply post_bind, post_store.
  apply post_bind, post_modify.
  apply post_bind, post_modify.
  apply post_bind, post_call.
  cbn [set_training set_heap freeze_params heap module training].
  destruct (call model false (t_val xo)) as [logits|e] eqn:Ec; [|reflexivity].
  apply post_bind, post_lift.
  destruct (argmax_dim1 logits) as [pred|e] eqn:Ea; [|reflexivity].
  apply post_bind, post_lift.
  destruct (loss_value loss logits pred) as [lv|e]; [|reflexivity].
  apply post_bind, post_get_training.
  cbn [set_training set_heap freeze_params heap module training].
  apply post_bind, post_store.
  apply post_bind, post_lift.
  destruct (max_dim1 _) as [m|e] eqn:Em; [|reflexivity].
  apply post_bind, post_lift.
  destruct (unsqueeze1 m) as [sal|e] eqn:Eu; [|reflexivity].
  apply post_ret. split; [reflexivity|].
  exists logits, pred. split; [reflexivity|]. split; [exact Ea|].
  rewrite Em. cbn [rbind]. exact Eu.
Qed.

End Saliency.

Section SaliencyValues.

(** The map that [explain] returns for an input of shape (N, C, H, W)
    with at least one channel, on which the model and the loss do not
    raise: the maximum over the channels of the absolute value of the
    gradient of the loss against the arg-max label. *)
Lemma explain_map_run loss model input w xo logits pred lv
        (N C H W : nat) :
  heap w !! input = Some xo ->
  shape (t_val xo) = [N; C; H; W] -> wf (t_val xo) ->
  (forall gr, grad xo = Some gr -> length (data gr) = numel (t_val xo)) ->
  (0 < C)%nat ->
  call model false (t_val xo) = Ok logits ->
  argmax_dim1 logits = Ok pred ->
  loss_value loss logits pred = Ok lv ->
  let G := vjp model false (t_val xo) (loss_vjp loss logits pred) in
  let G_at := fun n c h w' => nth (((n * C + c) * H + h) * W + w') (data G) 0 in
  exists sal,
    snd (explain loss model input w) = Ok sal /\
    shape sal = [N; 1%nat; H; W] /\ wf sal /\
    Forall (fun v => 0 <= v) (data sal) /\
    (forall n h w', (n < N)%nat -> (h < H)%nat -> (w' < W)%nat ->
       0 <= get4 sal n 0 h w' /\
       (forall c, (c < C)%nat -> Z.abs (G_at n c h w') <= get4 sal n 0 h w') /\
       exists c, (c < C)%nat /\ get4 sal n 0 h w' = Z.abs (G_at n c h w')) /\
    (forall n, (n < size logits 0)%nat ->
       (nth n pred 0 < size logits 1)%nat /\
       forall k, (k < size logits 1)%nat ->
         get2 logits n k <= get2 logits n (nth n pred 0%nat)).
Proof.
  intros Hin Hs Wx Hgr HC Hcall Harg Hloss G G_at.
  unfold explain, bind, load, store, modify, call_model, lift,
    get_training, ret.
  rewrite Hin.
  cbn [set_training set_heap freeze_params heap module training].
  rewrite Hcall, Harg, Hloss. fold G.
  set (acc := match zero_grad xo with
              | Some z =>
                  tzip Z.add {| shape := shape (t_val xo); data := data z |} G
              | None => {| shape := shape (t_val xo); data := data G |}
              end) in *.
  assert (Hsacc : shape (tmap Z.abs acc) = [N; C; H; W]).
  { unfold acc. destruct (zero_grad xo); cbn [tmap tzip shape]; exact Hs. }
  assert (Hnx : numel (t_val xo) = (N * (C * (H * W)))%nat).
  { unfold numel. rewrite Wx, Hs. cbn [numel_of fold_right].
    rewrite Nat.mul_1_r. reflexivity. }
  assert (Hget : forall n c h w', (n < N)%nat -> (c < C)%nat ->
                   (h < H)%nat -> (w' < W)%nat ->
                   get4 (tmap Z.abs acc) n c h w' = Z.abs (G_at n c h w')).
  { intros n c h w' Hn Hc Hh Hw'. unfold get4, size. rewrite Hsacc.
    cbn [nth tmap data]. rewrite nth_map_abs. f_equal.
    apply accumulated_gradient; [exact Hgr|].
    rewrite Hnx, !Nat.mul_assoc. auto using idx_lt. }
  unfold max_dim1. rewrite Hsacc.
  replace (0 <? C)%nat with true by (symmetry; apply Nat.ltb_lt; exact HC).
  cbn [unsqueeze1 shape data snd].
  eexists. split; [reflexivity|]. split; [reflexivity|].
  assert (Hval : forall n h w', (n < N)%nat -> (h < H)%nat -> (w' < W)%nat ->
            0 <= max_upto C (fun c => get4 (tmap Z.abs acc) n c h w') /\
            (forall c, (c < C)%nat ->
               Z.abs (G_at n c h w')
               <= max_upto C (fun c => get4 (tmap Z.abs acc) n c h w')) /\
            exists c, (c < C)%nat /\
              max_upto C (fun c => get4 (tmap Z.abs acc) n c h w')
              = Z.abs (G_at n c h w')).
  { intros n h w' Hn Hh Hw'.
    destruct (max_upto_spec C (fun c => get4 (tmap Z.abs acc) n c h w') HC)
      as [Hub (c0 & Hc0 & Heq)].
    assert (Hex : exists c, (c < C)%nat /\
              max_upto C (fun c => get4 (tmap Z.abs acc) n c h w')
              = Z.abs (G_at n c h w')).
    { exists c0. split; [exact Hc0|]. rewrite Heq. apply Hget; assumption. }
    split; [|split; [|exact Hex]].
    - destruct Hex as (c & _ & ->). apply Z.abs_nonneg.
    - intros c Hc. rewrite <- (Hget n c h w') by assumption.
      apply (Hub c Hc). }
  split; [|split; [|split]].
  - unfold wf. cbn [shape data numel_of fold_right].
    rewrite length_tab3. lia.
  - apply Forall_tab3. intros n h w' Hn Hh Hw'. apply Hval; assumption.
  - intros n h w' Hn Hh Hw'.
    match goal with
    | |- context [get4 ?s n 0%nat h w'] =>
        assert (Hg4 : get4 s n 0 h w' =
                      max_upto C (fun c => get4 (tmap Z.abs acc) n c h w'))
    end.
    { unfold get4 at 1, size. cbn [shape data nth].
      replace (((n * 1 + 0) * H + h) * W + w')%nat
        with ((n * H + h) * W + w')%nat by ring.
      apply nth_tab3; assumption. }
    rewrite Hg4. apply Hval; assumption.
  - intros n Hn. apply (argmax_dim1_spec logits pred n Harg Hn).
Qed.


End SaliencyValues.

(** ** The two methods on any tensor argument *)

Section GeneralMethods.

Variables (self : PGDAttack) (loss : LossFn) (model : DiffModel)
          (connected : Autograd) (input : TensorArg).

(** On a candidate of floating-point type, an iteration is the iteration
    of [perturb] on the model that raises where autograd would. *)
Lemma PGDAttack_iteration_traced output w :
  arg_is_floating input = true ->
  PGDAttack_iteration self model connected input output w
  = pgd_iteration self (traced argmin_dim1 (loss_fn self) connected model)
      (arg_loc input) output w.
Proof.
  intros Hf.
  unfold PGDAttack_iteration, pgd_iteration, bind, lift, load, store,
    call_model, get_training, traced.
  rewrite Hf. cbn [call vjp].
  destruct (heap w !! output) as [o|]; [|reflexivity].
  cbn [set_heap heap module].
  destruct (call model (training (module w)) (t_val o)) as [logits|e];
    [|reflexivity].
  cbn [rbind].
  destruct (argmin_dim1 logits) as [pred|e] eqn:Ea; [|reflexivity].
  cbn [rbind].
  destruct (loss_value (loss_fn self) logits pred) as [lv|e] eqn:El;
    [|reflexivity].
  cbn [rbind].
  destruct (connected (training (module w)) (t_val o)); [|reflexivity].
  rewrite Ea, El. reflexivity.
Qed.

Lemma PGDAttack_loop_traced k : forall output w,
  arg_is_floating input = true ->
  PGDAttack_loop self model connected input k output w
  = pgd_loop self (traced argmin_dim1 (loss_fn self) connected model)
      (arg_loc input) k output w.
Proof.
  induction k as [|k IH]; intros output w Hf; [reflexivity|].
  cbn [PGDAttack_loop pgd_loop]. unfold bind.
  rewrite PGDAttack_iteration_traced by exact Hf.
  destruct (pgd_iteration _ _ _ _ _) as [w' [next|e]]; [|reflexivity].
  apply IH. exact Hf.
Qed.

Lemma PGDAttack_perturb_traced w :
  arg_is_leaf input = true -> arg_is_floating input = true ->
  PGDAttack_perturb self model connected input w
  = perturb self (traced argmin_dim1 (loss_fn self) connected model)
      (arg_loc input) w.
Proof.
  intros Hl Hf.
  unfold PGDAttack_perturb, perturb, assign_requires_grad, bind, lift, load,
    alloc, store, get_training.
  rewrite Hl. cbn [andb].
  destruct (heap w !! arg_loc input) as [x|]; [|reflexivity].
  cbn [set_heap heap module].
  destruct (training (module w)).
  - unfold modify. rewrite PGDAttack_loop_traced by exact Hf. reflexivity.
  - unfold ret at 1 3. rewrite PGDAttack_loop_traced by exact Hf. reflexivity.
Qed.

(** With no step the loop is not entered and the type of the input is not
    looked at. *)
Lemma PGDAttack_perturb_no_step w :
  arg_is_leaf input = true -> Z.to_nat (num_steps self) = 0%nat ->
  PGDAttack_perturb self model connected input w
  = perturb self model (arg_loc input) w.
Proof.
  intros Hl Hk.
  unfold PGDAttack_perturb, perturb, assign_requires_grad, bind, lift, load,
    alloc, store, get_training.
  rewrite Hl, Hk. reflexivity.
Qed.

(** On an input that is not a leaf the assignment of line 620 raises, after
    the clone has been made. *)
Lemma PGDAttack_perturb_nonleaf w xo :
  arg_is_leaf input = false ->
  heap w !! arg_loc input = Some xo ->
  PGDAttack_perturb self model connected input w
  = (set_heap (<[fresh (dom (heap w)) :=
                   {| t_val := clone (t_val xo);
                      requires_grad := requires_grad xo; grad := None |}]>
                 (heap w)) w,
     Err RuntimeError).
Proof.
  intros Hl Hin.
  unfold PGDAttack_perturb, assign_requires_grad, bind, lift, load, alloc.
  rewrite Hl, Hin. reflexivity.
Qed.

(** On a leaf that is not of floating-point type the first iteration
    raises: the flag of the input has been cleared and the model is in
    evaluation mode. *)
Lemma PGDAttack_perturb_nonfloating w xo k :
  arg_is_leaf input = true -> arg_is_floating input = false ->
  heap w !! arg_loc input = Some xo ->
  Z.to_nat (num_steps self) = S k ->
  PGDAttack_perturb self model connected input w
  = (set_training false
       (set_heap (<[arg_loc input :=
                      {| t_val := t_val xo; requires_grad := false;
                         grad := grad xo |}]>
                  (<[fresh (dom (heap w)) :=
                       {| t_val := clone (t_val xo);
                          requires_grad := requires_grad xo; grad := None |}]>
                     (heap w))) w),
     Err RuntimeError).
Proof.
  intros Hl Hf Hin Hk.
  unfold PGDAttack_perturb, assign_requires_grad, bind, lift, load, alloc,
    store, get_training.
  rewrite Hl, Hin, Hk. cbn [andb set_heap heap module PGDAttack_loop].
  unfold PGDAttack_iteration, bind, lift. rewrite Hf.
  destruct (training (module w)) eqn:Htr.
  - reflexivity.
  - unfold ret, set_training, set_heap. cbn [heap module].
    rewrite <- Htr. destruct w as [h [tr ps]]. reflexivity.
Qed.

(** A step of the specification on the model that raises where autograd
    would is a step on the model. *)
Lemma pgd_step_traced mode x c c' :
  pgd_step_spec self (traced argmin_dim1 (loss_fn self) connected model)
    mode x c = Ok c' ->
  pgd_step_spec self model mode x c = Ok c'.
Proof.
  unfold pgd_step_spec, pgd_gradient, traced. cbn [call vjp].
  destruct (call model mode c) as [logits|e]; [|discriminate].
  cbn [rbind].
  destruct (argmin_dim1 logits) as [pred|e] eqn:Ea; [|discriminate].
  cbn [rbind].
  destruct (loss_value (loss_fn self) logits pred) as [lv|e] eqn:El;
    [|discriminate].
  cbn [rbind].
  destruct (connected mode c); [|discriminate].
  cbn [rbind]. rewrite Ea. cbn [rbind]. rewrite El. cbn [rbind]. auto.
Qed.

Lemma pgd_spec_traced mode x k : forall c c',
  pgd_spec self (traced argmin_dim1 (loss_fn self) connected model)
    mode x k c = Ok c' ->
  pgd_spec self model mode x k c = Ok c'.
Proof.
  induction k as [|k IH]; intros c c'; cbn [pgd_spec]; [auto|].
  destruct (pgd_step_spec self (traced _ _ _ _) mode x c) as [c1|] eqn:Hs;
    [|discriminate].
  rewrite (pgd_step_traced mode x c c1 Hs). cbn [rbind]. apply IH.
Qed.

(** What a call of [PGDAttack_perturb] does to the heap and to the model. *)
Lemma PGDAttack_perturb_post w xo :
  heap w !! arg_loc input = Some xo ->
  post (PGDAttack_perturb self model connected input) w
    (fun w' out =>
       arg_is_leaf input = true /\
       module w' = module w /\ (out <> arg_loc input) /\
       (out ∉ dom (heap w)) /\
       heap w' !! arg_loc input
       = Some {| t_val := t_val xo; requires_grad := false;
                 grad := grad xo |} /\
       exists fo, heap w' !! out = Some fo /\
         pgd_spec self model false (t_val xo) (Z.to_nat (num_steps self))
                  (clone (t_val xo)) = Ok (t_val fo))
    (fun w' e =>
       heap w' !! arg_loc input
       = Some {| t_val := t_val xo;
                 requires_grad := if arg_is_leaf input then false
                                  else requires_grad xo;
                 grad := grad xo |}).
Proof.
  intros Hin. unfold post.
  destruct (arg_is_leaf input) eqn:Hl.
  - destruct (arg_is_floating input) eqn:Hf.
    + rewrite PGDAttack_perturb_traced by assumption.
      pose proof (perturb_post self
                    (traced argmin_dim1 (loss_fn self) connected model)
                    (arg_loc input) w xo Hin) as Hpost.
      unfold post in Hpost.
      destruct (perturb _ _ _ w) as [w' [out|e]].
      * destruct Hpost as (Hmod & Hne & Hfresh & Hin' & fo & Hfo & _ & Hsp).
        repeat (split; [assumption || reflexivity|]).
        exists fo. split; [exact Hfo|]. apply pgd_spec_traced. exact Hsp.
      * apply Hpost.
    + destruct (Z.to_nat (num_steps self)) as [|k] eqn:Hk.
      * rewrite PGDAttack_perturb_no_step by assumption.
        pose proof (perturb_post self model (arg_loc input) w xo Hin)
          as Hpost.
        unfold post in Hpost. rewrite Hk in Hpost.
        destruct (perturb _ _ _ w) as [w' [out|e]].
        -- destruct Hpost as (Hmod & Hne & Hfresh & Hin' & fo & Hfo & _ & Hsp).
           repeat (split; [assumption || reflexivity|]).
           exists fo. auto.
        -- apply Hpost.
      * rewrite (PGDAttack_perturb_nonfloating w xo k) by assumption.
        cbn [set_training set_heap heap]. apply lookup_insert_eq.
  - rewrite (PGDAttack_perturb_nonleaf w xo) by assumption.
    cbn [set_heap heap].
    rewrite lookup_insert_ne.
    + rewrite Hin. destruct xo; reflexivity.
    + eapply not_in_dom_ne; [apply is_fresh | exact Hin].
Qed.

(** On a leaf of floating-point type whose loss autograd can always
    differentiate, the general method runs as [perturb]. *)
Lemma PGDAttack_iteration_leaf output w :
  arg_is_floating input = true ->
  (forall mode t, connected mode t = true) ->
  PGDAttack_iteration self model connected input output w
  = pgd_iteration self model (arg_loc input) output w.
Proof.
  intros Hf Hc.
  unfold PGDAttack_iteration, pgd_iteration, bind, lift, load, store,
    call_model, get_training.
  rewrite Hf.
  destruct (heap w !! output) as [o|]; [|reflexivity].
  cbn [set_heap heap module].
  destruct (call model (training (module w)) (t_val o)) as [logits|e];
    [|reflexivity].
  destruct (argmin_dim1 logits) as [pred|e]; [|reflexivity].
  destruct (loss_value (loss_fn self) logits pred) as [lv|e]; [|reflexivity].
  rewrite Hc. reflexivity.
Qed.

Lemma PGDAttack_loop_leaf k : forall output w,
  arg_is_floating input = true ->
  (forall mode t, connected mode t = true) ->
  PGDAttack_loop self model connected input k output w
  = pgd_loop self model (arg_loc input) k output w.
Proof.
  induction k as [|k IH]; intros output w Hf Hc; [reflexivity|].
  cbn [PGDAttack_loop pgd_loop]. unfold bind.
  rewrite PGDAttack_iteration_leaf by assumption.
  destruct (pgd_iteration _ _ _ _ _) as [w' [next|e]]; [|reflexivity].
  apply IH; assumption.
Qed.

Lemma PGDAttack_perturb_leaf w :
  arg_is_leaf input = true -> arg_is_floating input = true ->
  (forall mode t, connected mode t = true) ->
  PGDAttack_perturb self model connected input w
  = perturb self model (arg_loc input) w.
Proof.
  intros Hl Hf Hc.
  unfold PGDAttack_perturb, perturb, assign_requires_grad, bind, lift, load,
    alloc, store, get_training.
  rewrite Hl. cbn [andb].
  destruct (heap w !! arg_loc input) as [x|]; [|reflexivity].
  cbn [set_heap heap module].
  destruct (training (module w)).
  - unfold modify. rewrite PGDAttack_loop_leaf by assumption. reflexivity.
  - unfold ret at 1 3. rewrite PGDAttack_loop_leaf by assumption. reflexivity.
Qed.

(** [explain]: the assignment of line 682 raises on an input that is not a
    leaf or not of floating-point type, before anything is changed. *)
Lemma GradAttention_explain_refused w :
  arg_is_leaf input && arg_is_floating input = false ->
  GradAttention_explain loss model connected input w = (w, Err RuntimeError).
Proof.
  intros H.
  unfold GradAttention_explain, assign_requires_grad, bind, lift.
  destruct (arg_is_leaf input); [|reflexivity].
  cbn [andb] in H. rewrite H. reflexivity.
Qed.

Lemma GradAttention_explain_traced w :
  arg_is_leaf input = true -> arg_is_floating input = true ->
  GradAttention_explain loss model connected input w
  = explain loss (traced argmax_dim1 loss connected model) (arg_loc input) w.
Proof.
  intros Hl Hf.
  unfold GradAttention_explain, explain, assign_requires_grad, bind, lift,
    load, store, modify, call_model, get_training, traced.
  rewrite Hl, Hf. cbn [andb negb call vjp].
  destruct (heap w !! arg_loc input) as [x|]; [|reflexivity].
  cbn [set_training freeze_params set_heap heap module training].
  destruct (call model false (t_val x)) as [logits|e]; [|reflexivity].
  cbn [rbind].
  destruct (argmax_dim1 logits) as [pred|e] eqn:Ea; [|reflexivity].
  cbn [rbind].
  destruct (loss_value loss logits pred) as [lv|e] eqn:El; [|reflexivity].
  cbn [rbind].
  destruct (connected false (t_val x)); [|reflexivity].
  rewrite Ea, El. reflexivity.
Qed.

Lemma GradAttention_explain_leaf w :
  arg_is_leaf input = true -> arg_is_floating input = true ->
  (forall mode t, connected mode t = true) ->
  GradAttention_explain loss model connected input w
  = explain loss model (arg_loc input) w.
Proof.
  intros Hl Hf Hc.
  unfold GradAttention_explain, explain, assign_requires_grad, bind, lift,
    load, store, modify, call_model, get_training.
  rewrite Hl, Hf. cbn [andb negb].
  destruct (heap w !! arg_loc input) as [x|]; [|reflexivity].
  cbn [set_training freeze_params set_heap heap module training].
  destruct (call model false (t_val x)) as [logits|e]; [|reflexivity].
  destruct (argmax_dim1 logits) as [pred|e]; [|reflexivity].
  destruct (loss_value loss logits pred) as [lv|e]; [|reflexivity].
  rewrite Hc. reflexivity.
Qed.

End GeneralMethods.

(** ** The claims on the two methods as they are called *)

Section GeneralClaims.

(** C8, as stated, fails on an input without channels, on which the
    maximum over the channels raises although the model and the loss
    return, and on an input that is not a leaf, on which the first
    statement raises and nothing is changed. *)
Lemma explain_raises_without_channels :
  (shape (t_val no_channel_input) = [1; 0; 1; 2]%nat /\
   (exists logits pred lv,
      call constant_model false (t_val no_channel_input) = Ok logits /\
      argmax_dim1 logits = Ok pred /\
      loss_value toy_loss logits pred = Ok lv) /\
   snd (GradAttention_explain toy_loss constant_model always_connected
          (leaf_arg 0) no_channel_world) = Err RuntimeError) /\
  (shape (t_val toy_input) = [1; 1; 1; 2]%nat /\
   GradAttention_explain toy_loss toy_model always_connected
     (nonleaf_arg 0) (toy_world true)
   = (toy_world true, Err RuntimeError)).
Proof.
  split; [split; [reflexivity|split]|split; [reflexivity|]].
  - exists toy_logits, [1%nat], 0. repeat split; reflexivity.
  - vm_compute. reflexivity.
  - apply GradAttention_explain_refused. reflexivity.
Qed.

(** C8 (amended). For a leaf input of floating-point type and of shape
    (N, C, H, W) with C >= 1, on which the model and the loss return and
    the loss depends on the input, [GradAttention.explain] returns a
    tensor of shape (N, 1, H, W) whose values are non-negative and are, at
    each pixel, the maximum over the C channels of the absolute value of
    the gradient of the loss in the input, the loss being taken against
    the arg-max label of the logits of the one forward pass. *)
Theorem explain_saliency loss model connected input w xo logits pred lv
        (N C H W : nat) :
  arg_is_leaf input = true -> arg_is_floating input = true ->
  heap w !! arg_loc input = Some xo ->
  shape (t_val xo) = [N; C; H; W] -> wf (t_val xo) ->
  (forall gr, grad xo = Some gr -> length (data gr) = numel (t_val xo)) ->
  (0 < C)%nat ->
  call model false (t_val xo) = Ok logits ->
  argmax_dim1 logits = Ok pred ->
  loss_value loss logits pred = Ok lv ->
  connected false (t_val xo) = true ->
  let G := vjp model false (t_val xo) (loss_vjp loss logits pred) in
  let G_at := fun n c h w' => nth (((n * C + c) * H + h) * W + w') (data G) 0 in
  exists sal,
    snd (GradAttention_explain loss model connected input w) = Ok sal /\
    shape sal = [N; 1%nat; H; W] /\ wf sal /\
    Forall (fun v => 0 <= v) (data sal) /\
    (forall n h w', (n < N)%nat -> (h < H)%nat -> (w' < W)%nat ->
       0 <= get4 sal n 0 h w' /\
       (forall c, (c < C)%nat -> Z.abs (G_at n c h w') <= get4 sal n 0 h w') /\
       exists c, (c < C)%nat /\ get4 sal n 0 h w' = Z.abs (G_at n c h w')) /\
    (forall n, (n < size logits 0)%nat ->
       (nth n pred 0 < size logits 1)%nat /\
       forall k, (k < size logits 1)%nat ->
         get2 logits n k <= get2 logits n (nth n pred 0%nat)).
Proof.
  intros Hl Hf Hin Hs Wx Hgr HC Hcall Harg Hloss Hconn G G_at.
  rewrite GradAttention_explain_traced by assumption.
  apply (explain_map_run loss (traced argmax_dim1 loss connected model)
           (arg_loc input) w xo logits pred lv N C H W); try assumption.
  unfold traced. cbn [call]. rewrite Hcall. cbn [rbind].
  rewrite Harg. cbn [rbind]. rewrite Hloss. cbn [rbind].
  rewrite Hconn. reflexivity.
Qed.

Lemma explain_saliency_witness :
  let G := vjp two_channel_model false (t_val two_channel_input)
             (loss_vjp toy_loss two_channel_logits [1%nat]) in
  let G_at := fun n c h w' =>
                nth (((n * 2 + c) * 1 + h) * 2 + w') (data G) 0 in
  exists sal,
    snd (GradAttention_explain toy_loss two_channel_model always_connected
           (leaf_arg 0) two_channel_world) = Ok sal /\
    shape sal = [1; 1; 1; 2]%nat /\ wf sal /\
    Forall (fun v => 0 <= v) (data sal) /\
    (forall n h w', (n < 1)%nat -> (h < 1)%nat -> (w' < 2)%nat ->
       0 <= get4 sal n 0 h w' /\
       (forall c, (c < 2)%nat -> Z.abs (G_at n c h w') <= get4 sal n 0 h w') /\
       exists c, (c < 2)%nat /\ get4 sal n 0 h w' = Z.abs (G_at n c h w')) /\
    (forall n, (n < size two_channel_logits 0)%nat ->
       (nth n [1%nat] 0 < size two_channel_logits 1)%nat /\
       forall k, (k < size two_channel_logits 1)%nat ->
         get2 two_channel_logits n k
         <= get2 two_channel_logits n (nth n [1%nat] 0%nat)).
Proof.
  apply (explain_saliency toy_loss two_channel_model always_connected
           (leaf_arg 0) two_channel_world two_channel_input
           two_channel_logits [1%nat] 0 1 2 1 2);
    try reflexivity.
  - intros gr [= <-]. reflexivity.
  - lia.
Defined.

(** C9, as stated, fails: the parameters stay frozen, and the model in
    evaluation mode, after the call has returned. *)
Lemma explain_leaves_parameters_frozen :
  params_requires_grad (module (toy_world true)) = [true; true] /\
  training (module (toy_world true)) = true /\
  (exists sal,
     snd (GradAttention_explain toy_loss toy_model always_connected
            (leaf_arg 0) (toy_world true)) = Ok sal) /\
  params_requires_grad
    (module (fst (GradAttention_explain toy_loss toy_model always_connected
                    (leaf_arg 0) (toy_world true))))
  = [false; false] /\
  training
    (module (fst (GradAttention_explain toy_loss toy_model always_connected
                    (leaf_arg 0) (toy_world true))))
  = false.
Proof.
  split; [reflexivity|]. split; [reflexivity|]. split.
  - eexists. vm_compute. reflexivity.
  - split; vm_compute; reflexivity.
Qed.

(** C9 (amended). [GradAttention.explain] marks every parameter of the
    model non-trainable and puts the model in evaluation mode, and undoes
    neither: after the call has returned every requires_grad flag is False
    (its value from before the call only for a parameter that was already
    frozen) and the model is in evaluation mode.  When the first statement
    raises, on an input that is not a leaf or not of floating-point type,
    nothing has been changed. *)
Theorem explain_freezes_parameters loss model connected input w :
  match GradAttention_explain loss model connected input w with
  | (w', Ok sal) =>
      params_requires_grad (module w')
      = map (fun _ => false) (params_requires_grad (module w)) /\
      Forall (fun b => b = false) (params_requires_grad (module w')) /\
      training (module w') = false
  | (w', Err e) =>
      arg_is_leaf input && arg_is_floating input = false -> w' = w
  end.
Proof.
  destruct (arg_is_leaf input && arg_is_floating input) eqn:Hlf.
  - apply andb_prop in Hlf. destruct Hlf as [Hl Hf].
    rewrite GradAttention_explain_traced by assumption.
    destruct (heap w !! arg_loc input) as [xo|] eqn:Hin.
    + pose proof (explain_post loss (traced argmax_dim1 loss connected model)
                    (arg_loc input) w xo Hin) as Hpost.
      unfold post in Hpost.
      destruct (explain _ _ _ w) as [w' [sal|e]]; [|discriminate].
      destruct Hpost as [Hmod _]. rewrite Hmod.
      cbn [set_training freeze_params module params_requires_grad training].
      split; [reflexivity|]. split; [|reflexivity].
      apply Stdlib.Lists.List.Forall_forall. intros b Hb.
      apply in_map_iff in Hb. destruct Hb as (b0 & <- & _). reflexivity.
    + unfold explain, bind, load. rewrite Hin. discriminate.
  - rewrite GradAttention_explain_refused by exact Hlf. reflexivity.
Qed.

(** C10, as stated, fails on an input that is not a leaf: the assignment
    to its requires_grad flag raises, no sample is returned and the flag
    is left as it was. *)
Lemma perturb_nonleaf_input_raises :
  requires_grad toy_input = true /\
  snd (PGDAttack_perturb (toy_attack 3 2) toy_model always_connected
         (nonleaf_arg 0) (toy_world true)) = Err RuntimeError /\
  heap (fst (PGDAttack_perturb (toy_attack 3 2) toy_model always_connected
               (nonleaf_arg 0) (toy_world true))) !! 0%nat
  = Some toy_input.
Proof.
  rewrite (PGDAttack_perturb_nonleaf (toy_attack 3 2) toy_model
             always_connected (nonleaf_arg 0) (toy_world true) toy_input
             eq_refl eq_refl).
  split; [reflexivity|]. split; [reflexivity|].
  cbn [fst set_heap heap]. rewrite lookup_insert_ne.
  - reflexivity.
  - eapply not_in_dom_ne; [apply is_fresh | reflexivity].
Qed.

(** C10 (amended). [PGDAttack.perturb] never writes to the values, or to
    the gradient, of the input tensor, whether it returns or raises.  When
    it returns, the input is a leaf whose requires_grad flag has been set
    to False, and the sample is another tensor object, allocated during
    the call, of the shape of the input, built from a clone of the input:
    it is the clone after num_steps steps of the attack, and the clone
    itself when there is no step.  When it raises, the flag has been set
    to False if the input is a leaf and is as it was if it is not. *)
Theorem perturb_input_frame self model connected input w xo :
  heap w !! arg_loc input = Some xo ->
  match PGDAttack_perturb self model connected input w with
  | (w', Ok out) =>
      arg_is_leaf input = true /\
      heap w' !! arg_loc input
      = Some {| t_val := t_val xo; requires_grad := false;
                grad := grad xo |} /\
      (out <> arg_loc input) /\ (out ∉ dom (heap w)) /\
      exists fo, heap w' !! out = Some fo /\
        shape (t_val fo) = shape (t_val xo) /\
        numel (t_val fo) = numel (t_val xo) /\
        pgd_spec self model false (t_val xo) (Z.to_nat (num_steps self))
                 (clone (t_val xo)) = Ok (t_val fo) /\
        (num_steps self <= 0 -> t_val fo = clone (t_val xo))
  | (w', Err e) =>
      heap w' !! arg_loc input
      = Some {| t_val := t_val xo;
                requires_grad := if arg_is_leaf input then false
                                 else requires_grad xo;
                grad := grad xo |}
  end.
Proof.
  intros Hin.
  pose proof (PGDAttack_perturb_post self model connected input w xo Hin)
    as Hpost.
  unfold post in Hpost.
  destruct (PGDAttack_perturb self model connected input w) as [w' [out|e]];
    [|exact Hpost].
  destruct Hpost as (Hl & _ & Hne & Hfresh & Hin' & fo & Hfo & Hsp).
  split; [exact Hl|]. split; [exact Hin'|]. split; [exact Hne|].
  split; [exact Hfresh|]. exists fo. split; [exact Hfo|].
  destruct (pgd_spec_shape self model false (t_val xo) _ _ _ Hsp) as [Hs Hn].
  split; [exact Hs|]. split; [exact Hn|]. split; [exact Hsp|].
  intros Hz. replace (Z.to_nat (num_steps self)) with 0%nat in Hsp by lia.
  cbn [pgd_spec] in Hsp. injection Hsp as <-. reflexivity.
Qed.

Lemma perturb_input_frame_witness :
  match PGDAttack_perturb (toy_attack 3 2) toy_model always_connected
          (leaf_arg 0) (toy_world true) with
  | (w', Ok out) =>
      arg_is_leaf (leaf_arg 0) = true /\
      heap w' !! arg_loc (leaf_arg 0)
      = Some {| t_val := t_val toy_input; requires_grad := false;
                grad := grad toy_input |} /\
      (out <> arg_loc (leaf_arg 0)) /\ (out ∉ dom (heap (toy_world true))) /\
      exists fo, heap w' !! out = Some fo /\
        shape (t_val fo) = shape (t_val toy_input) /\
        numel (t_val fo) = numel (t_val toy_input) /\
        pgd_spec (toy_attack 3 2) toy_model false (t_val toy_input)
          (Z.to_nat (num_steps (toy_attack 3 2))) (clone (t_val toy_input))
        = Ok (t_val fo) /\
        (num_steps (toy_attack 3 2) <= 0 ->
         t_val fo = clone (t_val toy_input))
  | (w', Err e) =>
      heap w' !! arg_loc (leaf_arg 0)
      = Some {| t_val := t_val toy_input;
                requires_grad := if arg_is_leaf (leaf_arg 0) then false
                                 else requires_grad toy_input;
                grad := grad toy_input |}
  end.
Proof.
  apply (perturb_input_frame (toy_attack 3 2) toy_model always_connected
           (leaf_arg 0) (toy_world true) toy_input).
  reflexivity.
Defined.

End GeneralClaims.

(** * Further properties of the code *)

Section ForwardAlgebra.


Lemma list_eq_tab1 (l : list Z) n f :
  length l = n -> (forall i, (i < n)%nat -> nth i l 0 = f i) -> l = tab1 n f.
Proof.
  intros Hl Hf. apply (nth_ext _ _ 0 0).
  - rewrite length_tab1. exact Hl.
  - intros i Hi. rewrite nth_tab1 by lia. apply Hf. lia.
Qed.









End ForwardAlgebra.

Section ForwardProperties.











(** X6. The operator returns a tensor only when its contract holds and
    batch, output channels and kernel are not empty: on 4-D arguments,
    whenever [forward] returns, the kernel is square, the channel counts
    agree, the stride is a positive int, the padding a non-negative int,
    the kernel fits in the padded input, and N, C_o and K are at least 1;
    in every other case it raises. *)
Theorem forward_returns_only_if x w bias stride padding ctx
        (N C H W Co Ci K1 K2 : nat) :
  shape x = [N; C; H; W] -> shape w = [Co; Ci; K1; K2] ->
  (exists out, snd (forward x w bias stride padding ctx) = Ok out) ->
  contract x w stride padding /\ (0 < N)%nat /\ (0 < Co)%nat /\ (0 < K1)%nat.
Proof.
  intros Hx Hw [out Hout].
  destruct (forward x w bias stride padding ctx) as [ctx' r] eqn:Hfw.
  cbn [snd] in Hout. subst r.
  destruct (forward_ok_inv x w bias stride padding ctx ctx' out
              N C H W Co Ci K1 K2 Hx Hw Hfw)
    as (HK & HC & s & p & -> & -> & Hs & Hp & HfH & HfW & HK1 & HCo & HN).
  split; [|auto].
  unfold contract, size. rewrite Hx, Hw. cbn [nth].
  split; [exact HK|]. split; [exact HC|]. split.
  - exists s. auto.
  - exists p. auto.
Qed.

Lemma forward_returns_only_if_witness :
  contract ex_x ex_w (PyInt 2) (PyInt 1) /\
  (0 < 1)%nat /\ (0 < 1)%nat /\ (0 < 2)%nat.
Proof.
  apply (forward_returns_only_if ex_x ex_w (Some ex_b) (PyInt 2) (PyInt 1)
           ex_ctx 1 1 4 4 1 1 2 2); try reflexivity.
  eexists. reflexivity.
Defined.

End ForwardProperties.

Section BackwardAlgebra.

Lemma nth_tadd a d i :
  (i < numel a)%nat ->
  nth i (data (tadd a d)) 0 = nth i (data a) 0 + nth i (data d) 0.
Proof. intros Hi. unfold tadd. cbn [data]. apply nth_tab1. exact Hi. Qed.

Lemma get3_grad_patches w g N R Co L n r l :
  (n < N)%nat -> (r < R)%nat -> (l < L)%nat ->
  get3 (grad_patches w g N R Co L) n r l =
  sum_n Co (fun co =>
    nth (co * R + r) (data w) 0 * nth ((n * Co + co) * L + l) (data g) 0).
Proof.
  intros Hn Hr Hl. unfold get3, grad_patches, size. cbn [shape data nth].
  rewrite nth_tab3 by assumption. reflexivity.
Qed.

Lemma grad_patches_tadd w g1 g2 N R Co L n r l :
  numel g1 = (N * (Co * L))%nat ->
  (n < N)%nat -> (r < R)%nat -> (l < L)%nat ->
  get3 (grad_patches w (tadd g1 g2) N R Co L) n r l =
  get3 (grad_patches w g1 N R Co L) n r l +
  get3 (grad_patches w g2 N R Co L) n r l.
Proof.
  intros Hlen Hn Hr Hl. rewrite !get3_grad_patches by assumption.
  rewrite <- sum_n_plus. apply sum_n_ext. intros co Hco.
  rewrite nth_tadd; [ring|].
  rewrite Hlen, Nat.mul_assoc. auto using idx_lt.
Qed.

Lemma nth_fold_plane m n c H W K p s Ho Wo j :
  (j < H * W)%nat ->
  nth j (fold_plane m n c H W K p s Ho Wo) 0 =
  sum_n Ho (fun ho => sum_n Wo (fun wo =>
    sum_n K (fun kh => sum_n K (fun kw =>
      if ((p <=? ho * s + kh) && (ho * s + kh <? H + p) &&
          (p <=? wo * s + kw) && (wo * s + kw <? W + p))%nat
      then get3 m n ((c * K + kh) * K + kw) (ho * Wo + wo) *
           (if ((ho * s + kh - p) * W + (wo * s + kw - p) =? j)%nat
            then 1 else 0)
      else 0)))).
Proof.
  intros Hj.
  destruct (wsum_fold_plane (fun i => if (i =? j)%nat then 1 else 0)
              m n c H W K p s Ho Wo) as [Hlen Hsum].
  rewrite nth_as_wsum by (rewrite Hlen; exact Hj). exact Hsum.
Qed.

(** The scatter of [fold] is additive in the matrix it folds. *)
Lemma folded_additive m m1 m2 N C H W K p s :
  (forall n r l, (n < N)%nat -> (r < C * K * K)%nat ->
     (l < out_size H p K s * out_size W p K s)%nat ->
     get3 m n r l = get3 m1 n r l + get3 m2 n r l) ->
  folded m N C H W K p s =
  tadd (folded m1 N C H W K p s) (folded m2 N C H W K p s).
Proof.
  intros Hm. unfold folded, tadd, numel. cbn [shape data]. f_equal.
  set (Ho := out_size H p K s) in *. set (Wo := out_size W p K s) in *.
  assert (Hpl : forall m' n c,
            length (fold_plane m' n c H W K p s Ho Wo) = (H * W)%nat)
    by (intros; apply (wsum_fold_plane (fun _ => 0))).
  rewrite (length_folded (fun n c => fold_plane m1 n c H W K p s Ho Wo) N C H W)
    by (intros; apply Hpl).
  apply list_eq_tab1.
  { apply (length_folded (fun n c => fold_plane m n c H W K p s Ho Wo) N C H W).
    intros; apply Hpl. }
  intros i Hi. rewrite Nat.mul_assoc in Hi.
  apply index_split in Hi. destruct Hi as (nc & j & Hnc & Hj & ->).
  apply index_split in Hnc. destruct Hnc as (n & c & Hn & Hc & ->).
  rewrite !(nth_folded_flat (fun n c => fold_plane _ n c H W K p s Ho Wo))
    by (auto; intros; apply Hpl).
  rewrite !nth_fold_plane by exact Hj.
  rewrite <- sum_n_plus. apply sum_n_ext. intros ho Hho.
  rewrite <- sum_n_plus. apply sum_n_ext. intros wo Hwo.
  rewrite <- sum_n_plus. apply sum_n_ext. intros kh Hkh.
  rewrite <- sum_n_plus. apply sum_n_ext. intros kw Hkw.
  destruct ((p <=? ho * s + kh)%nat && (ho * s + kh <? H + p)%nat &&
            (p <=? wo * s + kw)%nat && (wo * s + kw <? W + p)%nat);
    [|reflexivity].
  rewrite Hm; [ring| assumption | | auto using idx_lt].
  rewrite <- !Nat.mul_assoc, Nat.mul_assoc. auto using idx_lt.
Qed.

Lemma grad_weight_spec_tadd u g1 g2 N C K Co L :
  numel g1 = (N * (Co * L))%nat ->
  grad_weight_spec u (tadd g1 g2) N C K Co L =
  tadd (grad_weight_spec u g1 N C K Co L) (grad_weight_spec u g2 N C K Co L).
Proof.
  intros Hlen. unfold grad_weight_spec, tadd at 2, numel. cbn [shape data].
  f_equal. rewrite length_tab2.
  apply list_eq_tab1; [apply length_tab2|].
  intros i Hi. apply index_split in Hi.
  destruct Hi as (co & r & Hco & Hr & ->).
  rewrite !nth_tab2 by assumption.
  rewrite <- sum_n_plus. apply sum_n_ext. intros n Hn.
  rewrite <- sum_n_plus. apply sum_n_ext. intros l Hl.
  rewrite nth_tadd; [ring|].
  rewrite Hlen, Nat.mul_assoc. auto using idx_lt.
Qed.

Lemma grad_bias_spec_tadd g1 g2 N Co Ho Wo :
  shape g1 = [N; Co; Ho; Wo] -> wf g1 -> shape g2 = [N; Co; Ho; Wo] ->
  grad_bias_spec (tadd g1 g2) N Co Ho Wo =
  tadd (grad_bias_spec g1 N Co Ho Wo) (grad_bias_spec g2 N Co Ho Wo).
Proof.
  intros Hg Wg Hg2. unfold grad_bias_spec, tadd at 2, numel. cbn [shape data].
  f_equal. rewrite length_tab1. apply tab1_ext. intros co Hco.
  rewrite !nth_tab1 by assumption.
  rewrite <- sum_n_plus. apply sum_n_ext. intros n Hn.
  rewrite <- sum_n_plus. apply sum_n_ext. intros h Hh.
  rewrite <- sum_n_plus. apply sum_n_ext. intros w Hw.
  rewrite (get4_tadd g1 g2 N Co Ho Wo) by assumption.
  f_equal. unfold get4, size. rewrite Hg2. reflexivity.
Qed.

End BackwardAlgebra.

Section BackwardProperties.

(** X7. [backward] is additive in grad_output: after a forward call that
    returned, for grad_outputs g1, g2 and g12 of the shape of the output
    whose strides allow the view of the first line, g12 holding the
    element-wise sum of g1 and g2, the gradients for g12 are the
    element-wise sums of the gradients for g1 and for g2 (and [None] where
    they are [None]). *)
Theorem backward_additive_in_grad_output x w bias stride padding ctx ctx' out
        g1 g2 g12 (N C H W Co Ci K1 K2 : nat) :
  shape x = [N; C; H; W] ->
  shape w = [Co; Ci; K1; K2] -> wf w ->
  bias_ok Co bias ->
  forward x w bias stride padding ctx = (ctx', Ok out) ->
  grad_output_for out g1 -> grad_output_for out g2 ->
  grad_output_for out g12 ->
  contiguous g12 = tadd (contiguous g1) (contiguous g2) ->
  exists gi1 gw1 gb1 gi2 gw2 gb2,
    backward g1 ctx' = (ctx', Ok (gi1, gw1, gb1)) /\
    backward g2 ctx' = (ctx', Ok (gi2, gw2, gb2)) /\
    backward g12 ctx'
    = (ctx', Ok (oadd gi1 gi2, oadd gw1 gw2, oadd gb1 gb2)).
Proof.
  intros Hx Hw Ww Hb Hfw Hg1 Hg2 Hg12 Hsum.
  destruct (forward_ok_inv x w bias stride padding ctx ctx' out
              N C H W Co Ci K1 K2 Hx Hw Hfw)
    as (<- & <- & sz & pz & -> & -> & Hs & Hp & HfH & HfW & HK & HCo & HN).
  set (s := Z.to_nat sz). set (p := Z.to_nat pz).
  set (Ho := out_size H p K1 s). set (Wo := out_size W p K1 s).
  rewrite (forward_run x w bias sz pz ctx N C H W Co K1) in Hfw by assumption.
  injection Hfw as <- <-. fold s p in Hg1, Hg2, Hg12 |- *.
  assert (Hout : shape (conv2d_reference x w bias s p) = [N; Co; Ho; Wo]).
  { unfold conv2d_reference, size. rewrite Hx, Hw. reflexivity. }
  assert (Hok : conv_params_ok H W K1 p s = true).
  { apply conv_params_ok_spec. unfold p, s. lia. }
  destruct (needs_input_grad ctx) as [[n0 n1] n2] eqn:Hneeds.
  assert (Hback : forall gs, grad_output_for (conv2d_reference x w bias s p) gs ->
    shape (contiguous gs) = [N; Co; Ho; Wo] /\ wf (contiguous gs) /\
    backward gs (save_for_backward (unfolded x K1 p s, w, bias)
                   (save_conv_params sz pz H W ctx)) =
    (save_for_backward (unfolded x K1 p s, w, bias)
       (save_conv_params sz pz H W ctx),
     Ok (if n0
         then Some (folded (grad_patches w (contiguous gs) N (C * K1 * K1) Co
                              (Ho * Wo))
                      N C H W K1 p s)
         else None,
         if n1
         then Some (grad_weight_spec (unfolded x K1 p s) (contiguous gs)
                      N C K1 Co (Ho * Wo))
         else None,
         match bias with
         | Some _ =>
             if n2 then Some (grad_bias_spec (contiguous gs) N Co Ho Wo)
             else None
         | None => None
         end))).
  { intros gs (Hsh & Hlen & Hview).
    unfold size in Hview. rewrite Hout in Hsh, Hlen, Hview. cbn [nth] in Hview.
    assert (Hg : shape (contiguous gs) = [N; Co; Ho; Wo]) by exact Hsh.
    assert (Wg : wf (contiguous gs))
      by (apply wf_contiguous; rewrite Hlen, Hsh; reflexivity).
    split; [exact Hg|]. split; [exact Wg|].
    pose proof (backward_run x w bias gs
      (save_for_backward (unfolded x K1 p s, w, bias)
         (save_conv_params sz pz H W ctx))
      N C H W Co K1 n0 n1 n2) as Hrun.
    cbn [ctx_padding ctx_stride save_for_backward save_conv_params] in Hrun.
    fold s p Ho Wo in Hrun.
    apply Hrun; auto. }
  destruct (Hback g1 Hg1) as (Hs1 & W1 & B1).
  destruct (Hback g2 Hg2) as (Hs2 & W2 & B2).
  destruct (Hback g12 Hg12) as (Hs12 & W12 & B12).
  assert (Hlen1 : numel (contiguous g1) = (N * (Co * (Ho * Wo)))%nat)
    by (apply (length_grad (contiguous g1) N Co Ho Wo); assumption).
  do 6 eexists.
  split; [exact B1|]. split; [exact B2|].
  rewrite B12, Hsum. f_equal. f_equal.
  f_equal; [f_equal|].
  - destruct n0; [|reflexivity]. cbn [oadd]. f_equal.
    apply folded_additive. intros n r l Hn Hr Hl.
    apply grad_patches_tadd; assumption.
  - destruct n1; [|reflexivity]. cbn [oadd]. f_equal.
    apply grad_weight_spec_tadd. exact Hlen1.
  - destruct bias as [b|]; [|reflexivity].
    destruct n2; [|reflexivity]. cbn [oadd]. f_equal.
    apply grad_bias_spec_tadd; assumption.
Qed.

Lemma backward_additive_in_grad_output_witness :
  exists gi1 gw1 gb1 gi2 gw2 gb2,
    backward (of_tensor ex_g)
      (fst (forward ex_x ex_w (Some ex_b) (PyInt 1) (PyInt 0) ex_ctx))
    = (fst (forward ex_x ex_w (Some ex_b) (PyInt 1) (PyInt 0) ex_ctx),
       Ok (gi1, gw1, gb1)) /\
    backward (of_tensor ex_g2)
      (fst (forward ex_x ex_w (Some ex_b) (PyInt 1) (PyInt 0) ex_ctx))
    = (fst (forward ex_x ex_w (Some ex_b) (PyInt 1) (PyInt 0) ex_ctx),
       Ok (gi2, gw2, gb2)) /\
    backward (of_tensor (tadd ex_g ex_g2))
      (fst (forward ex_x ex_w (Some ex_b) (PyInt 1) (PyInt 0) ex_ctx))
    = (fst (forward ex_x ex_w (Some ex_b) (PyInt 1) (PyInt 0) ex_ctx),
       Ok (oadd gi1 gi2, oadd gw1 gw2, oadd gb1 gb2)).
Proof.
  apply (backward_additive_in_grad_output ex_x ex_w (Some ex_b)
           (PyInt 1) (PyInt 0) ex_ctx
           (fst (forward ex_x ex_w (Some ex_b) (PyInt 1) (PyInt 0) ex_ctx))
           (conv2d_reference ex_x ex_w (Some ex_b) 1 0)
           (of_tensor ex_g) (of_tensor ex_g2) (of_tensor (tadd ex_g ex_g2))
           1 1 4 4 1 1 2 2); try reflexivity;
    repeat split; reflexivity.
Defined.

Lemma coverage_zero_no_window H W K p s h w ho wo :
  coverage H W K p s h w = 0 ->
  (ho < out_size H p K s)%nat -> (wo < out_size W p K s)%nat ->
  covers K p s h ho && covers K p s w wo = false.
Proof.
  intros Hcov Hho Hwo. unfold coverage in Hcov.
  destruct (covers K p s h ho && covers K p s w wo) eqn:Hc; [|reflexivity].
  exfalso.
  set (F := fun ho wo => if covers K p s h ho && covers K p s w wo
                         then 1 else 0) in *.
  assert (Hpos : forall a b, 0 <= F a b)
    by (intros a b; unfold F;
        destruct (covers K p s h a && covers K p s w b); lia).
  pose proof (sum_n_ge_term (out_size W p K s) (F ho) wo
                (fun i _ => Hpos ho i) Hwo) as H1.
  pose proof (sum_n_ge_term (out_size H p K s)
                (fun a => sum_n (out_size W p K s) (F a)) ho
                (fun a _ => sum_n_nonneg _ _ (fun b _ => Hpos a b)) Hho)
    as H2.
  cbv beta in H2.
  assert (E1 : F ho wo = 1) by (unfold F; rewrite Hc; reflexivity).
  change (sum_n (out_size H p K s)
            (fun a => sum_n (out_size W p K s) (F a)) = 0) in Hcov.
  lia.
Qed.

(** X8. An input element that no receptive field covers gets a zero
    gradient: after a forward call that returned, for a grad_output of
    the shape of the output whose strides allow the view of the first
    line, the input gradient that [backward] returns has the shape of the
    input and is zero wherever the number of covering windows is zero. *)
Theorem backward_input_grad_zero_outside_windows x w bias stride padding
        ctx ctx' out gs (N C H W Co Ci K1 K2 : nat) (n1 n2 : bool) :
  shape x = [N; C; H; W] ->
  shape w = [Co; Ci; K1; K2] -> wf w ->
  bias_ok Co bias ->
  needs_input_grad ctx = (true, n1, n2) ->
  forward x w bias stride padding ctx = (ctx', Ok out) ->
  grad_output_for out gs ->
  exists gi gw gb,
    backward gs ctx' = (ctx', Ok (Some gi, gw, gb)) /\
    shape gi = [N; C; H; W] /\
    forall n c h w',
      (n < N)%nat -> (c < C)%nat -> (h < H)%nat -> (w' < W)%nat ->
      coverage H W K1 (Z.to_nat (int_of padding)) (Z.to_nat (int_of stride))
               h w' = 0 ->
      get4 gi n c h w' = 0.
Proof.
  intros Hx Hw Ww Hb Hneeds Hfw (Hsh & Hlen & Hview).
  destruct (forward_ok_inv x w bias stride padding ctx ctx' out
              N C H W Co Ci K1 K2 Hx Hw Hfw)
    as (<- & <- & sz & pz & -> & -> & Hs & Hp & HfH & HfW & HK & HCo & HN).
  cbn [int_of].
  set (s := Z.to_nat sz). set (p := Z.to_nat pz).
  set (Ho := out_size H p K1 s). set (Wo := out_size W p K1 s).
  rewrite (forward_run x w bias sz pz ctx N C H W Co K1) in Hfw by assumption.
  injection Hfw as <- <-. fold s p in Hsh, Hlen, Hview |- *.
  assert (Hout : shape (conv2d_reference x w bias s p) = [N; Co; Ho; Wo]).
  { unfold conv2d_reference, size. rewrite Hx, Hw. reflexivity. }
  unfold size in Hview. rewrite Hout in Hsh, Hlen, Hview. cbn [nth] in Hview.
  assert (Hgs : shape (contiguous gs) = [N; Co; Ho; Wo]) by exact Hsh.
  assert (Wg : wf (contiguous gs))
    by (apply wf_contiguous; rewrite Hlen, Hsh; reflexivity).
  assert (Hok : conv_params_ok H W K1 p s = true).
  { apply conv_params_ok_spec. unfold p, s. lia. }
  pose proof (backward_run x w bias gs
    (save_for_backward (unfolded x K1 p s, w, bias)
       (save_conv_params sz pz H W ctx))
    N C H W Co K1 true n1 n2) as Hrun.
  cbn [ctx_padding ctx_stride save_for_backward save_conv_params] in Hrun.
  fold s p Ho Wo in Hrun.
  specialize (Hrun Hx Hw Ww Hgs Wg Hview Hok HN HCo
                eq_refl eq_refl eq_refl Hneeds).
  do 3 eexists. split; [exact Hrun|]. split; [reflexivity|].
  intros n c h w' Hn Hc Hh Hw' Hcov.
  unfold get4, size, folded. cbn [shape data nth].
  fold Ho Wo.
  assert (Hpl : forall m' n c,
            length (fold_plane m' n c H W K1 p s Ho Wo) = (H * W)%nat)
    by (intros; apply (wsum_fold_plane (fun _ => 0))).
  rewrite (nth_folded (fun n c => fold_plane _ n c H W K1 p s Ho Wo))
    by (auto; intros; apply Hpl).
  rewrite nth_fold_plane by (apply idx_lt; assumption).
  rewrite (sum_n_ext _ _ (fun _ => 0)); [apply sum_n_zero|].
  intros ho Hho.
  rewrite (sum_n_ext _ _ (fun _ => 0)); [apply sum_n_zero|].
  intros wo Hwo.
  rewrite (sum_n_ext _ _ (fun _ => 0)); [apply sum_n_zero|].
  intros kh Hkh.
  rewrite (sum_n_ext _ _ (fun _ => 0)); [apply sum_n_zero|].
  intros kw Hkw.
  destruct ((p <=? ho * s + kh)%nat && (ho * s + kh <? H + p)%nat &&
            (p <=? wo * s + kw)%nat && (wo * s + kw <? W + p)%nat) eqn:Hin;
    [|reflexivity].
  rewrite !andb_true_iff, !Nat.leb_le, !Nat.ltb_lt in Hin.
  rewrite flat_index_inj by lia.
  pose proof (coverage_zero_no_window H W K1 p s h w' ho wo Hcov Hho Hwo)
    as Hno.
  destruct (Nat.eqb_spec (ho * s + kh - p) h) as [Eh|];
    [|cbn [andb]; ring].
  destruct (Nat.eqb_spec (wo * s + kw - p) w') as [Ew|];
    [|cbn [andb]; ring].
  exfalso. apply andb_false_iff in Hno. unfold covers in Hno.
  rewrite !andb_false_iff, !Nat.leb_gt, !Nat.ltb_ge in Hno. lia.
Qed.

Lemma backward_input_grad_zero_outside_windows_witness :
  exists gi gw gb,
    backward (of_tensor ex_g1)
      (fst (forward ex_x3 ex_w (Some ex_b) (PyInt 2) (PyInt 0) ex_ctx))
    = (fst (forward ex_x3 ex_w (Some ex_b) (PyInt 2) (PyInt 0) ex_ctx),
       Ok (Some gi, gw, gb)) /\
    shape gi = [1; 1; 3; 3]%nat /\
    forall n c h w',
      (n < 1)%nat -> (c < 1)%nat -> (h < 3)%nat -> (w' < 3)%nat ->
      coverage 3 3 2 (Z.to_nat (int_of (PyInt 0)))
               (Z.to_nat (int_of (PyInt 2))) h w' = 0 ->
      get4 gi n c h w' = 0.
Proof.
  apply (backward_input_grad_zero_outside_windows ex_x3 ex_w (Some ex_b)
           (PyInt 2) (PyInt 0) ex_ctx
           (fst (forward ex_x3 ex_w (Some ex_b) (PyInt 2) (PyInt 0) ex_ctx))
           (conv2d_reference ex_x3 ex_w (Some ex_b) 2 0)
           (of_tensor ex_g1) 1 1 3 3 1 1 2 2 true true); try reflexivity;
    repeat split; reflexivity.
Defined.

End BackwardProperties.

Section AttackFrame.

Variables (self : PGDAttack) (model : DiffModel) (input : nat).

Lemma clamp_step lo hi v c (d : Z) :
  lo <= c <= hi -> Z.abs (v - c) <= d -> Z.abs (clamp lo hi v - c) <= d.
Proof. unfold clamp. lia. Qed.

Lemma sgn_step (s g : Z) : Z.abs (s * Z.sgn g) <= Z.abs s.
Proof.
  destruct (Z.sgn_spec g) as [[_ ->]|[[_ ->]|[_ ->]]]; lia.
Qed.

(** Each step moves each element by at most |step_size| when the
    candidate is inside the box. *)
Lemma pgd_step_drift mode x c c' :
  0 <= epsilon self ->
  (forall i, (i < numel c)%nat ->
     Z.abs (nth i (data c) 0 - nth i (data x) 0) <= epsilon self) ->
  pgd_step_spec self model mode x c = Ok c' ->
  forall i, (i < numel c)%nat ->
    Z.abs (nth i (data c') 0 - nth i (data c) 0) <= Z.abs (step_size self).
Proof.
  intros Heps Hbox Hstep i Hi.
  destruct (pgd_step_data self model mode x c c' Hstep)
    as (logits & label & _ & _ & _ & _ & Hd).
  rewrite (Hd i Hi). specialize (Hbox i Hi).
  apply clamp_step; [lia|].
  match goal with
  | |- Z.abs (_ - ?s * Z.sgn ?g - _) <= _ => pose proof (sgn_step s g)
  end. lia.
Qed.

Lemma pgd_spec_drift mode x k : forall c c',
  0 <= epsilon self ->
  (forall i, (i < numel c)%nat ->
     Z.abs (nth i (data c) 0 - nth i (data x) 0) <= epsilon self) ->
  pgd_spec self model mode x k c = Ok c' ->
  forall i, (i < numel c)%nat ->
    Z.abs (nth i (data c') 0 - nth i (data c) 0)
    <= Z.of_nat k * Z.abs (step_size self).
Proof.
  induction k as [|k IH]; intros c c' Heps Hbox; cbn [pgd_spec].
  - intros [= <-] i Hi. lia.
  - destruct (pgd_step_spec self model mode x c) as [c1|] eqn:Hstep;
      [|discriminate].
    cbn [rbind]. intros Hrest i Hi.
    destruct (pgd_step_box self model mode x c c1 Heps Hstep) as [Hn1 Hb1].
    pose proof (pgd_step_drift mode x c c1 Heps Hbox Hstep i Hi) as H1.
    assert (H2 := IH c1 c' Heps
                    (fun j Hj => Hb1 j ltac:(lia)) Hrest i ltac:(lia)).
    lia.
Qed.

Lemma pgd_iteration_frame w output xo oo :
  heap w !! input = Some xo -> heap w !! output = Some oo ->
  output <> input ->
  post (pgd_iteration self model input output) w
    (fun w' next =>
       (forall l o, l <> output -> heap w !! l = Some o ->
                    heap w' !! l = Some o) /\
       (next ∉ dom (heap w)) /\
       exists no, heap w' !! next = Some no /\
         requires_grad no = false /\ grad no = None)
    (fun w' e =>
       forall l o, l <> output -> heap w !! l = Some o ->
                   heap w' !! l = Some o).
Proof.
  intros Hin Hout Hne.
  unfold pgd_iteration.
  apply post_bind, (post_load _ _ oo); [exact Hout|].
  apply post_bind, post_store.
  apply post_bind, post_call. cbn [set_heap heap module].
  set (h1 := <[output := {| t_val := t_val oo; requires_grad := true;
                            grad := zero_grad oo |}]> (heap w)).
  assert (Hfr1 : forall l o, l <> output -> heap w !! l = Some o ->
                             h1 !! l = Some o).
  { intros l o Hl Ho. unfold h1. rewrite lookup_insert_ne by auto. exact Ho. }
  destruct (call model (training (module w)) (t_val oo)) as [logits|e];
    [|exact Hfr1].
  apply post_bind, post_lift.
  destruct (argmin_dim1 logits) as [pred|e]; [|exact Hfr1].
  apply post_bind, post_lift.
  destruct (loss_value (loss_fn self) logits pred) as [lv|e]; [|exact Hfr1].
  apply post_bind, post_get_training. cbn [module].
  apply post_bind, post_alloc. intros l1 Hl1. cbn [heap] in Hl1.
  apply post_bind, (post_load _ _ _ _ _ (lookup_insert_eq _ _ _)).
  assert (Hl1i : l1 <> input).
  { eapply not_in_dom_ne; [exact Hl1|]. apply Hfr1; eauto. }
  apply post_bind, (post_load _ _ xo).
  { cbn [set_heap heap]. rewrite lookup_insert_ne by assumption.
    apply Hfr1; auto. }
  apply post_alloc. intros l2 Hl2. cbn [set_heap heap module] in *.
  split; [|split].
  - intros l o Hl Ho. pose proof (Hfr1 l o Hl Ho) as Ho1.
    assert (l1 <> l) by (eapply not_in_dom_ne; eauto).
    assert (Ho2 : <[l1 := {| t_val := tzip (fun v g => v - step_size self * Z.sgn g)
                              (t_val oo)
                              (vjp model (training (module w)) (t_val oo)
                                 (loss_vjp (loss_fn self) logits pred));
                             requires_grad := false; grad := None |}]> h1 !! l
                  = Some o)
      by (rewrite lookup_insert_ne by assumption; exact Ho1).
    assert (l2 <> l) by (eapply not_in_dom_ne; eauto).
    rewrite lookup_insert_ne by assumption. exact Ho2.
  - rewrite !dom_insert_L in Hl2. set_solver.
  - eexists. split; [apply lookup_insert_eq|]. split; reflexivity.
Qed.

Lemma pgd_loop_frame k : forall w output xo oo,
  heap w !! input = Some xo -> heap w !! output = Some oo ->
  output <> input ->
  post (pgd_loop self model input k output) w
    (fun w' out =>
       (forall l o, l <> output -> heap w !! l = Some o ->
                    heap w' !! l = Some o) /\
       ((k = 0%nat /\ out = output /\ w' = w) \/
        (k <> 0%nat /\ exists fo, heap w' !! out = Some fo /\
           requires_grad fo = false /\ grad fo = None)))
    (fun w' e =>
       forall l o, l <> output -> heap w !! l = Some o ->
                   heap w' !! l = Some o).
Proof.
  induction k as [|k IH]; intros w output xo oo Hin Hout Hne.
  - cbn [pgd_loop]. apply post_ret. split; [auto|]. left. auto.
  - cbn [pgd_loop]. apply post_bind.
    eapply post_weaken;
      [apply (pgd_iteration_frame w output xo oo); assumption | |].
    + cbv beta. intros w' next (Hfr & Hfresh & no & Hno & Hrg & Hgr).
      assert (Hin' : heap w' !! input = Some xo) by (apply Hfr; auto).
      assert (Hni : next <> input) by (eapply not_in_dom_ne; eauto).
      eapply post_weaken; [apply (IH w' next xo no); assumption | |].
      * cbv beta. intros w'' out (Hfr' & Hres). split.
        { intros l o Hl Ho. apply Hfr'; [|apply Hfr; assumption].
          intros ->. apply Hfresh. apply elem_of_dom. eauto. }
        right. split; [discriminate|].
        destruct Hres as [(_ & -> & ->)|(_ & Hfo)]; [|exact Hfo].
        exists no. auto.
      * cbv beta. intros w'' e Hfr' l o Hl Ho.
        apply Hfr'; [|apply Hfr; assumption].
        intros ->. apply Hfresh. apply elem_of_dom. eauto.
    + cbv beta. auto.
Qed.

Lemma perturb_frame w xo :
  heap w !! input = Some xo ->
  post (perturb self model input) w
    (fun w' out =>
       (forall l o, l <> input -> heap w !! l = Some o ->
                    heap w' !! l = Some o) /\
       exists fo, heap w' !! out = Some fo /\ grad fo = None /\
         requires_grad fo =
         match Z.to_nat (num_steps self) with
         | O => requires_grad xo
         | S _ => false
         end)
    (fun w' e =>
       forall l o, l <> input -> heap w !! l = Some o ->
                   heap w' !! l = Some o).
Proof.
  intros Hin. unfold perturb.
  apply post_bind, (post_load _ _ xo); [exact Hin|].
  apply post_bind, post_alloc. intros l0 Hl0.
  assert (Hl0i : l0 <> input) by (eapply not_in_dom_ne; eauto).
  apply post_bind, post_store.
  apply post_bind, post_get_training. cbn [set_heap heap module].
  set (xo' := {| t_val := t_val xo; requires_grad := false; grad := grad xo |}).
  set (co := {| t_val := clone (t_val xo); requires_grad := requires_grad xo;
                grad := None |}).
  set (h1 := <[input := xo']> (<[l0 := co]> (heap w))).
  assert (Hin1 : h1 !! input = Some xo') by apply lookup_insert_eq.
  assert (Hout1 : h1 !! l0 = Some co).
  { unfold h1. rewrite lookup_insert_ne by auto. apply lookup_insert_eq. }
  assert (Hfr1 : forall l o, l <> input -> heap w !! l = Some o ->
                             l <> l0 /\ h1 !! l = Some o).
  { intros l o Hl Ho.
    assert (l0 <> l) by (eapply not_in_dom_ne; eauto).
    split; [auto|]. unfold h1. rewrite !lookup_insert_ne by auto. exact Ho. }
  assert (Hloop : forall m,
    post (pgd_loop self model input (Z.to_nat (num_steps self)) l0)
      {| heap := h1; module := m |}
      (fun w' out =>
         (forall l o, l <> input -> heap w !! l = Some o ->
                      heap w' !! l = Some o) /\
         exists fo, heap w' !! out = Some fo /\ grad fo = None /\
           requires_grad fo =
           match Z.to_nat (num_steps self) with
           | O => requires_grad xo
           | S _ => false
           end)
      (fun w' e =>
         forall l o, l <> input -> heap w !! l = Some o ->
                     heap w' !! l = Some o)).
  { intros m.
    eapply post_weaken;
      [apply (pgd_loop_frame _ {| heap := h1; module := m |} l0 xo' co);
       auto | |].
    - cbv beta. cbn [heap]. intros w' out (Hfr & Hres). split.
      { intros l o Hl Ho. destruct (Hfr1 l o Hl Ho). apply Hfr; assumption. }
      destruct Hres as [(Hk & -> & ->)|(Hk & fo & Hfo & Hrg & Hgr)].
      + exists co. rewrite Hk. cbn [heap]. auto.
      + exists fo. destruct (Z.to_nat (num_steps self)); [contradiction|auto].
    - cbv beta. cbn [heap]. intros w' e Hfr l o Hl Ho.
      destruct (Hfr1 l o Hl Ho). apply Hfr; assumption. }
  destruct (training (module w)) eqn:Htr.
  - apply post_bind, post_modify. cbn [set_training heap module].
    apply post_bind.
    eapply post_weaken; [apply Hloop | |].
    + cbv beta. intros w' out HQ.
      apply post_bind, post_modify. apply post_ret.
      cbn [set_training heap module]. exact HQ.
    + cbv beta. auto.
  - apply post_bind, post_ret.
    apply post_bind.
    eapply post_weaken; [apply Hloop | |].
    + cbv beta. intros w' out HQ.
      apply post_bind, post_ret. apply post_ret. exact HQ.
    + cbv beta. auto.
Qed.

End AttackFrame.

Section AttackProperties.

(** X9. The attack moves each element by at most num_steps times
    |step_size|: when epsilon is not negative, every element of the tensor
    that [PGDAttack.perturb] returns is within
    max(0, num_steps) * |step_size| of the element of the input. *)
Theorem perturb_moves_at_most_steps self model connected input w xo out :
  0 <= epsilon self ->
  heap w !! arg_loc input = Some xo ->
  snd (PGDAttack_perturb self model connected input w) = Ok out ->
  exists fo,
    heap (fst (PGDAttack_perturb self model connected input w)) !! out
    = Some fo /\
    forall i, (i < numel (t_val xo))%nat ->
      Z.abs (nth i (data (t_val fo)) 0 - nth i (data (t_val xo)) 0)
      <= Z.max 0 (num_steps self) * Z.abs (step_size self).
Proof.
  intros Heps Hin.
  pose proof (PGDAttack_perturb_post self model connected input w xo Hin)
    as Hpost.
  unfold post in Hpost.
  destruct (PGDAttack_perturb self model connected input w) as [w' [o|e]];
    cbn [fst snd]; [|discriminate].
  intros [= ->].
  destruct Hpost as (_ & _ & _ & _ & _ & fo & Hfo & Hspec).
  exists fo. split; [exact Hfo|]. intros i Hi.
  assert (Hk : Z.max 0 (num_steps self)
               = Z.of_nat (Z.to_nat (num_steps self))) by lia.
  rewrite Hk.
  apply (pgd_spec_drift self model false (t_val xo) _ (clone (t_val xo)));
    auto.
  intros j Hj. cbn [clone data]. rewrite Z.sub_diag. cbn. exact Heps.
Qed.

Lemma perturb_moves_at_most_steps_witness :
  exists fo,
    heap (fst (PGDAttack_perturb (toy_attack 3 5) toy_model always_connected
                 (leaf_arg 0) (toy_world true))) !! 7%nat
    = Some fo /\
    forall i, (i < numel (t_val toy_input))%nat ->
      Z.abs (nth i (data (t_val fo)) 0 - nth i (data (t_val toy_input)) 0)
      <= Z.max 0 (num_steps (toy_attack 3 5))
         * Z.abs (step_size (toy_attack 3 5)).
Proof.
  apply (perturb_moves_at_most_steps (toy_attack 3 5) toy_model
           always_connected (leaf_arg 0) (toy_world true) toy_input 7%nat).
  - cbn. lia.
  - reflexivity.
  - vm_compute. reflexivity.
Defined.

(** X10. [perturb] writes to no tensor of the caller other than the input:
    every other object that was on the heap before the call is there
    unchanged after it, whether the call returns or raises. *)
Theorem perturb_touches_only_input self model input w xo l o :
  heap w !! input = Some xo ->
  l <> input -> heap w !! l = Some o ->
  heap (fst (perturb self model input w)) !! l = Some o.
Proof.
  intros Hin Hl Ho.
  pose proof (perturb_frame self model input w xo Hin) as Hpost.
  unfold post in Hpost.
  destruct (perturb self model input w) as [w' [out|e]]; cbn [fst].
  - destruct Hpost as [Hfr _]. apply Hfr; assumption.
  - apply Hpost; assumption.
Qed.

Lemma perturb_touches_only_input_witness :
  heap (fst (perturb (toy_attack 3 2) toy_model 0%nat (toy_world2 true)))
    !! 1%nat
  = Some {| t_val := mkTensor [2]%nat [3; 4];
            requires_grad := true; grad := None |}.
Proof.
  apply (perturb_touches_only_input (toy_attack 3 2) toy_model 0%nat
           (toy_world2 true) toy_input 1%nat).
  - reflexivity.
  - discriminate.
  - reflexivity.
Defined.



End AttackProperties.

Section SaliencyRun.

Variables (loss : LossFn) (model : DiffModel) (input : nat).

(** The run of [explain] on a heap that holds the input. *)
Lemma explain_unfold w xo :
  heap w !! input = Some xo ->
  explain loss model input w =
  let w1 := set_training false (freeze_params
              (set_heap (<[input := {| t_val := t_val xo;
                                       requires_grad := true;
                                       grad := zero_grad xo |}]> (heap w)) w)) in
  match call model false (t_val xo) with
  | Err e => (w1, Err e)
  | Ok output =>
      match argmax_dim1 output with
      | Err e => (w1, Err e)
      | Ok pred =>
          match loss_value loss output pred with
          | Err e => (w1, Err e)
          | Ok _ =>
              let acc := accumulated_grad xo
                           (vjp model false (t_val xo)
                              (loss_vjp loss output pred)) in
              (set_heap (<[input := {| t_val := t_val xo;
                                       requires_grad := true;
                                       grad := Some acc |}]> (heap w1)) w1,
               rbind (max_dim1 (tmap Z.abs acc)) unsqueeze1)
          end
      end
  end.
Proof.
  intros Hin.
  unfold explain, bind, load, store, modify, call_model, lift, get_training,
    ret, accumulated_grad.
  rewrite Hin.
  cbn [set_training freeze_params set_heap heap module training].
  destruct (call model false (t_val xo)) as [output|e]; [|reflexivity].
  destruct (argmax_dim1 output) as [pred|e]; [|reflexivity].
  destruct (loss_value loss output pred) as [lv|e]; [|reflexivity].
  cbv zeta.
  destruct (max_dim1 _) as [m|e]; [|reflexivity].
  cbn [rbind]. destruct (unsqueeze1 m); reflexivity.
Qed.

Lemma nth_zeros (l : list Z) i : nth i (map (fun _ => 0) l) 0 = 0.
Proof.
  revert i. induction l as [|a l IH]; intros [|i]; cbn; auto.
Qed.

(** A second backward pass into a zeroed gradient leaves what the first
    one left. *)
Lemma accumulated_grad_again xo g :
  accumulated_grad {| t_val := t_val xo; requires_grad := true;
                      grad := Some (accumulated_grad xo g) |} g
  = accumulated_grad xo g.
Proof.
  unfold accumulated_grad at 1. unfold zero_grad at 1. cbn [grad t_val].
  unfold accumulated_grad, zero_grad.
  destruct (grad xo) as [gr|]; unfold tzip, tmap, numel; cbn [shape data].
  - f_equal. rewrite !length_map, length_tab1.
    apply tab1_ext. intros i Hi. rewrite !nth_zeros. reflexivity.
  - f_equal. rewrite length_map. symmetry. apply list_eq_tab1; [reflexivity|].
    intros i Hi. rewrite nth_zeros. reflexivity.
Qed.

Lemma freeze_twice w :
  set_training false (freeze_params (set_training false (freeze_params w)))
  = set_training false (freeze_params w).
Proof.
  unfold set_training, freeze_params. cbn [heap module training
    params_requires_grad]. f_equal. f_equal. apply map_map.
Qed.

End SaliencyRun.

Section SaliencyProperties.

Ltac same_world :=
  unfold set_training, freeze_params, set_heap;
  cbn [heap module training params_requires_grad];
  f_equal;
  [ rewrite ?insert_insert_eq; reflexivity
  | f_equal; rewrite ?map_map; reflexivity ].



(** X13. [explain] is idempotent: a second call on the state that a first
    call left returns what the first returned (the same map, or the same
    exception) and changes nothing any more; gradients of an earlier call
    do not add up in the map. *)
Theorem explain_idempotent loss model input w :
  explain loss model input (fst (explain loss model input w))
  = explain loss model input w.
Proof.
  destruct (heap w !! input) as [xo|] eqn:Hin.
  2:{ assert (E : explain loss model input w = (w, Err RuntimeError)).
      { unfold explain, bind, load. rewrite Hin. reflexivity. }
      rewrite E. cbn [fst]. exact E. }
  rewrite (explain_unfold loss model input w xo Hin). cbv zeta.
  set (xz := {| t_val := t_val xo; requires_grad := true;
                grad := zero_grad xo |}).
  set (w1 := set_training false (freeze_params
               (set_heap (<[input := xz]> (heap w)) w))).
  assert (Hin1 : heap w1 !! input = Some xz) by apply lookup_insert_eq.
  assert (Hz : zero_grad xz = zero_grad xo).
  { unfold zero_grad, xz. cbn [grad].
    unfold zero_grad. destruct (grad xo) as [gr|]; [|reflexivity].
    f_equal. unfold tmap. cbn [shape data]. f_equal. apply map_map. }
  assert (Hw1 : set_training false (freeze_params
                  (set_heap (<[input := xz]> (heap w1)) w1)) = w1)
    by (unfold w1; same_world).
  assert (Hfail : forall e, explain loss model input w1 = (w1, Err e) ->
            explain loss model input (fst (w1, @Err Tensor e)) = (w1, Err e))
    by (intros e He; exact He).
  destruct (call model false (t_val xo)) as [output|e] eqn:Ec.
  2:{ apply Hfail. rewrite (explain_unfold loss model input w1 xz Hin1).
      cbv zeta. cbn [t_val xz]. rewrite Ec, Hz. fold xz. rewrite Hw1.
      reflexivity. }
  destruct (argmax_dim1 output) as [pred|e] eqn:Ea.
  2:{ apply Hfail. rewrite (explain_unfold loss model input w1 xz Hin1).
      cbv zeta. cbn [t_val xz]. rewrite Ec, Ea, Hz. fold xz. rewrite Hw1.
      reflexivity. }
  destruct (loss_value loss output pred) as [lv|e] eqn:El.
  2:{ apply Hfail. rewrite (explain_unfold loss model input w1 xz Hin1).
      cbv zeta. cbn [t_val xz]. rewrite Ec, Ea, El, Hz. fold xz. rewrite Hw1.
      reflexivity. }
  cbn [fst].
  set (g := vjp model false (t_val xo) (loss_vjp loss output pred)).
  set (xa := {| t_val := t_val xo; requires_grad := true;
                grad := Some (accumulated_grad xo g) |}).
  set (w2 := set_heap (<[input := xa]> (heap w1)) w1).
  assert (Hin2 : heap w2 !! input = Some xa) by apply lookup_insert_eq.
  rewrite (explain_unfold loss model input w2 xa Hin2). cbv zeta.
  cbn [t_val xa]. rewrite Ec, Ea, El. fold g.
  assert (Hacc : accumulated_grad xa g = accumulated_grad xo g)
    by apply accumulated_grad_again.
  rewrite Hacc. f_equal. unfold w2, w1. same_world.
Qed.

End SaliencyProperties.

Section ConvModule.

Lemma wf_new_tensor src dims : wf (new_tensor src dims).
Proof. unfold wf, new_tensor. cbn [shape data]. apply length_tab1. Qed.

(** What the constructor establishes. *)
Lemma CustomConv2d_init_inv mem rand_w rand_b cin cout kernel_size stride
      padding b m :
  CustomConv2d_init mem rand_w rand_b cin cout kernel_size stride padding b
  = Done m ->
  exists K s p,
    kernel_size = PyInt K /\ stride = PyInt s /\ padding = PyInt p /\
    0 <= K /\
    conv_stride m = s /\ conv_padding m = p /\ conv_kernel_size m = K /\
    conv_in_channels m = cin /\ conv_out_channels m = cout /\
    shape (conv_weight m) = [cout; cin; Z.to_nat K; Z.to_nat K] /\
    wf (conv_weight m) /\ bias_ok cout (conv_bias m) /\
    (conv_bias m = None <-> b = false).
Proof.
  unfold CustomConv2d_init.
  destruct kernel_size as [K|]; [|discriminate].
  destruct stride as [s|]; [|discriminate].
  destruct padding as [p|]; [|discriminate].
  cbn [isinstance_int negb int_of].
  destruct (Z.ltb_spec K 0) as [HK|HK]; [discriminate|].
  unfold CustomConv2d_reset_parameters.
  cbn [conv_bias conv_weight conv_in_channels conv_out_channels
       conv_kernel_size conv_stride conv_padding].
  destruct b.
  - destruct (_ =? 0)%nat; [discriminate|]. intros [= <-].
    exists K, s, p.
    cbn [conv_bias conv_weight conv_in_channels conv_out_channels
         conv_kernel_size conv_stride conv_padding new_tensor shape].
    repeat split; auto using wf_new_tensor; try discriminate.
    unfold new_tensor. cbn [data numel_of fold_right].
    rewrite length_tab1. lia.
  - intros [= <-]. exists K, s, p.
    cbn [conv_bias conv_weight conv_in_channels conv_out_channels
         conv_kernel_size conv_stride conv_padding new_tensor shape].
    repeat split; auto using wf_new_tensor.
Qed.

End ConvModule.

Section ConvModuleProperties.

(** X14. A [CustomConv2d] that its constructor built has a square kernel of
    the declared channel counts, so that on a 4-D input its [forward]
    raises the assertion error exactly when the input channels differ from
    in_channels, the stride is not positive, the padding is negative, or
    the kernel exceeds the padded input (the constructor checks only that
    kernel size, stride and padding are ints); when none of these holds and
    nothing is empty it returns the reference convolution with the module's
    weight and bias, of shape (N, out_channels, H_o, W_o). *)
Theorem CustomConv2d_forward_after_init mem rand_w rand_b cin cout
        kernel_size stride padding b m x ctx (N C H W : nat) :
  CustomConv2d_init mem rand_w rand_b cin cout kernel_size stride padding b
  = Done m ->
  shape x = [N; C; H; W] ->
  kernel_size = PyInt (conv_kernel_size m) /\
  stride = PyInt (conv_stride m) /\ padding = PyInt (conv_padding m) /\
  0 <= conv_kernel_size m /\
  (snd (CustomConv2d_forward m x ctx) = Err AssertionError <->
   ~ (C = cin /\ 0 < conv_stride m /\ 0 <= conv_padding m /\
      conv_kernel_size m <= Z.of_nat H + 2 * conv_padding m /\
      conv_kernel_size m <= Z.of_nat W + 2 * conv_padding m)) /\
  (C = cin -> 0 < conv_stride m -> 0 <= conv_padding m ->
   conv_kernel_size m <= Z.of_nat H + 2 * conv_padding m ->
   conv_kernel_size m <= Z.of_nat W + 2 * conv_padding m ->
   (0 < N)%nat -> (0 < cout)%nat -> 0 < conv_kernel_size m ->
   snd (CustomConv2d_forward m x ctx) =
   Ok (conv2d_reference x (conv_weight m) (conv_bias m)
         (Z.to_nat (conv_stride m)) (Z.to_nat (conv_padding m))) /\
   shape (conv2d_reference x (conv_weight m) (conv_bias m)
            (Z.to_nat (conv_stride m)) (Z.to_nat (conv_padding m))) =
   [N; cout;
    out_size H (Z.to_nat (conv_padding m)) (Z.to_nat (conv_kernel_size m))
      (Z.to_nat (conv_stride m));
    out_size W (Z.to_nat (conv_padding m)) (Z.to_nat (conv_kernel_size m))
      (Z.to_nat (conv_stride m))]).
Proof.
  intros Hinit Hx.
  destruct (CustomConv2d_init_inv _ _ _ _ _ _ _ _ _ _ Hinit)
    as (K & s & p & -> & -> & -> & HK & Hs & Hp & HKm & _ & _ & Hw & Ww
        & Hb & _).
  rewrite Hs, Hp, HKm.
  split; [reflexivity|]. split; [reflexivity|]. split; [reflexivity|].
  split; [exact HK|].
  unfold CustomConv2d_forward. rewrite Hs, Hp. split.
  - rewrite forward_contract. unfold contract, size. rewrite Hx, Hw.
    cbn [nth]. rewrite Z2Nat.id by exact HK.
    split; intros Hn Hc; apply Hn.
    + destruct Hc as (HC & Hs0 & Hp0 & HH & HW).
      split; [reflexivity|]. split; [exact HC|]. split.
      * exists s. auto.
      * exists p. auto.
    + destruct Hc as (_ & HC & (s' & [= <-] & Hs0) & (p' & [= <-] & Hp0
                      & HH & HW)).
      auto.
  - intros HC Hs0 Hp0 HH HW HN HCo HK0. subst C. split.
    + rewrite (forward_run x (conv_weight m) (conv_bias m) s p ctx
                 N cin H W cout (Z.to_nat K)); auto; lia.
    + unfold conv2d_reference, size. rewrite Hx, Hw. reflexivity.
Qed.

Lemma CustomConv2d_forward_after_init_witness :
  PyInt 2 = PyInt (conv_kernel_size ex_conv) /\
  PyInt 1 = PyInt (conv_stride ex_conv) /\
  PyInt 0 = PyInt (conv_padding ex_conv) /\
  0 <= conv_kernel_size ex_conv /\
  (snd (CustomConv2d_forward ex_conv ex_x ex_ctx) = Err AssertionError <->
   ~ (1%nat = 1%nat /\ 0 < conv_stride ex_conv /\ 0 <= conv_padding ex_conv /\
      conv_kernel_size ex_conv <= Z.of_nat 4 + 2 * conv_padding ex_conv /\
      conv_kernel_size ex_conv <= Z.of_nat 4 + 2 * conv_padding ex_conv)) /\
  (1%nat = 1%nat -> 0 < conv_stride ex_conv -> 0 <= conv_padding ex_conv ->
   conv_kernel_size ex_conv <= Z.of_nat 4 + 2 * conv_padding ex_conv ->
   conv_kernel_size ex_conv <= Z.of_nat 4 + 2 * conv_padding ex_conv ->
   (0 < 1)%nat -> (0 < 1)%nat -> 0 < conv_kernel_size ex_conv ->
   snd (CustomConv2d_forward ex_conv ex_x ex_ctx) =
   Ok (conv2d_reference ex_x (conv_weight ex_conv) (conv_bias ex_conv)
         (Z.to_nat (conv_stride ex_conv)) (Z.to_nat (conv_padding ex_conv))) /\
   shape (conv2d_reference ex_x (conv_weight ex_conv) (conv_bias ex_conv)
            (Z.to_nat (conv_stride ex_conv))
            (Z.to_nat (conv_padding ex_conv))) =
   [1%nat; 1%nat;
    out_size 4 (Z.to_nat (conv_padding ex_conv))
      (Z.to_nat (conv_kernel_size ex_conv)) (Z.to_nat (conv_stride ex_conv));
    out_size 4 (Z.to_nat (conv_padding ex_conv))
      (Z.to_nat (conv_kernel_size ex_conv)) (Z.to_nat (conv_stride ex_conv))]).
Proof.
  apply (CustomConv2d_forward_after_init
           (fun _ => 0) (fun i => Z.of_nat i + 1) (fun _ => 10)
           1 1 (PyInt 2) (PyInt 1) (PyInt 0) true ex_conv ex_x ex_ctx
           1 1 4 4); reflexivity.
Defined.

(** X15. The constructor does not check the sign of stride and padding: it
    builds a module for any int stride and padding (given a positive
    kernel size and in_channels), and a module built with a stride that is
    not positive or a negative padding raises the assertion error on
    every input of at least two dimensions (one that has a channel
    dimension for the assertions to read). *)
Theorem CustomConv2d_unchecked_stride mem rand_w rand_b cin cout
        (K s p : Z) b :
  0 < K -> (0 < cin)%nat ->
  exists m,
    CustomConv2d_init mem rand_w rand_b cin cout (PyInt K) (PyInt s) (PyInt p) b
    = Done m /\
    (s <= 0 \/ p < 0 ->
     forall x ctx, (2 <= length (shape x))%nat ->
       snd (CustomConv2d_forward m x ctx) = Err AssertionError).
Proof.
  intros HK Hcin.
  destruct (CustomConv2d_init mem rand_w rand_b cin cout
              (PyInt K) (PyInt s) (PyInt p) b) as [m|e] eqn:Hinit.
  - exists m. split; [reflexivity|].
    destruct (CustomConv2d_init_inv _ _ _ _ _ _ _ _ _ _ Hinit)
      as (K' & s' & p' & [= <-] & [= <-] & [= <-] & _ & Hs & Hp & _).
    intros Hbad x ctx _. unfold CustomConv2d_forward. rewrite Hs, Hp.
    apply forward_contract. unfold contract.
    intros (_ & _ & (s' & [= <-] & Hs0) & (p' & [= <-] & Hp0 & _)). lia.
  - exfalso. revert Hinit. unfold CustomConv2d_init.
    cbn [isinstance_int negb int_of].
    destruct (Z.ltb_spec K 0) as [HK0|HK0]; [lia|].
    unfold CustomConv2d_reset_parameters.
    cbn [conv_bias conv_weight]. destruct b; [|discriminate].
    unfold size, new_tensor. cbn [shape nth].
    destruct (Nat.eqb_spec (cin * (Z.to_nat K * Z.to_nat K)) 0) as [E|E];
      [|discriminate].
    nia.
Qed.

Lemma CustomConv2d_unchecked_stride_witness :
  exists m,
    CustomConv2d_init (fun _ => 0) (fun i => Z.of_nat i + 1) (fun _ => 10)
      1 1 (PyInt 2) (PyInt 0) (PyInt 0) true = Done m /\
    (0 <= 0 \/ 0 < 0 ->
     forall x ctx, (2 <= length (shape x))%nat ->
       snd (CustomConv2d_forward m x ctx) = Err AssertionError).
Proof.
  apply (CustomConv2d_unchecked_stride
           (fun _ => 0) (fun i => Z.of_nat i + 1) (fun _ => 10)
           1 1 2 0 0 true); lia.
Defined.

End ConvModuleProperties.

Section NetReset.

Variable kaiming_normal_ : Tensor -> Tensor.

Lemma reset_parameters_cons m rest :
  reset_parameters kaiming_normal_ (m :: rest) =
  match m with
  | Conv2d weight (Some b) s p =>
      (Conv2d (kaiming_normal_ weight) (Some b) s p :: rest,
       Raise AttributeError)
  | Conv2d weight None s p =>
      (Conv2d (kaiming_normal_ weight) None s p
         :: fst (reset_parameters kaiming_normal_ rest),
       snd (reset_parameters kaiming_normal_ rest))
  | BatchNorm2d weight bias =>
      (BatchNorm2d (constant_ weight 1) (constant_ bias 0)
         :: fst (reset_parameters kaiming_normal_ rest),
       snd (reset_parameters kaiming_normal_ rest))
  | _ => (m :: fst (reset_parameters kaiming_normal_ rest),
          snd (reset_parameters kaiming_normal_ rest))
  end.
Proof.
  cbn [reset_parameters].
  destruct m as [w [b|] s p| | w b| | | | | | | |];
    try reflexivity;
    destruct (reset_parameters kaiming_normal_ rest); reflexivity.
Qed.

(** A module on which [reset_parameters] changes nothing: no
    [nn.Conv2d], and batch normalisations that are at weight 1, bias 0. *)
Lemma reset_parameters_settled ms :
  Forall (fun m => match m with
                   | Conv2d _ _ _ _ => False
                   | BatchNorm2d w b => constant_ w 1 = w /\ constant_ b 0 = b
                   | _ => True
                   end) ms ->
  reset_parameters kaiming_normal_ ms = (ms, Done tt).
Proof.
  induction 1 as [|m ms Hm _ IH]; [reflexivity|].
  rewrite reset_parameters_cons, IH. cbn [fst snd].
  destruct m as [w [b|] s p| | w b| | | | | | | |];
    try contradiction; try reflexivity.
  destruct Hm as [-> ->]. reflexivity.
Qed.

Lemma constant_new_tensor v dims :
  constant_ (new_tensor (fun _ => v) dims) v = new_tensor (fun _ => v) dims.
Proof.
  unfold constant_, tmap, new_tensor, tab1. cbn [shape data].
  rewrite map_map. reflexivity.
Qed.

End NetReset.

Section NetResetProperties.

(** X16. [reset_parameters] of the two networks raises [AttributeError]
    (the misspelt [nn.init.consintat_]) exactly when one of the modules is
    an [nn.Conv2d] with a bias, and returns otherwise; it keeps the number
    of modules and never writes to a module that is neither an
    [nn.Conv2d] nor an [nn.BatchNorm2d]. *)
Theorem reset_parameters_outcome kaiming_normal_ ms :
  (snd (reset_parameters kaiming_normal_ ms) = Raise AttributeError <->
   existsb biased_conv ms = true) /\
  (snd (reset_parameters kaiming_normal_ ms) = Done tt <->
   existsb biased_conv ms = false) /\
  length (fst (reset_parameters kaiming_normal_ ms)) = length ms /\
  (forall i m, nth_error ms i = Some m -> not_reset m = true ->
     nth_error (fst (reset_parameters kaiming_normal_ ms)) i = Some m).
Proof.
  induction ms as [|m ms (IH1 & IH2 & IH3 & IH4)].
  - cbn. repeat split; try discriminate; auto.
  - rewrite reset_parameters_cons.
    assert (Htail : forall (m0 m1 : Layer) i m',
              nth_error (m0 :: ms) i = Some m' -> not_reset m' = true ->
              (not_reset m0 = true -> m1 = m0) ->
              nth_error (m1 :: fst (reset_parameters kaiming_normal_ ms)) i
              = Some m').
    { intros m0 m1 [|i] m' Hm' Hn Hsame; cbn [nth_error] in *.
      - injection Hm' as <-. rewrite (Hsame Hn). reflexivity.
      - apply IH4; assumption. }
    destruct m as [w [b|] s p| | w b| | | | | | | |];
      cbn [fst snd existsb biased_conv orb length];
      [ split; [split; reflexivity|];
        split; [split; discriminate|];
        split; [reflexivity|];
        intros [|i] m' Hm' Hn; cbn [nth_error] in *;
        [injection Hm' as <-; discriminate Hn | exact Hm']
      | split; [exact IH1|]; split; [exact IH2|];
        split; [f_equal; exact IH3|];
        intros i m' Hm' Hn; apply (Htail _ _ i m' Hm' Hn);
        discriminate || reflexivity .. ].
Qed.

(** X17. With the default [conv_op] ([nn.Conv2d], which has a bias),
    [reset_parameters] of a [SimpleNet] and of a [CustomNet] always raises
    [AttributeError]: it draws the weight of the first convolution again,
    fails at the misspelt initialiser of its bias, and leaves every other
    module as it was. *)
Theorem reset_parameters_default_conv_raises (conv_op : ConvOp)
        kaiming_normal_ num_classes res_depth :
  (forall i o k s p, biased_conv (conv_op i o k s p) = true) ->
  reset_parameters kaiming_normal_ (SimpleNet_modules conv_op num_classes) =
  (Self :: Sequential
     :: reinit_weight kaiming_normal_ (conv_op 3 64 7 2 3)%nat
     :: skipn 3 (SimpleNet_modules conv_op num_classes),
   Raise AttributeError) /\
  reset_parameters kaiming_normal_
    (CustomNet_modules conv_op num_classes res_depth) =
  (Self :: Sequential
     :: reinit_weight kaiming_normal_ (conv_op 3 64 7 2 3)%nat
     :: skipn 3 (CustomNet_modules conv_op num_classes res_depth),
   Raise AttributeError).
Proof.
  intros Hb. pose proof (Hb 3 64 7 2 3)%nat as H1.
  unfold SimpleNet_modules, CustomNet_modules. cbn [app skipn].
  do 3 rewrite reset_parameters_cons.
  destruct (conv_op 3 64 7 2 3)%nat as [w [b|] s p| | w b| | | | | | | |];
    try discriminate H1.
  split; reflexivity.
Qed.

Lemma reset_parameters_default_conv_raises_witness :
  reset_parameters (fun t => t)
    (SimpleNet_modules ex_conv_op 100) =
  (Self :: Sequential
     :: reinit_weight (fun t => t) (ex_conv_op 3 64 7 2 3)%nat
     :: skipn 3 (SimpleNet_modules ex_conv_op 100),
   Raise AttributeError) /\
  reset_parameters (fun t => t)
    (CustomNet_modules ex_conv_op 100 4) =
  (Self :: Sequential
     :: reinit_weight (fun t => t) (ex_conv_op 3 64 7 2 3)%nat
     :: skipn 3 (CustomNet_modules ex_conv_op 100 4),
   Raise AttributeError).
Proof.
  apply (reset_parameters_default_conv_raises ex_conv_op
           (fun t => t) 100%nat 4).
  intros i o k s p. reflexivity.
Defined.

(** X18. With [CustomConv2d] as [conv_op], [reset_parameters] of a
    [SimpleNet] or [CustomNet] that has just been built returns and
    changes nothing: a [CustomConv2d] is not an [nn.Conv2d], so that no
    convolution is initialised by it. *)
Theorem reset_parameters_custom_conv_noop (conv_op : ConvOp)
        kaiming_normal_ num_classes res_depth :
  (forall i o k s p, exists m, conv_op i o k s p = CustomConv m) ->
  reset_parameters kaiming_normal_ (SimpleNet_modules conv_op num_classes) =
  (SimpleNet_modules conv_op num_classes, Done tt) /\
  reset_parameters kaiming_normal_
    (CustomNet_modules conv_op num_classes res_depth) =
  (CustomNet_modules conv_op num_classes res_depth, Done tt).
Proof.
  intros Hc.
  assert (Hconv : forall i o k s p,
            match conv_op i o k s p with
            | Conv2d _ _ _ _ => False
            | BatchNorm2d w b => constant_ w 1 = w /\ constant_ b 0 = b
            | _ => True
            end)
    by (intros i o k s p; destruct (Hc i o k s p) as [m ->]; exact I).
  assert (Hbn : forall n,
            match nn_BatchNorm2d n with
            | Conv2d _ _ _ _ => False
            | BatchNorm2d w b => constant_ w 1 = w /\ constant_ b 0 = b
            | _ => True
            end)
    by (intros n; split; apply constant_new_tensor).
  split; apply reset_parameters_settled.
  - unfold SimpleNet_modules.
    repeat (constructor; [first [exact I | apply Hconv]|]). constructor.
  - unfold CustomNet_modules. cbn [app].
    repeat (constructor; [first [exact I | apply Hconv | apply Hbn]|]).
    destruct (0 <? res_depth); cbn [app];
      repeat (constructor; [first [exact I | apply Hconv | apply Hbn]|]);
      constructor.
Qed.

Lemma reset_parameters_custom_conv_noop_witness :
  reset_parameters (fun t => t)
    (SimpleNet_modules ex_custom_conv_op 100) =
  (SimpleNet_modules ex_custom_conv_op 100, Done tt) /\
  reset_parameters (fun t => t)
    (CustomNet_modules ex_custom_conv_op 100 4) =
  (CustomNet_modules ex_custom_conv_op 100 4, Done tt).
Proof.
  apply (reset_parameters_custom_conv_noop
           ex_custom_conv_op (fun t => t) 100%nat 4).
  intros i o k s p. exists ex_conv. reflexivity.
Defined.

End NetResetProperties.
